(** * A model of [advanced-vector/vector.h]

    [RawMemory<T>] and [Vector<T>] are embedded as functions over an explicit
    world: a heap of raw blocks whose slots are either uninitialised or hold a
    live object, a store of named [Vector] objects, two lifetime counters as
    kept by an instrumented element type, and a countdown that makes the
    next fallible element operation throw.

    Conventions.
    - [size_t] values are natural numbers.  The only product in the source
      ([Size() * 2]) is applied to the number of live objects of a block.
    - [operator new] always succeeds; an exception is always one raised by an
      element operation.
    - Undefined behaviour and failed [assert]s are the outcome [Undefined];
      forming an out-of-range pointer is not checked, using it is.
    - The standard algorithms called by the source are modelled by their
      specified effect on slots; inside [uninitialized_*_n] the objects
      already built are destroyed when a later construction throws. *)

From stdpp Require Import base list gmap.

Set Default Proof Using "Type".

(** ** Element types *)

(** What the container needs to know about [T]: its value-initialised value,
    the state a moved-from object is left in, and the traits queried by
    [std::is_nothrow_move_constructible_v] and [std::is_copy_constructible_v]
    (and by the move assignments of [std::move] and [std::move_backward]). *)
Class Elem (T : Type) := {
  value_init : T;
  moved_from : T → T;
  is_nothrow_move_constructible : bool;
  is_copy_constructible : bool;
  is_nothrow_move_assignable : bool;
}.

(** [int]: nothing throws on a move and a moved-from [int] keeps its value. *)
#[export] Instance Elem_int : Elem Z := {|
  value_init := 0%Z;
  moved_from := λ x, x;
  is_nothrow_move_constructible := true;
  is_copy_constructible := true;
  is_nothrow_move_assignable := true;
|}.

(** An instrumented class whose copy and move constructors may throw; a
    moved-from object is left with id 0. *)
Inductive Obj := obj (id : nat).

#[export] Instance Elem_Obj : Elem Obj := {|
  value_init := obj 0;
  moved_from := λ _, obj 0;
  is_nothrow_move_constructible := false;
  is_copy_constructible := true;
  is_nothrow_move_assignable := false;
|}.

(** ** Pointers *)

(** A [T*] is null or points at slot [off] of block [b]. *)
Inductive ptr := nullptr | Ptr (b : nat) (off : nat).

#[export] Instance ptr_eq_dec : EqDecision ptr.
Proof. solve_decision. Defined.

Definition ptr_add (p : ptr) (n : nat) : ptr :=
  match p with
  | nullptr => nullptr
  | Ptr b off => Ptr b (off + n)
  end.

Definition ptr_sub (p : ptr) (n : nat) : option ptr :=
  match p with
  | nullptr => if n is 0 then Some nullptr else None
  | Ptr b off => if n <=? off then Some (Ptr b (off - n)) else None
  end.

(** [p <= q] on pointers into the same array. *)
Definition ptr_le (p q : ptr) : bool :=
  match p, q with
  | nullptr, nullptr => true
  | Ptr b i, Ptr c j => (b =? c) && (i <=? j)
  | _, _ => false
  end.

(** [std::distance(p, q)] for [p <= q]. *)
Definition distance (p q : ptr) : nat :=
  match p, q with
  | Ptr _ i, Ptr _ j => j - i
  | _, _ => 0
  end.

(** ** Objects of the two classes *)

Record RawMemory := mkRawMemory { buffer_ : ptr; capacity_ : nat }.

Record Vector := mkVector { data_ : RawMemory; size_ : nat }.

(** The default member initialisers of [RawMemory]. *)
Definition RawMemory_default : RawMemory :=
  {| buffer_ := nullptr; capacity_ := 0 |}.

(** Names of [Vector] objects. *)
Abbreviation vid := nat (only parsing).

(** The outcome of a call. *)
Inductive Res (A : Type) := Ok (a : A) | Throw | Undefined.
Arguments Ok {A} a.
Arguments Throw {A}.
Arguments Undefined {A}.

Section Model.
Context {T : Type} `{!Elem T}.

(** A block is a list of slots; a released block stays in the heap as
    [None], so that addresses are never reused. *)
Definition Block := list (option T).
Definition Heap := list (option Block).

Record World := mkWorld {
  heap : list (option (list (option T)));
  vecs : gmap nat Vector;
  constructed : nat;
  destroyed : nat;
  throw_countdown : option nat;
}.

Definition set_heap (h : list (option (list (option T)))) (w : World) : World :=
  mkWorld h (vecs w) (constructed w) (destroyed w) (throw_countdown w).
Definition set_vecs (vs : gmap nat Vector) (w : World) : World :=
  mkWorld (heap w) vs (constructed w) (destroyed w) (throw_countdown w).
Definition set_constructed (n : nat) (w : World) : World :=
  mkWorld (heap w) (vecs w) n (destroyed w) (throw_countdown w).
Definition set_destroyed (n : nat) (w : World) : World :=
  mkWorld (heap w) (vecs w) (constructed w) n (throw_countdown w).
Definition set_throw_countdown (c : option nat) (w : World) : World :=
  mkWorld (heap w) (vecs w) (constructed w) (destroyed w) c.

Definition empty_world : World := mkWorld [] ∅ 0 0 None.

(** ** The monad of calls *)

Definition M (A : Type) : Type := World → Res A * World.

Definition ret {A} (a : A) : M A := λ w, (Ok a, w).

Definition bind {A B} (m : M A) (f : A → M B) : M B :=
  λ w, match m w with
       | (Ok a, w') => f a w'
       | (Throw, w') => (Throw, w')
       | (Undefined, w') => (Undefined, w')
       end.

Definition undefined {A} : M A := λ w, (Undefined, w).

Definition assert (c : bool) : M unit := if c then ret tt else undefined.

Definition lift_option {A} (o : option A) : M A :=
  match o with Some a => ret a | None => undefined end.

(** [try { m } catch (...) { handler; throw; }], also used for the
    destructors of locals that run while an exception unwinds a scope. *)
Definition on_throw {A} (m : M A) (handler : M unit) : M A :=
  λ w, match m w with
       | (Throw, w') =>
           match handler w' with
           | (Ok _, w'') => (Throw, w'')
           | (_, w'') => (Undefined, w'')
           end
       | r => r
       end.

End Model.

Declare Scope call_scope.
Delimit Scope call_scope with call.
Notation "x <- m ;; f" := (bind m (λ x, f))
  (at level 100, m at next level, right associativity) : call_scope.
Notation "m ;; f" := (bind m (λ _, f))
  (at level 100, right associativity) : call_scope.
Open Scope call_scope.

Section Primitives.
Context {T : Type} `{!Elem T}.

Local Abbreviation World := (@World T).
Local Abbreviation M := (@M T).

(** ** Raw storage *)

Definition read_slot (h : list (option (list (option T)))) (p : ptr)
    : option (option T) :=
  match p with
  | nullptr => None
  | Ptr b off =>
      match h !! b with
      | Some (Some blk) => blk !! off
      | _ => None
      end
  end.

Definition write_slot (h : list (option (list (option T)))) (p : ptr)
    (s : option T) : list (option (list (option T))) :=
  match p with
  | nullptr => h
  | Ptr b off =>
      match h !! b with
      | Some (Some blk) => <[b := Some (<[off := s]> blk)]> h
      | _ => h
      end
  end.

(** [operator new(n * sizeof(T))]: a fresh block of [n] uninitialised
    slots. *)
Definition operator_new (n : nat) : M ptr :=
  λ w, (Ok (Ptr (length (heap w)) 0),
        set_heap (heap w ++ [Some (replicate n None)]) w).

(** [operator delete(buf)]: releasing null does nothing; anything else must
    be the start of a block that is still allocated. *)
Definition operator_delete (buf : ptr) : M unit :=
  λ w, match buf with
       | nullptr => (Ok tt, w)
       | Ptr b 0 =>
           match heap w !! b with
           | Some (Some _) => (Ok tt, set_heap (<[b := None]> (heap w)) w)
           | _ => (Undefined, w)
           end
       | Ptr _ (S _) => (Undefined, w)
       end.

(** Reading the value of the live object at [p]. *)
Definition load (p : ptr) : M T :=
  λ w, match read_slot (heap w) p with
       | Some (Some x) => (Ok x, w)
       | _ => (Undefined, w)
       end.

(** Overwriting the value of the live object at [p]. *)
Definition store (p : ptr) (x : T) : M unit :=
  λ w, match read_slot (heap w) p with
       | Some (Some _) => (Ok tt, set_heap (write_slot (heap w) p (Some x)) w)
       | _ => (Undefined, w)
       end.

(** An object starts to live in the uninitialised slot [p]. *)
Definition place (p : ptr) (x : T) : M unit :=
  λ w, match read_slot (heap w) p with
       | Some None => (Ok tt, set_heap (write_slot (heap w) p (Some x)) w)
       | _ => (Undefined, w)
       end.

(** ** Element operations *)

(** A fallible element operation consults the countdown. *)
Definition may_throw : M unit :=
  λ w, match throw_countdown w with
       | None => (Ok tt, w)
       | Some 0 => (Throw, set_throw_countdown None w)
       | Some (S k) => (Ok tt, set_throw_countdown (Some k) w)
       end.

Definition count_construction : M unit :=
  λ w, (Ok tt, set_constructed (S (constructed w)) w).

Definition count_destruction : M unit :=
  λ w, (Ok tt, set_destroyed (S (destroyed w)) w).

(** The constructor arguments forwarded by [Emplace]: arbitrary arguments
    from which the constructor builds [x], a [const T&] to [x], or a [T&&]
    to [x]. *)
Inductive Args := Forward (x : T) | CopyOf (x : T) | MoveOf (x : T).

(** [T(std::forward<Args>(args)...)]: the constructor call itself. *)
Definition T_construct (a : Args) : M T :=
  match a with
  | Forward x | CopyOf x => may_throw;; count_construction;; ret x
  | MoveOf x =>
      (if is_nothrow_move_constructible then ret tt else may_throw);;
      count_construction;; ret x
  end.

(** [new (p) T(args...)] *)
Definition construct_at (p : ptr) (a : Args) : M unit :=
  x <- T_construct a;; place p x.

(** Placement-new at [p] of a copy of the object at [src]. *)
Definition copy_construct_at (p src : ptr) : M unit :=
  x <- load src;; construct_at p (CopyOf x).

(** Placement-new at [p] by the move constructor from the object at [src]. *)
Definition move_construct_at (p src : ptr) : M unit :=
  x <- load src;; construct_at p (MoveOf x);; store src (moved_from x).

(** [new (p) T()] *)
Definition value_construct_at (p : ptr) : M unit :=
  may_throw;; count_construction;; place p value_init.

(** Copy assignment of the object at [src] to the object at [p]. *)
Definition copy_assign (p src : ptr) : M unit :=
  x <- load src;; _ <- load p;; may_throw;; store p x.

(** Move assignment of a local object [x] to the object at [p]; the state
    the local is left in is returned. *)
Definition move_assign_from (p : ptr) (x : T) : M T :=
  _ <- load p;;
  (if is_nothrow_move_assignable then ret tt else may_throw);;
  store p x;; ret (moved_from x).

(** Move assignment of the object at [src] to the object at [p]. *)
Definition move_assign (p src : ptr) : M unit :=
  x <- load src;; x' <- move_assign_from p x;; store src x'.

(** [std::destroy_at(p)] *)
Definition destroy_at (p : ptr) : M unit :=
  λ w, match read_slot (heap w) p with
       | Some (Some _) =>
           (Ok tt, set_destroyed (S (destroyed w))
                     (set_heap (write_slot (heap w) p None) w))
       | _ => (Undefined, w)
       end.

(** The destructor of a local [T]. *)
Definition T_destroy (x : T) : M unit := count_destruction.

(** ** Standard algorithms *)

Fixpoint destroy_n (first : ptr) (n : nat) : M unit :=
  match n with
  | 0 => ret tt
  | S n' => destroy_at first;; destroy_n (ptr_add first 1) n'
  end.

Fixpoint uninitialized_copy_n (first : ptr) (n : nat) (d_first : ptr)
    : M unit :=
  match n with
  | 0 => ret tt
  | S n' =>
      copy_construct_at d_first first;;
      on_throw (uninitialized_copy_n (ptr_add first 1) n' (ptr_add d_first 1))
               (destroy_at d_first)
  end.

Fixpoint uninitialized_move_n (first : ptr) (n : nat) (d_first : ptr)
    : M unit :=
  match n with
  | 0 => ret tt
  | S n' =>
      move_construct_at d_first first;;
      on_throw (uninitialized_move_n (ptr_add first 1) n' (ptr_add d_first 1))
               (destroy_at d_first)
  end.

Fixpoint uninitialized_value_construct_n (first : ptr) (n : nat) : M unit :=
  match n with
  | 0 => ret tt
  | S n' =>
      value_construct_at first;;
      on_throw (uninitialized_value_construct_n (ptr_add first 1) n')
               (destroy_at first)
  end.

Fixpoint copy_n (first : ptr) (n : nat) (d_first : ptr) : M unit :=
  match n with
  | 0 => ret tt
  | S n' =>
      copy_assign d_first first;;
      copy_n (ptr_add first 1) n' (ptr_add d_first 1)
  end.

(** The number of elements of the range [[first, last)]. *)
Definition range_size (first last : ptr) : M nat :=
  assert (ptr_le first last);; ret (distance first last).

Fixpoint move_n (first : ptr) (n : nat) (d_first : ptr) : M unit :=
  match n with
  | 0 => ret tt
  | S n' =>
      move_assign d_first first;;
      move_n (ptr_add first 1) n' (ptr_add d_first 1)
  end.

(** [std::move(std::make_move_iterator(first), std::make_move_iterator(last),
    d_first)] *)
Definition std_move (first last d_first : ptr) : M unit :=
  n <- range_size first last;; move_n first n d_first.

Fixpoint move_backward_n (last : ptr) (n : nat) (d_last : ptr) : M unit :=
  match n with
  | 0 => ret tt
  | S n' =>
      l <- lift_option (ptr_sub last 1);;
      d <- lift_option (ptr_sub d_last 1);;
      move_assign d l;;
      move_backward_n l n' d
  end.

(** [std::move_backward(first, last, d_last)] *)
Definition move_backward (first last d_last : ptr) : M unit :=
  n <- range_size first last;; move_backward_n last n d_last.

(** ** [RawMemory] *)

(** [Allocate] *)
Definition Allocate (n : nat) : M ptr :=
  if negb (n =? 0) then operator_new n else ret nullptr.

(** [Deallocate] *)
Definition Deallocate (buf : ptr) : M unit := operator_delete buf.

(** [explicit RawMemory(size_t capacity)] *)
Definition RawMemory_ctor (capacity : nat) : M RawMemory :=
  buf <- Allocate capacity;;
  ret {| buffer_ := buf; capacity_ := capacity |}.

(** [RawMemory(RawMemory&& other)]: returns the new object and what is left
    of [other].  The members of the new object start from their default
    initialisers. *)
Definition RawMemory_move_ctor (other : RawMemory) : M (RawMemory * RawMemory) :=
  let this := RawMemory_default in
  Deallocate (buffer_ this);;
  (* buffer_ = std::exchange(other.buffer_, nullptr) *)
  let this := {| buffer_ := buffer_ other; capacity_ := capacity_ this |} in
  let other := {| buffer_ := nullptr; capacity_ := capacity_ other |} in
  (* capacity_ = std::exchange(other.capacity_, 0) *)
  let this := {| buffer_ := buffer_ this; capacity_ := capacity_ other |} in
  let other := {| buffer_ := buffer_ other; capacity_ := 0 |} in
  ret (this, other).

(** [RawMemory& operator=(RawMemory&& rhs)] for two distinct objects: returns
    the assigned object and what is left of [rhs]. *)
Definition RawMemory_move_assign (this rhs : RawMemory)
    : M (RawMemory * RawMemory) :=
  let this := {| buffer_ := buffer_ rhs; capacity_ := capacity_ this |} in
  let rhs := {| buffer_ := nullptr; capacity_ := capacity_ rhs |} in
  let this := {| buffer_ := buffer_ this; capacity_ := capacity_ rhs |} in
  let rhs := {| buffer_ := buffer_ rhs; capacity_ := 0 |} in
  ret (this, rhs).

(** [~RawMemory()] *)
Definition RawMemory_dtor (this : RawMemory) : M unit :=
  Deallocate (buffer_ this).

(** [T* operator+(size_t offset)] *)
Definition RawMemory_plus (this : RawMemory) (offset : nat) : M ptr :=
  assert (offset <=? capacity_ this);;
  ret (ptr_add (buffer_ this) offset).

(** [T& operator[](size_t index)], as the address of the slot *)
Definition RawMemory_index (this : RawMemory) (index : nat) : M ptr :=
  assert (index <? capacity_ this);;
  ret (ptr_add (buffer_ this) index).

(** [void Swap(RawMemory& other)] *)
Definition RawMemory_Swap (this other : RawMemory) : RawMemory * RawMemory :=
  ({| buffer_ := buffer_ other; capacity_ := capacity_ other |},
   {| buffer_ := buffer_ this; capacity_ := capacity_ this |}).

Definition GetAddress (this : RawMemory) : ptr := buffer_ this.

Definition RawMemory_Capacity (this : RawMemory) : nat := capacity_ this.

End Primitives.

Section VectorClass.
Context {T : Type} `{!Elem T}.

Local Abbreviation World := (@World T).
Local Abbreviation M := (@M T).

(** ** The store of [Vector] objects *)

Definition get_vec (this : vid) : M Vector :=
  λ w, match vecs w !! this with
       | Some v => (Ok v, w)
       | None => (Undefined, w)
       end.

Definition put_vec (this : vid) (v : Vector) : M unit :=
  λ w, (Ok tt, set_vecs (<[this := v]> (vecs w)) w).

(** A declaration introduces an object under a name not in use. *)
Definition fresh_name (this : vid) : M unit :=
  λ w, match vecs w !! this with
       | None => (Ok tt, w)
       | Some _ => (Undefined, w)
       end.

Definition drop_vec (this : vid) : M unit :=
  λ w, (Ok tt, set_vecs (delete this (vecs w)) w).

Definition set_data (this : vid) (d : RawMemory) : M unit :=
  v <- get_vec this;; put_vec this {| data_ := d; size_ := size_ v |}.

Definition set_size (this : vid) (n : nat) : M unit :=
  v <- get_vec this;; put_vec this {| data_ := data_ v; size_ := n |}.

(** ** [Vector] *)

Definition Size (this : vid) : M nat :=
  v <- get_vec this;; ret (size_ v).

Definition Capacity (this : vid) : M nat :=
  v <- get_vec this;; ret (RawMemory_Capacity (data_ v)).

Definition begin (this : vid) : M ptr :=
  v <- get_vec this;; ret (GetAddress (data_ v)).

Definition end_ (this : vid) : M ptr :=
  v <- get_vec this;; ret (ptr_add (GetAddress (data_ v)) (size_ v)).

Definition cbegin := begin.
Definition cend := end_.

(** [Vector() = default] *)
Definition Vector_ctor (this : vid) : M unit :=
  fresh_name this;;
  put_vec this {| data_ := RawMemory_default; size_ := 0 |}.

(** [explicit Vector(size_t size)]; when a constructor throws, the member
    [data_] is destroyed. *)
Definition Vector_ctor_size (this : vid) (size : nat) : M unit :=
  fresh_name this;;
  data <- RawMemory_ctor size;;
  on_throw (uninitialized_value_construct_n (GetAddress data) size)
           (RawMemory_dtor data);;
  put_vec this {| data_ := data; size_ := size |}.

(** [Vector(const Vector& other)], as the value of the new object *)
Definition Vector_copy (other : Vector) : M Vector :=
  data <- RawMemory_ctor (size_ other);;
  on_throw (uninitialized_copy_n (GetAddress (data_ other)) (size_ other)
                                 (GetAddress data))
           (RawMemory_dtor data);;
  ret {| data_ := data; size_ := size_ other |}.

Definition Vector_copy_ctor (this other : vid) : M unit :=
  fresh_name this;;
  o <- get_vec other;;
  v <- Vector_copy o;;
  put_vec this v.

(** [Vector(Vector&& other) noexcept] *)
Definition Vector_move_ctor (this other : vid) : M unit :=
  fresh_name this;;
  o <- get_vec other;;
  p <- RawMemory_move_assign RawMemory_default (data_ o);;
  put_vec other {| data_ := p.2; size_ := 0 |};;
  put_vec this {| data_ := p.1; size_ := size_ o |}.

(** [~Vector()] followed by the destructor of the member [data_], on the
    value of the object *)
Definition Vector_destroy (v : Vector) : M unit :=
  destroy_n (GetAddress (data_ v)) (size_ v);;
  RawMemory_dtor (data_ v).

Definition Vector_dtor (this : vid) : M unit :=
  v <- get_vec this;;
  Vector_destroy v;;
  drop_vec this.

(** [void Swap(Vector& other) noexcept] *)
Definition Swap (this other : vid) : M unit :=
  t <- get_vec this;;
  o <- get_vec other;;
  let p := RawMemory_Swap (data_ t) (data_ o) in
  put_vec this {| data_ := p.1; size_ := size_ o |};;
  put_vec other {| data_ := p.2; size_ := size_ t |}.

(** [Swap] with a local [Vector]; returns the new value of the local. *)
Definition Swap_local (this : vid) (other : Vector) : M Vector :=
  t <- get_vec this;;
  let p := RawMemory_Swap (data_ t) (data_ other) in
  put_vec this {| data_ := p.1; size_ := size_ other |};;
  ret {| data_ := p.2; size_ := size_ t |}.

(** [data_.Swap(new_data)] with a local [RawMemory]; returns the new value of
    the local. *)
Definition data_Swap (this : vid) (new_data : RawMemory) : M RawMemory :=
  t <- get_vec this;;
  let p := RawMemory_Swap (data_ t) new_data in
  set_data this p.1;;
  ret p.2.

(** [Vector& operator=(const Vector& rhs)] *)
Definition Vector_copy_assign (this rhs : vid) : M unit :=
  if decide (this ≠ rhs) then
    rhs_size <- Size rhs;;
    cap <- Capacity this;;
    if cap <? rhs_size then
      r <- get_vec rhs;;
      rhs_copy <- Vector_copy r;;
      rhs_copy <- Swap_local this rhs_copy;;
      Vector_destroy rhs_copy
    else
      size <- Size this;;
      let min_size := rhs_size `min` size in
      rhs_begin <- begin rhs;;
      this_begin <- begin this;;
      copy_n rhs_begin min_size this_begin;;
      (if rhs_size =? min_size then
         destroy_n (ptr_add this_begin rhs_size) (size - rhs_size)
       else
         uninitialized_copy_n (ptr_add rhs_begin size) (rhs_size - size)
                              (ptr_add this_begin size));;
      set_size this rhs_size
  else ret tt.

(** [Vector& operator=(Vector&& rhs) noexcept] *)
Definition Vector_move_assign (this rhs : vid) : M unit :=
  (* data_ = std::move(rhs.data_) *)
  t <- get_vec this;;
  r <- get_vec rhs;;
  p <- RawMemory_move_assign (data_ t) (data_ r);;
  set_data rhs p.2;;
  set_data this p.1;;
  (* size_ = std::exchange(rhs.size_, 0) *)
  r <- get_vec rhs;;
  set_size rhs 0;;
  set_size this (size_ r).

(** [T& operator[](size_t index)], as the address of the element *)
Definition Vector_index (this : vid) (index : nat) : M ptr :=
  size <- Size this;;
  assert (index <? size);;
  v <- get_vec this;;
  RawMemory_index (data_ v) index.

(** [void Reserve(size_t new_capacity)]; the local [new_data] is destroyed
    when the scope is left, normally or by an exception. *)
Definition Reserve (this : vid) (new_capacity : nat) : M unit :=
  cap <- Capacity this;;
  if new_capacity <=? cap then ret tt
  else
    new_data <- RawMemory_ctor new_capacity;;
    new_data <- on_throw
      (first <- begin this;;
       size <- Size this;;
       (if is_nothrow_move_constructible || negb is_copy_constructible then
          uninitialized_move_n first size (GetAddress new_data)
        else
          uninitialized_copy_n first size (GetAddress new_data));;
       destroy_n first size;;
       data_Swap this new_data)
      (RawMemory_dtor new_data);;
    RawMemory_dtor new_data.

(** [void Resize(size_t new_size)] *)
Definition Resize (this : vid) (new_size : nat) : M unit :=
  size <- Size this;;
  (if size <? new_size then
     Reserve this new_size;;
     v <- get_vec this;;
     uninitialized_value_construct_n
       (ptr_add (GetAddress (data_ v)) (size_ v)) (new_size - size_ v)
   else
     v <- get_vec this;;
     destroy_n (ptr_add (GetAddress (data_ v)) new_size)
               (size_ v - new_size));;
  set_size this new_size.

(** [void PopBack()] *)
Definition PopBack (this : vid) : M unit :=
  size <- Size this;;
  if 0 <? size then
    e <- end_ this;;
    last <- lift_option (ptr_sub e 1);;
    destroy_at last;;
    set_size this (size - 1)
  else ret tt.

(** [EmplaceWithDataRelocation] *)
Definition EmplaceWithDataRelocation (this : vid) (pos : ptr) (index : nat)
    (args : Args) : M unit :=
  size <- Size this;;
  new_data <- RawMemory_ctor (if size =? 0 then 1 else size * 2);;
  new_data <- on_throw
    (slot <- RawMemory_plus new_data index;;
     construct_at slot args;;
     first <- begin this;;
     (if is_nothrow_move_constructible || negb is_copy_constructible then
        uninitialized_move_n first index (GetAddress new_data);;
        uninitialized_move_n pos (size - index)
          (ptr_add (ptr_add (GetAddress new_data) index) 1)
      else
        uninitialized_copy_n first index (GetAddress new_data);;
        uninitialized_copy_n pos (size - index)
          (ptr_add (ptr_add (GetAddress new_data) index) 1));;
     destroy_n first size;;
     data_Swap this new_data)
    (RawMemory_dtor new_data);;
  RawMemory_dtor new_data.

(** [EmplaceWithoutDataRelocation]; the local [temp_obj] is destroyed when
    its scope is left, normally or by an exception. *)
Definition EmplaceWithoutDataRelocation (this : vid) (pos : ptr) (index : nat)
    (args : Args) : M unit :=
  e <- end_ this;;
  v <- get_vec this;;
  if decide (e ≠ pos) then
    temp_obj <- T_construct args;;
    temp_obj <- on_throw
      (slot <- RawMemory_plus (data_ v) (size_ v);;
       last <- lift_option (ptr_sub e 1);;
       move_construct_at slot last;;
       move_backward pos last e;;
       slot <- RawMemory_index (data_ v) index;;
       move_assign_from slot temp_obj)
      (T_destroy temp_obj);;
    T_destroy temp_obj
  else
    slot <- RawMemory_plus (data_ v) index;;
    construct_at slot args.

(** [iterator Emplace(const_iterator pos, Args&&... args)] *)
Definition Emplace (this : vid) (pos : ptr) (args : Args) : M ptr :=
  b <- begin this;;
  e <- end_ this;;
  assert (ptr_le b pos && ptr_le pos e);;
  let index := distance b pos in
  size <- Size this;;
  cap <- Capacity this;;
  (if size =? cap then EmplaceWithDataRelocation this pos index args
   else EmplaceWithoutDataRelocation this pos index args);;
  size <- Size this;;
  set_size this (S size);;
  b <- begin this;;
  ret (ptr_add b index).

(** [T& EmplaceBack(Args&&... args)], as the address of the element *)
Definition EmplaceBack (this : vid) (args : Args) : M ptr :=
  e <- cend this;;
  Emplace this e args.

(** [void PushBack(const T& value)] *)
Definition PushBack (this : vid) (value : T) : M unit :=
  EmplaceBack this (CopyOf value);; ret tt.

(** [void PushBack(T&& value)] *)
Definition PushBack_move (this : vid) (value : T) : M unit :=
  EmplaceBack this (MoveOf value);; ret tt.

(** [iterator Insert(const_iterator pos, const T& value)] *)
Definition Insert (this : vid) (pos : ptr) (value : T) : M ptr :=
  Emplace this pos (CopyOf value).

(** [iterator Insert(const_iterator pos, T&& value)] *)
Definition Insert_move (this : vid) (pos : ptr) (value : T) : M ptr :=
  Emplace this pos (MoveOf value).

(** [iterator Erase(const_iterator pos)] *)
Definition Erase (this : vid) (pos : ptr) : M ptr :=
  b <- begin this;;
  e <- end_ this;;
  assert (ptr_le b pos && ptr_le pos e);;
  let index := distance b pos in
  std_move (ptr_add pos 1) e pos;;
  last <- lift_option (ptr_sub e 1);;
  destroy_at last;;
  size <- Size this;;
  set_size this (size - 1);;
  b <- begin this;;
  ret (ptr_add b index).

End VectorClass.

Section Specification.
Context {T : Type} `{!Elem T}.

Local Abbreviation World := (@World T).
Local Abbreviation M := (@M T).

(** ** Observations *)

(** The slots of a block of capacity [cap] whose live objects are [xs]. *)
Definition contents (cap : nat) (xs : list T) : list (option T) :=
  (Some <$> xs) ++ replicate (cap - length xs) None.

Definition block_at (h : list (option (list (option T)))) (buf : ptr)
    (blk : list (option T)) : Prop :=
  match buf with
  | nullptr => blk = []
  | Ptr b off => off = 0 ∧ h !! b = Some (Some blk)
  end.

(** In world [w] the object [this] is a vector with storage address [buf],
    capacity [cap] and elements [xs]: slots [[0, length xs)] of its block are
    live and slots [[length xs, cap)] are uninitialised. *)
Definition owns (w : World) (this : vid) (buf : ptr) (cap : nat)
    (xs : list T) : Prop :=
  vecs w !! this
    = Some {| data_ := {| buffer_ := buf; capacity_ := cap |};
              size_ := length xs |}
  ∧ length xs ≤ cap
  ∧ block_at (heap w) buf (contents cap xs).

(** Two storage addresses that do not name the same block. *)
Definition separate (p q : ptr) : Prop :=
  match p, q with
  | Ptr b _, Ptr c _ => b ≠ c
  | _, _ => True
  end.

Definition size_of (w : World) (this : vid) : option nat :=
  size_ <$> vecs w !! this.

Definition capacity_of (w : World) (this : vid) : option nat :=
  (λ v, capacity_ (data_ v)) <$> vecs w !! this.

Definition address_of (w : World) (this : vid) : option ptr :=
  (λ v, buffer_ (data_ v)) <$> vecs w !! this.

(** [Size() <= Capacity()] for every vector of a store, and of a world. *)
Definition sizes_fit (vs : gmap nat Vector) : Prop :=
  ∀ this v, vs !! this = Some v → size_ v ≤ capacity_ (data_ v).

Definition size_le_capacity (w : World) : Prop := sizes_fit (vecs w).

(** No vector that is in both stores has a smaller [Capacity()] in the
    second. *)
Definition capacity_kept (vs vs' : gmap nat Vector) : Prop :=
  ∀ this v v', vs !! this = Some v → vs' !! this = Some v' →
    capacity_ (data_ v) ≤ capacity_ (data_ v').

(** The invariant holds in the second store and no capacity has shrunk. *)
Definition good (vs vs' : gmap nat Vector) : Prop :=
  sizes_fit vs' ∧ capacity_kept vs vs'.

(** The sum of the lengths of all vectors of the world. *)
Definition total_length (w : World) : nat :=
  map_fold (λ _ v n, size_ v + n) 0 (vecs w).

(** Objects constructed and not yet destroyed. *)
Definition alive (w : World) : Z :=
  (Z.of_nat (constructed w) - Z.of_nat (destroyed w))%Z.

(** The capacity chosen by [EmplaceWithDataRelocation]. *)
Definition grown (size : nat) : nat := if size =? 0 then 1 else size * 2.

(** ** Sequences of calls *)

(** One call of [PushBack], by overload, and the value it appends. *)
Inductive Push := ByCopy (value : T) | ByMove (value : T).

Definition pushed (p : Push) : T :=
  match p with
  | ByCopy value | ByMove value => value
  end.

Definition run_push (this : vid) (p : Push) : M unit :=
  match p with
  | ByCopy value => PushBack this value
  | ByMove value => PushBack_move this value
  end.

Fixpoint push_all (this : vid) (ps : list Push) : M unit :=
  match ps with
  | [] => ret tt
  | p :: ps' => run_push this p;; push_all this ps'
  end.

(** The operations of the public interface that can change the state. *)
Inductive Op :=
  | OpVector (this : vid)
  | OpVectorSize (this : vid) (size : nat)
  | OpVectorCopy (this other : vid)
  | OpVectorMove (this other : vid)
  | OpDtor (this : vid)
  | OpCopyAssign (this rhs : vid)
  | OpMoveAssign (this rhs : vid)
  | OpSwap (this other : vid)
  | OpReserve (this : vid) (new_capacity : nat)
  | OpResize (this : vid) (new_size : nat)
  | OpEmplaceBack (this : vid) (args : @Args T)
  | OpPushBack (this : vid) (value : T)
  | OpPushBackMove (this : vid) (value : T)
  | OpPopBack (this : vid)
  | OpEmplace (this : vid) (pos : ptr) (args : @Args T)
  | OpInsert (this : vid) (pos : ptr) (value : T)
  | OpInsertMove (this : vid) (pos : ptr) (value : T)
  | OpErase (this : vid) (pos : ptr).

Definition run_op (op : Op) : M unit :=
  match op with
  | OpVector this => Vector_ctor this
  | OpVectorSize this size => Vector_ctor_size this size
  | OpVectorCopy this other => Vector_copy_ctor this other
  | OpVectorMove this other => Vector_move_ctor this other
  | OpDtor this => Vector_dtor this
  | OpCopyAssign this rhs => Vector_copy_assign this rhs
  | OpMoveAssign this rhs => Vector_move_assign this rhs
  | OpSwap this other => Swap this other
  | OpReserve this n => Reserve this n
  | OpResize this n => Resize this n
  | OpEmplaceBack this args => EmplaceBack this args;; ret tt
  | OpPushBack this value => PushBack this value
  | OpPushBackMove this value => PushBack_move this value
  | OpPopBack this => PopBack this
  | OpEmplace this pos args => Emplace this pos args;; ret tt
  | OpInsert this pos value => Insert this pos value;; ret tt
  | OpInsertMove this pos value => Insert_move this pos value;; ret tt
  | OpErase this pos => Erase this pos;; ret tt
  end.

(** The operations that hand over or exchange whole buffers. *)
Definition transfers_buffer (op : Op) : bool :=
  match op with
  | OpVectorMove _ _ | OpMoveAssign _ _ | OpSwap _ _ => true
  | _ => false
  end.

(** The test harness arms the next exception. *)
Definition arm (k : nat) : M unit :=
  λ w, (Ok tt, set_throw_countdown (Some k) w).

(** The countdown lets the next [n] fallible operations succeed, and what is
    left of it afterwards. *)
Definition affords (c : option nat) (n : nat) : Prop :=
  match c with
  | None => True
  | Some k => n ≤ k
  end.

Definition spend (c : option nat) (n : nat) : option nat :=
  (λ k, k - n) <$> c.

(** The object a constructor call builds from its arguments. *)
Definition arg_value (args : @Args T) : T :=
  match args with
  | Forward x | CopyOf x | MoveOf x => x
  end.

(** A call that reads and writes storage only: the [Vector] objects are left
    as they are, whatever the outcome. *)
Definition keeps_store {A} (m : M A) : Prop :=
  ∀ w, vecs (m w).2 = vecs w.

(** The outcome of a call and the [Vector] objects after it satisfy [Q]. *)
Definition store_post {A} (m : M A) (w : World)
    (Q : Res A → gmap nat Vector → Prop) : Prop :=
  Q (m w).1 (vecs (m w).2).

(** When the fallible operation number [k] (from 0) of a relocating
    [Emplace] at [index] throws: the objects destroyed while the exception
    unwinds, and the objects built in the new block that are not. *)
Definition unwound (k index : nat) : nat :=
  if k =? 0 then 0 else if k <=? index then k - 1 else k - 1 - index.

Definition leaked (k index : nat) : nat :=
  if k =? 0 then 0 else if k <=? index then 1 else 1 + index.

(** The heap after the block at [buf] has been released. *)
Definition release (buf : ptr) (h : list (option (list (option T))))
    : list (option (list (option T))) :=
  match buf with
  | nullptr => h
  | Ptr b _ => <[b := None]> h
  end.

End Specification.

(** ** Worlds of the examples *)

(** A vector of [int] after [PushBack] of 1, 2, 3 and 4. *)
Definition four_ints : @World Z :=
  ((Vector_ctor 0;; push_all 0 (ByCopy <$> [1; 2; 3; 4]%Z)) empty_world).2.

(** Two vectors of [int], [[1; 2; 3]] in storage of capacity 4 and [[7]] in
    storage of capacity 1. *)
Definition two_vectors : @World Z :=
  ((Vector_ctor 0;; push_all 0 (ByCopy <$> [1; 2; 3]%Z);;
    Vector_ctor 1;; push_all 1 [ByMove 7%Z]) empty_world).2.

(** Two blocks of raw memory, of 1 and of 2 slots, owned by two [RawMemory]
    objects. *)
Definition two_blocks : @World Z :=
  ((a <- RawMemory_ctor 1;; RawMemory_ctor 2) empty_world).2.

(** A full vector holding one instrumented object, with the next-but-one
    fallible operation armed to throw. *)
Definition one_obj_armed : @World Obj :=
  ((Vector_ctor 0;; PushBack 0 (obj 1);; arm 1) empty_world).2.

(** A full vector holding two instrumented objects, with the third fallible
    operation from now armed to throw. *)
Definition two_objs_armed : @World Obj :=
  ((Vector_ctor 0;; PushBack 0 (obj 1);; PushBack 0 (obj 2);; arm 2)
     empty_world).2.

(** Two vectors of [int] holding one element each. *)
Definition two_singletons : @World Z :=
  ((Vector_ctor 0;; PushBack 0 1%Z;; Vector_ctor 1;; PushBack 1 2%Z)
     empty_world).2.

(** A default-constructed vector of [int]. *)
Definition no_ints : @World Z := (Vector_ctor 0 empty_world).2.

(** * Properties *)

Section Monad_facts.
Context {T : Type}.

Local Abbreviation World := (@World T).
Local Abbreviation M := (@M T).

Lemma bind_ok {A B} (m : M A) (f : A → M B) w a w1 :
  m w = (Ok a, w1) → (x <- m;; f x) w = f a w1.
Proof. intros E. unfold bind. by rewrite E. Qed.

Lemma bind_throw {A B} (m : M A) (f : A → M B) w w1 :
  m w = (Throw, w1) → (x <- m;; f x) w = (Throw, w1).
Proof. intros E. unfold bind. by rewrite E. Qed.

Lemma bind_undefined {A B} (m : M A) (f : A → M B) w w1 :
  m w = (Undefined, w1) → (x <- m;; f x) w = (Undefined, w1).
Proof. intros E. unfold bind. by rewrite E. Qed.

Lemma on_throw_ok {A} (m : M A) handler w a w1 :
  m w = (Ok a, w1) → on_throw m handler w = (Ok a, w1).
Proof. intros E. unfold on_throw. by rewrite E. Qed.

Lemma on_throw_throw {A} (m : M A) handler w w1 u w2 :
  m w = (Throw, w1) → handler w1 = (Ok u, w2) →
  on_throw m handler w = (Throw, w2).
Proof. intros E1 E2. unfold on_throw. by rewrite E1, E2. Qed.

Lemma world_eta (w : World) :
  mkWorld (heap w) (vecs w) (constructed w) (destroyed w) (throw_countdown w)
  = w.
Proof. by destruct w. Qed.

End Monad_facts.

Section Storage_facts.
Context {T : Type} `{!Elem T}.

Local Abbreviation World := (@World T).
Local Abbreviation M := (@M T).
Implicit Types (h : list (option (list (option T)))) (w : World).
Implicit Types (pre post blk : list (option T)) (xs ys : list T).

Lemma read_slot_middle h b pre s post :
  h !! b = Some (Some (pre ++ s :: post)) →
  read_slot h (Ptr b (length pre)) = Some s.
Proof. intros Hb. simpl. rewrite Hb. by apply list_lookup_middle. Qed.

Lemma write_slot_middle h b pre s s' post :
  h !! b = Some (Some (pre ++ s :: post)) →
  write_slot h (Ptr b (length pre)) s' = <[b := Some (pre ++ s' :: post)]> h.
Proof.
  intros Hb. simpl. rewrite Hb. do 2 f_equal.
  replace (length pre) with (length pre + 0) by lia.
  by rewrite insert_app_r.
Qed.

Lemma heap_insert_lookup h b (o o' : option (list (option T))) :
  h !! b = Some o → <[b := o']> h !! b = Some o'.
Proof. intros Hb. apply list_lookup_insert_eq. by eapply lookup_lt_Some. Qed.

Lemma load_ok w b pre x post :
  heap w !! b = Some (Some (pre ++ Some x :: post)) →
  load (Ptr b (length pre)) w = (Ok x, w).
Proof. intros Hb. unfold load. by rewrite (read_slot_middle _ _ _ _ _ Hb). Qed.

Lemma store_ok w b pre x y post :
  heap w !! b = Some (Some (pre ++ Some x :: post)) →
  store (Ptr b (length pre)) y w
  = (Ok tt, set_heap (<[b := Some (pre ++ Some y :: post)]> (heap w)) w).
Proof.
  intros Hb. unfold store.
  by rewrite (read_slot_middle _ _ _ _ _ Hb), (write_slot_middle _ _ _ _ _ _ Hb).
Qed.

Lemma place_ok w b pre x post :
  heap w !! b = Some (Some (pre ++ None :: post)) →
  place (Ptr b (length pre)) x w
  = (Ok tt, set_heap (<[b := Some (pre ++ Some x :: post)]> (heap w)) w).
Proof.
  intros Hb. unfold place.
  by rewrite (read_slot_middle _ _ _ _ _ Hb), (write_slot_middle _ _ _ _ _ _ Hb).
Qed.

Lemma destroy_at_ok w b pre x post :
  heap w !! b = Some (Some (pre ++ Some x :: post)) →
  destroy_at (Ptr b (length pre)) w
  = (Ok tt, mkWorld (<[b := Some (pre ++ None :: post)]> (heap w)) (vecs w)
                    (constructed w) (S (destroyed w)) (throw_countdown w)).
Proof.
  intros Hb. unfold destroy_at.
  by rewrite (read_slot_middle _ _ _ _ _ Hb), (write_slot_middle _ _ _ _ _ _ Hb).
Qed.

Lemma destroy_n_ok w b pre xs post :
  heap w !! b = Some (Some (pre ++ (Some <$> xs) ++ post)) →
  destroy_n (Ptr b (length pre)) (length xs) w
  = (Ok tt, mkWorld (<[b := Some (pre ++ replicate (length xs) None ++ post)]> (heap w))
                    (vecs w) (constructed w) (destroyed w + length xs)
                    (throw_countdown w)).
Proof.
  revert w pre. induction xs as [|x xs IH]; intros w pre Hb; simpl.
  - simpl in Hb. unfold ret. rewrite list_insert_id, Nat.add_0_r by done.
    by rewrite world_eta.
  - simpl in Hb. erewrite bind_ok by (by eapply destroy_at_ok).
    replace (length pre + 1) with (length (pre ++ [None : option T]))
      by (rewrite length_app; simpl; lia).
    rewrite IH; simpl.
    + rewrite list_insert_insert_eq, <- app_assoc. simpl.
      do 3 f_equal. lia.
    + rewrite (heap_insert_lookup _ _ _ _ Hb), <- app_assoc. done.
Qed.

End Storage_facts.

Section Element_facts.
Context {T : Type} `{!Elem T}.

Local Abbreviation World := (@World T).
Local Abbreviation M := (@M T).
Implicit Types (h : list (option (list (option T)))) (w : World).
Implicit Types (pre post spre spost blk : list (option T)) (xs ys : list T).

Lemma may_throw_ok w :
  affords (throw_countdown w) 1 →
  may_throw w
  = (Ok tt, mkWorld (heap w) (vecs w) (constructed w) (destroyed w)
                    (spend (throw_countdown w) 1)).
Proof.
  destruct w as [h vs c d [[|k]|]]; unfold may_throw; simpl; try done.
  - lia.
  - intros _. by rewrite Nat.sub_0_r.
Qed.

Lemma may_throw_throw w :
  throw_countdown w = Some 0 →
  may_throw w
  = (Throw, mkWorld (heap w) (vecs w) (constructed w) (destroyed w) None).
Proof. intros E. unfold may_throw. by rewrite E. Qed.

Lemma T_construct_copy_ok w x :
  affords (throw_countdown w) 1 →
  T_construct (CopyOf x) w
  = (Ok x, mkWorld (heap w) (vecs w) (S (constructed w)) (destroyed w)
                   (spend (throw_countdown w) 1)).
Proof.
  intros Hc. unfold T_construct.
  by erewrite bind_ok by (by apply may_throw_ok).
Qed.

Lemma T_construct_ok w args x :
  throw_countdown w = None →
  x = arg_value args →
  T_construct args w
  = (Ok x, mkWorld (heap w) (vecs w) (S (constructed w)) (destroyed w) None).
Proof.
  intros Hc ->. destruct w as [h vs c d cd]; simpl in Hc; subst cd.
  destruct args; unfold T_construct; try done.
  by destruct is_nothrow_move_constructible.
Qed.

Lemma copy_construct_at_ok w bs spre x spost bd pre post :
  bs ≠ bd →
  heap w !! bs = Some (Some (spre ++ Some x :: spost)) →
  heap w !! bd = Some (Some (pre ++ None :: post)) →
  affords (throw_countdown w) 1 →
  copy_construct_at (Ptr bd (length pre)) (Ptr bs (length spre)) w
  = (Ok tt, mkWorld (<[bd := Some (pre ++ Some x :: post)]> (heap w)) (vecs w)
                    (S (constructed w)) (destroyed w)
                    (spend (throw_countdown w) 1)).
Proof.
  intros Hne Hs Hd Hc. unfold copy_construct_at, construct_at.
  erewrite bind_ok by (by eapply load_ok).
  erewrite bind_ok by (by apply T_construct_copy_ok).
  by erewrite place_ok by done.
Qed.

Lemma copy_construct_at_throw w bs spre x spost p :
  heap w !! bs = Some (Some (spre ++ Some x :: spost)) →
  throw_countdown w = Some 0 →
  copy_construct_at p (Ptr bs (length spre)) w
  = (Throw, mkWorld (heap w) (vecs w) (constructed w) (destroyed w) None).
Proof.
  intros Hs Hc. unfold copy_construct_at, construct_at.
  erewrite bind_ok by (by eapply load_ok).
  erewrite bind_throw; [done|].
  unfold T_construct. erewrite bind_throw; [done|]. by apply may_throw_throw.
Qed.

Lemma move_construct_at_ok w bs spre x spost bd pre post :
  bs ≠ bd →
  heap w !! bs = Some (Some (spre ++ Some x :: spost)) →
  heap w !! bd = Some (Some (pre ++ None :: post)) →
  throw_countdown w = None →
  move_construct_at (Ptr bd (length pre)) (Ptr bs (length spre)) w
  = (Ok tt, mkWorld (<[bs := Some (spre ++ Some (moved_from x) :: spost)]>
                       (<[bd := Some (pre ++ Some x :: post)]> (heap w)))
                    (vecs w) (S (constructed w)) (destroyed w) None).
Proof.
  intros Hne Hs Hd Hc. unfold move_construct_at, construct_at.
  erewrite bind_ok by (by eapply load_ok).
  erewrite bind_ok; cycle 1.
  { erewrite bind_ok by (by eapply T_construct_ok). by eapply place_ok. }
  erewrite store_ok; [done|]. simpl. by rewrite list_lookup_insert_ne.
Qed.

Lemma uninitialized_copy_n_ok w bs spre xs spost bd pre post :
  bs ≠ bd →
  heap w !! bs = Some (Some (spre ++ (Some <$> xs) ++ spost)) →
  heap w !! bd = Some (Some (pre ++ replicate (length xs) None ++ post)) →
  affords (throw_countdown w) (length xs) →
  uninitialized_copy_n (Ptr bs (length spre)) (length xs) (Ptr bd (length pre)) w
  = (Ok tt, mkWorld (<[bd := Some (pre ++ (Some <$> xs) ++ post)]> (heap w))
                    (vecs w) (constructed w + length xs) (destroyed w)
                    (spend (throw_countdown w) (length xs))).
Proof.
  intros Hne. revert w spre pre.
  induction xs as [|x xs IH]; intros w spre pre Hs Hd Hc; simpl in *.
  - unfold ret. rewrite list_insert_id, Nat.add_0_r by done.
    destruct w as [? ? ? ? [k|]]; simpl; by rewrite ?Nat.sub_0_r.
  - erewrite bind_ok; cycle 1.
    { eapply copy_construct_at_ok; eauto.
      destruct (throw_countdown w); simpl in *; lia. }
    replace (length pre + 1) with (length (pre ++ [Some x])) 
      by (rewrite length_app; simpl; lia).
    replace (length spre + 1) with (length (spre ++ [Some x]))
      by (rewrite length_app; simpl; lia).
    erewrite on_throw_ok; cycle 1.
    { apply IH; simpl.
      - rewrite list_lookup_insert_ne, <- app_assoc by done. done.
      - rewrite (heap_insert_lookup _ _ _ _ Hd), <- app_assoc. done.
      - destruct (throw_countdown w); simpl in *; lia. }
    simpl. rewrite list_insert_insert_eq, <- app_assoc. simpl.
    do 2 f_equal; [lia|].
    destruct (throw_countdown w); simpl; [f_equal; lia|done].
Qed.

Lemma uninitialized_copy_n_throw w bs spre xs spost bd pre post k :
  bs ≠ bd →
  heap w !! bs = Some (Some (spre ++ (Some <$> xs) ++ spost)) →
  heap w !! bd = Some (Some (pre ++ replicate (length xs) None ++ post)) →
  throw_countdown w = Some k → k < length xs →
  uninitialized_copy_n (Ptr bs (length spre)) (length xs) (Ptr bd (length pre)) w
  = (Throw, mkWorld (heap w) (vecs w) (constructed w + k) (destroyed w + k)
                    None).
Proof.
  intros Hne. revert w spre pre k.
  induction xs as [|x xs IH]; intros w spre pre k Hs Hd Hc Hk; simpl in *.
  - lia.
  - destruct k as [|k].
    + erewrite bind_throw; cycle 1.
      { by eapply copy_construct_at_throw. }
      by rewrite !Nat.add_0_r.
    + erewrite bind_ok; cycle 1.
      { eapply copy_construct_at_ok; eauto. rewrite Hc. simpl. lia. }
      replace (length pre + 1) with (length (pre ++ [Some x])) 
        by (rewrite length_app; simpl; lia).
      replace (length spre + 1) with (length (spre ++ [Some x]))
        by (rewrite length_app; simpl; lia).
      erewrite on_throw_throw; cycle 1.
      { apply (IH _ _ _ k); simpl.
        - rewrite list_lookup_insert_ne, <- app_assoc by done. done.
        - rewrite (heap_insert_lookup _ _ _ _ Hd), <- app_assoc. done.
        - rewrite Hc. simpl. f_equal. lia.
        - lia. }
      { eapply destroy_at_ok. simpl.
        rewrite (heap_insert_lookup _ _ _ _ Hd). done. }
      simpl. rewrite list_insert_insert_eq, list_insert_id by done.
      do 3 f_equal; lia.
Qed.

Lemma uninitialized_move_n_ok w bs spre xs spost bd pre post :
  bs ≠ bd →
  heap w !! bs = Some (Some (spre ++ (Some <$> xs) ++ spost)) →
  heap w !! bd = Some (Some (pre ++ replicate (length xs) None ++ post)) →
  throw_countdown w = None →
  uninitialized_move_n (Ptr bs (length spre)) (length xs) (Ptr bd (length pre)) w
  = (Ok tt, mkWorld (<[bs := Some (spre ++ (Some <$> (moved_from <$> xs)) ++ spost)]>
                       (<[bd := Some (pre ++ (Some <$> xs) ++ post)]> (heap w)))
                    (vecs w) (constructed w + length xs) (destroyed w) None).
Proof.
  intros Hne. revert w spre pre.
  induction xs as [|x xs IH]; intros w spre pre Hs Hd Hc; simpl in *.
  - unfold ret. rewrite (list_insert_id _ bd), list_insert_id, Nat.add_0_r by done.
    rewrite <- Hc. by rewrite world_eta.
  - erewrite bind_ok; cycle 1.
    { eapply move_construct_at_ok; eauto. }
    replace (length pre + 1) with (length (pre ++ [Some x])) 
      by (rewrite length_app; simpl; lia).
    replace (length spre + 1) with (length (spre ++ [Some (moved_from x)]))
      by (rewrite length_app; simpl; lia).
    erewrite on_throw_ok; cycle 1.
    { apply IH; simpl.
      - rewrite (heap_insert_lookup _ _ (Some (spre ++ Some x :: (Some <$> xs) ++ spost))), <- app_assoc; [done|].
        by rewrite list_lookup_insert_ne.
      - rewrite list_lookup_insert_ne by done.
        rewrite (heap_insert_lookup _ _ _ _ Hd), <- app_assoc. done.
      - done. }
    simpl. rewrite (list_insert_insert_ne _ bd bs) by congruence.
    rewrite !list_insert_insert_eq, <- !app_assoc. simpl.
    do 3 f_equal. lia.
Qed.

End Element_facts.

Section Assignment_facts.
Context {T : Type} `{!Elem T}.

Local Abbreviation World := (@World T).
Local Abbreviation M := (@M T).
Implicit Types (h : list (option (list (option T)))) (w : World).
Implicit Types (pre post spre spost blk : list (option T)) (xs ys : list T).

Lemma length_snoc {A} (l : list A) (a : A) : length (l ++ [a]) = S (length l).
Proof. rewrite length_app. simpl. lia. Qed.

Lemma copy_assign_ok w bs spre x spost bd pre y post :
  bs ≠ bd →
  heap w !! bs = Some (Some (spre ++ Some x :: spost)) →
  heap w !! bd = Some (Some (pre ++ Some y :: post)) →
  affords (throw_countdown w) 1 →
  copy_assign (Ptr bd (length pre)) (Ptr bs (length spre)) w
  = (Ok tt, mkWorld (<[bd := Some (pre ++ Some x :: post)]> (heap w)) (vecs w)
                    (constructed w) (destroyed w)
                    (spend (throw_countdown w) 1)).
Proof.
  intros Hne Hs Hd Hc. unfold copy_assign.
  erewrite bind_ok by (by eapply load_ok).
  erewrite bind_ok by (by eapply load_ok).
  erewrite bind_ok by (by apply may_throw_ok).
  by erewrite store_ok by done.
Qed.

Lemma copy_n_ok w bs spre xs spost bd pre ys post :
  bs ≠ bd → length ys = length xs →
  heap w !! bs = Some (Some (spre ++ (Some <$> xs) ++ spost)) →
  heap w !! bd = Some (Some (pre ++ (Some <$> ys) ++ post)) →
  affords (throw_countdown w) (length xs) →
  copy_n (Ptr bs (length spre)) (length xs) (Ptr bd (length pre)) w
  = (Ok tt, mkWorld (<[bd := Some (pre ++ (Some <$> xs) ++ post)]> (heap w))
                    (vecs w) (constructed w) (destroyed w)
                    (spend (throw_countdown w) (length xs))).
Proof.
  intros Hne. revert w spre pre ys.
  induction xs as [|x xs IH]; intros w spre pre [|y ys] Hlen Hs Hd Hc;
    simplify_eq/=.
  - unfold ret. rewrite list_insert_id by done.
    destruct w as [? ? ? ? [k|]]; simpl; by rewrite ?Nat.sub_0_r.
  - erewrite bind_ok; cycle 1.
    { eapply copy_assign_ok; eauto.
      destruct (throw_countdown w); simpl in *; lia. }
    rewrite !Nat.add_1_r, <- (length_snoc pre (Some x)),
      <- (length_snoc spre (Some x)).
    erewrite (IH _ _ _ ys); simpl.
    + rewrite list_insert_insert_eq, <- app_assoc. simpl.
      do 2 f_equal.
      destruct (throw_countdown w); simpl; [f_equal; lia|done].
    + done.
    + rewrite list_lookup_insert_ne, <- app_assoc by done. done.
    + rewrite (heap_insert_lookup _ _ _ _ Hd), <- app_assoc. done.
    + destruct (throw_countdown w); simpl in *; lia.
Qed.

Lemma ptr_sub_S b k : ptr_sub (Ptr b (S k)) 1 = Some (Ptr b k).
Proof. simpl. by rewrite Nat.sub_0_r. Qed.

(** Move assignment between neighbouring slots of one block. *)
Lemma move_assign_left_ok w b pre e y post :
  heap w !! b = Some (Some (pre ++ Some e :: Some y :: post)) →
  throw_countdown w = None →
  move_assign (Ptr b (length pre)) (Ptr b (S (length pre))) w
  = (Ok tt, mkWorld (<[b := Some (pre ++ Some y :: Some (moved_from y) :: post)]>
                       (heap w))
                    (vecs w) (constructed w) (destroyed w) None).
Proof.
  intros Hb Hc. unfold move_assign, move_assign_from.
  assert (Hb' : heap w !! b = Some (Some ((pre ++ [Some e]) ++ Some y :: post)))
    by (by rewrite <- app_assoc).
  rewrite <- (length_snoc pre (Some e)).
  erewrite bind_ok by (by eapply load_ok).
  rewrite (length_snoc pre (Some e)).
  erewrite bind_ok; cycle 1.
  { erewrite bind_ok by (by eapply load_ok).
    erewrite bind_ok; cycle 1.
    { instantiate (1 := w). instantiate (1 := tt).
      destruct is_nothrow_move_assignable; [done|].
      rewrite may_throw_ok by (by rewrite Hc). rewrite Hc. simpl.
      rewrite <- Hc. by rewrite world_eta. }
    erewrite bind_ok by (by eapply store_ok). done. }
  rewrite <- (length_snoc pre (Some y)).
  erewrite store_ok; cycle 1.
  { simpl. rewrite (heap_insert_lookup _ _ _ _ Hb), <- app_assoc. done. }
  simpl. rewrite list_insert_insert_eq, <- app_assoc, <- Hc. done.
Qed.

Lemma move_assign_right_ok w b pre y e post :
  heap w !! b = Some (Some (pre ++ Some y :: Some e :: post)) →
  throw_countdown w = None →
  move_assign (Ptr b (S (length pre))) (Ptr b (length pre)) w
  = (Ok tt, mkWorld (<[b := Some (pre ++ Some (moved_from y) :: Some y :: post)]>
                       (heap w))
                    (vecs w) (constructed w) (destroyed w) None).
Proof.
  intros Hb Hc. unfold move_assign, move_assign_from.
  assert (Hb' : heap w !! b = Some (Some ((pre ++ [Some y]) ++ Some e :: post)))
    by (by rewrite <- app_assoc).
  erewrite bind_ok by (by eapply load_ok).
  rewrite <- (length_snoc pre (Some y)).
  erewrite bind_ok; cycle 1.
  { erewrite bind_ok by (by eapply load_ok).
    erewrite bind_ok; cycle 1.
    { instantiate (1 := w). instantiate (1 := tt).
      destruct is_nothrow_move_assignable; [done|].
      rewrite may_throw_ok by (by rewrite Hc). rewrite Hc. simpl.
      rewrite <- Hc. by rewrite world_eta. }
    erewrite bind_ok by (by eapply store_ok). done. }
  erewrite store_ok; cycle 1.
  { simpl. rewrite (heap_insert_lookup _ _ _ _ Hb), <- app_assoc. done. }
  simpl. rewrite list_insert_insert_eq, <- Hc. done.
Qed.

(** [std::move] of [ys] one slot to the left, over the object [e]. *)
Lemma move_n_ok w b pre e ys post :
  heap w !! b = Some (Some (pre ++ Some e :: (Some <$> ys) ++ post)) →
  throw_countdown w = None →
  ∃ f, move_n (Ptr b (S (length pre))) (length ys) (Ptr b (length pre)) w
  = (Ok tt, mkWorld (<[b := Some (pre ++ (Some <$> ys) ++ Some f :: post)]>
                       (heap w))
                    (vecs w) (constructed w) (destroyed w) None).
Proof.
  revert w pre e. induction ys as [|y ys IH]; intros w pre e Hb Hc.
  - exists e. simpl in *. unfold ret. rewrite list_insert_id by done.
    rewrite <- Hc. by rewrite world_eta.
  - rewrite fmap_cons, <- app_comm_cons in Hb. cbn [move_n length ptr_add].
    erewrite bind_ok by (by eapply move_assign_left_ok).
    rewrite !Nat.add_1_r, <- (length_snoc pre (Some y)).
    edestruct (IH (mkWorld (<[b := Some (pre ++ Some y :: Some (moved_from y)
                                    :: (Some <$> ys) ++ post)]> (heap w))
                    (vecs w) (constructed w) (destroyed w) None)
                 (pre ++ [Some y]) (moved_from y)) as [f Hf].
    { simpl. rewrite (heap_insert_lookup _ _ _ _ Hb), <- app_assoc. done. }
    { done. }
    exists f. rewrite Hf. simpl.
    rewrite list_insert_insert_eq, <- app_assoc. done.
Qed.

(** [std::move_backward] of [ys] one slot to the right, over the object
    [e]. *)
Lemma move_backward_n_ok w b pre ys e post :
  heap w !! b = Some (Some (pre ++ (Some <$> ys) ++ Some e :: post)) →
  throw_countdown w = None →
  ∃ f, move_backward_n (Ptr b (length pre + length ys)) (length ys)
                       (Ptr b (S (length pre + length ys))) w
  = (Ok tt, mkWorld (<[b := Some (pre ++ Some f :: (Some <$> ys) ++ post)]>
                       (heap w))
                    (vecs w) (constructed w) (destroyed w) None).
Proof.
  revert w e post. induction ys as [|y ys IH] using rev_ind; intros w e post Hb Hc.
  - exists e. simpl in *. unfold ret. rewrite list_insert_id by done.
    rewrite <- Hc. by rewrite world_eta.
  - rewrite fmap_app, <- app_assoc in Hb. simpl in Hb.
    rewrite length_snoc, Nat.add_succ_r. cbn [move_backward_n].
    assert (Hb' : heap w !! b
      = Some (Some ((pre ++ (Some <$> ys)) ++ Some y :: Some e :: post)))
      by (by rewrite <- app_assoc).
    assert (Hl : length (pre ++ (Some <$> ys)) = length pre + length ys)
      by (by rewrite length_app, length_fmap).
    rewrite !ptr_sub_S. unfold lift_option.
    erewrite bind_ok by done. erewrite bind_ok by done.
    rewrite <- Hl.
    erewrite bind_ok by (by eapply move_assign_right_ok).
    rewrite Hl.
    edestruct (IH (mkWorld (<[b := Some ((pre ++ (Some <$> ys)) ++
                      Some (moved_from y) :: Some y :: post)]> (heap w))
                    (vecs w) (constructed w) (destroyed w) None)
                 (moved_from y) (Some y :: post)) as [f Hf].
    { simpl. rewrite (heap_insert_lookup _ _ _ _ Hb), <- app_assoc. done. }
    { done. }
    exists f. rewrite Hf. simpl.
    rewrite list_insert_insert_eq, fmap_app, <- !app_assoc. done.
Qed.

(** Move construction into the slot after the source. *)
Lemma move_construct_next_ok w b pre x post :
  heap w !! b = Some (Some (pre ++ Some x :: None :: post)) →
  throw_countdown w = None →
  move_construct_at (Ptr b (S (length pre))) (Ptr b (length pre)) w
  = (Ok tt, mkWorld (<[b := Some (pre ++ Some (moved_from x) :: Some x :: post)]>
                       (heap w))
                    (vecs w) (S (constructed w)) (destroyed w) None).
Proof.
  intros Hb Hc. unfold move_construct_at, construct_at.
  assert (Hb' : heap w !! b = Some (Some ((pre ++ [Some x]) ++ None :: post)))
    by (by rewrite <- app_assoc).
  erewrite bind_ok by (by eapply load_ok).
  rewrite <- (length_snoc pre (Some x)).
  erewrite bind_ok; cycle 1.
  { erewrite bind_ok by (by eapply T_construct_ok). by eapply place_ok. }
  erewrite store_ok; cycle 1.
  { simpl. rewrite (heap_insert_lookup _ _ _ _ Hb), <- app_assoc. done. }
  simpl. by rewrite list_insert_insert_eq.
Qed.

End Assignment_facts.

Section Addressed_facts.
Context {T : Type} `{!Elem T}.

Local Abbreviation World := (@World T).
Local Abbreviation M := (@M T).
Implicit Types (h : list (option (list (option T)))) (w : World).
Implicit Types (pre post spre spost blk : list (option T)) (xs ys : list T).

(** The same facts with the offsets as free terms. *)

Lemma place_at w b i pre x post :
  i = length pre →
  heap w !! b = Some (Some (pre ++ None :: post)) →
  place (Ptr b i) x w
  = (Ok tt, set_heap (<[b := Some (pre ++ Some x :: post)]> (heap w)) w).
Proof. intros ->. apply place_ok. Qed.

Lemma destroy_at_at w b i pre x post :
  i = length pre →
  heap w !! b = Some (Some (pre ++ Some x :: post)) →
  destroy_at (Ptr b i) w
  = (Ok tt, mkWorld (<[b := Some (pre ++ None :: post)]> (heap w)) (vecs w)
                    (constructed w) (S (destroyed w)) (throw_countdown w)).
Proof. intros ->. apply destroy_at_ok. Qed.

Lemma destroy_n_at w b i n pre xs post :
  i = length pre → n = length xs →
  heap w !! b = Some (Some (pre ++ (Some <$> xs) ++ post)) →
  destroy_n (Ptr b i) n w
  = (Ok tt, mkWorld (<[b := Some (pre ++ replicate n None ++ post)]> (heap w))
                    (vecs w) (constructed w) (destroyed w + n)
                    (throw_countdown w)).
Proof. intros -> ->. apply destroy_n_ok. Qed.

Lemma uninitialized_copy_n_at w bs i spre xs spost bd j pre post n :
  i = length spre → j = length pre → n = length xs →
  bs ≠ bd →
  heap w !! bs = Some (Some (spre ++ (Some <$> xs) ++ spost)) →
  heap w !! bd = Some (Some (pre ++ replicate n None ++ post)) →
  affords (throw_countdown w) n →
  uninitialized_copy_n (Ptr bs i) n (Ptr bd j) w
  = (Ok tt, mkWorld (<[bd := Some (pre ++ (Some <$> xs) ++ post)]> (heap w))
                    (vecs w) (constructed w + n) (destroyed w)
                    (spend (throw_countdown w) n)).
Proof. intros -> -> ->. apply uninitialized_copy_n_ok. Qed.

Lemma uninitialized_copy_n_throw_at w bs i spre xs spost bd j pre post n k :
  i = length spre → j = length pre → n = length xs →
  bs ≠ bd →
  heap w !! bs = Some (Some (spre ++ (Some <$> xs) ++ spost)) →
  heap w !! bd = Some (Some (pre ++ replicate n None ++ post)) →
  throw_countdown w = Some k → k < n →
  uninitialized_copy_n (Ptr bs i) n (Ptr bd j) w
  = (Throw, mkWorld (heap w) (vecs w) (constructed w + k) (destroyed w + k)
                    None).
Proof. intros -> -> ->. apply uninitialized_copy_n_throw. Qed.

Lemma uninitialized_move_n_at w bs i spre xs spost bd j pre post n :
  i = length spre → j = length pre → n = length xs →
  bs ≠ bd →
  heap w !! bs = Some (Some (spre ++ (Some <$> xs) ++ spost)) →
  heap w !! bd = Some (Some (pre ++ replicate n None ++ post)) →
  throw_countdown w = None →
  uninitialized_move_n (Ptr bs i) n (Ptr bd j) w
  = (Ok tt, mkWorld (<[bs := Some (spre ++ (Some <$> (moved_from <$> xs)) ++ spost)]>
                       (<[bd := Some (pre ++ (Some <$> xs) ++ post)]> (heap w)))
                    (vecs w) (constructed w + n) (destroyed w) None).
Proof. intros -> -> ->. apply uninitialized_move_n_ok. Qed.

Lemma copy_n_at w bs i spre xs spost bd j pre ys post n :
  i = length spre → j = length pre → n = length xs →
  bs ≠ bd → length ys = n →
  heap w !! bs = Some (Some (spre ++ (Some <$> xs) ++ spost)) →
  heap w !! bd = Some (Some (pre ++ (Some <$> ys) ++ post)) →
  affords (throw_countdown w) n →
  copy_n (Ptr bs i) n (Ptr bd j) w
  = (Ok tt, mkWorld (<[bd := Some (pre ++ (Some <$> xs) ++ post)]> (heap w))
                    (vecs w) (constructed w) (destroyed w)
                    (spend (throw_countdown w) n)).
Proof. intros -> -> ->. apply copy_n_ok. Qed.

Lemma move_n_at w b i j n pre e ys post :
  j = length pre → i = S j → n = length ys →
  heap w !! b = Some (Some (pre ++ Some e :: (Some <$> ys) ++ post)) →
  throw_countdown w = None →
  ∃ f, move_n (Ptr b i) n (Ptr b j) w
  = (Ok tt, mkWorld (<[b := Some (pre ++ (Some <$> ys) ++ Some f :: post)]>
                       (heap w))
                    (vecs w) (constructed w) (destroyed w) None).
Proof. intros -> -> ->. apply move_n_ok. Qed.

Lemma move_backward_n_at w b i j n pre ys e post :
  i = length pre + length ys → j = S i → n = length ys →
  heap w !! b = Some (Some (pre ++ (Some <$> ys) ++ Some e :: post)) →
  throw_countdown w = None →
  ∃ f, move_backward_n (Ptr b i) n (Ptr b j) w
  = (Ok tt, mkWorld (<[b := Some (pre ++ Some f :: (Some <$> ys) ++ post)]>
                       (heap w))
                    (vecs w) (constructed w) (destroyed w) None).
Proof. intros -> -> ->. apply move_backward_n_ok. Qed.

Lemma move_construct_next_at w b i j pre x post :
  i = length pre → j = S i →
  heap w !! b = Some (Some (pre ++ Some x :: None :: post)) →
  throw_countdown w = None →
  move_construct_at (Ptr b j) (Ptr b i) w
  = (Ok tt, mkWorld (<[b := Some (pre ++ Some (moved_from x) :: Some x :: post)]>
                       (heap w))
                    (vecs w) (S (constructed w)) (destroyed w) None).
Proof. intros -> ->. apply move_construct_next_ok. Qed.

Lemma move_assign_from_at w b i pre e x post :
  i = length pre →
  heap w !! b = Some (Some (pre ++ Some e :: post)) →
  throw_countdown w = None →
  move_assign_from (Ptr b i) x w
  = (Ok (moved_from x),
     mkWorld (<[b := Some (pre ++ Some x :: post)]> (heap w))
             (vecs w) (constructed w) (destroyed w) None).
Proof.
  intros -> Hb Hc. unfold move_assign_from.
  erewrite bind_ok by (by eapply load_ok).
  erewrite bind_ok; cycle 1.
  { instantiate (1 := w). instantiate (1 := tt).
    destruct is_nothrow_move_assignable; [done|].
    rewrite may_throw_ok by (by rewrite Hc). rewrite Hc. simpl.
    rewrite <- Hc. by rewrite world_eta. }
  erewrite bind_ok by (by eapply store_ok). unfold ret, set_heap.
  by rewrite Hc.
Qed.

(** ** The store *)

Lemma get_vec_ok w this v :
  vecs w !! this = Some v → get_vec this w = (Ok v, w).
Proof. intros E. unfold get_vec. by rewrite E. Qed.

Lemma Size_ok w this v :
  vecs w !! this = Some v → Size this w = (Ok (size_ v), w).
Proof. intros E. unfold Size. by erewrite bind_ok by (by apply get_vec_ok). Qed.

Lemma Capacity_ok w this v :
  vecs w !! this = Some v → Capacity this w = (Ok (capacity_ (data_ v)), w).
Proof. intros E. unfold Capacity. by erewrite bind_ok by (by apply get_vec_ok). Qed.

Lemma begin_ok w this v :
  vecs w !! this = Some v → begin this w = (Ok (buffer_ (data_ v)), w).
Proof. intros E. unfold begin. by erewrite bind_ok by (by apply get_vec_ok). Qed.

Lemma end_ok w this v :
  vecs w !! this = Some v →
  end_ this w = (Ok (ptr_add (buffer_ (data_ v)) (size_ v)), w).
Proof. intros E. unfold end_. by erewrite bind_ok by (by apply get_vec_ok). Qed.

Lemma set_size_ok w this v n :
  vecs w !! this = Some v →
  set_size this n w
  = (Ok tt, set_vecs (<[this := {| data_ := data_ v; size_ := n |}]> (vecs w)) w).
Proof. intros E. unfold set_size. by erewrite bind_ok by (by apply get_vec_ok). Qed.

Lemma set_data_ok w this v d :
  vecs w !! this = Some v →
  set_data this d w
  = (Ok tt, set_vecs (<[this := {| data_ := d; size_ := size_ v |}]> (vecs w)) w).
Proof. intros E. unfold set_data. by erewrite bind_ok by (by apply get_vec_ok). Qed.

Lemma data_Swap_ok w this v new_data :
  vecs w !! this = Some v →
  data_Swap this new_data w
  = (Ok (data_ v),
     set_vecs (<[this := {| data_ := new_data; size_ := size_ v |}]> (vecs w)) w).
Proof.
  intros E. unfold data_Swap.
  erewrite bind_ok by (by apply get_vec_ok).
  erewrite bind_ok by (by apply set_data_ok).
  destruct v as [[? ?] ?], new_data. done.
Qed.

Lemma operator_delete_ok w b blk :
  heap w !! b = Some (Some blk) →
  operator_delete (Ptr b 0) w
  = (Ok tt, set_heap (<[b := None]> (heap w)) w).
Proof. intros E. unfold operator_delete. by rewrite E. Qed.

Lemma replicate_split {A} (n i : nat) (x : A) :
  i < n → replicate n x = replicate i x ++ x :: replicate (n - S i) x.
Proof.
  intros Hi. replace n with (i + S (n - S i)) at 1 by lia.
  by rewrite replicate_add.
Qed.

Lemma contents_full xs : contents (length xs) xs = Some <$> xs.
Proof. unfold contents. by rewrite Nat.sub_diag, app_nil_r. Qed.

Lemma grown_pos n : 0 < grown n.
Proof. unfold grown. destruct n; simpl; lia. Qed.

End Addressed_facts.

Ltac wsimpl :=
  unfold set_heap, set_vecs, set_constructed, set_destroyed,
    set_throw_countdown;
  cbn [heap vecs constructed destroyed throw_countdown].
Ltac lookup_bounds :=
  repeat match goal with
  | H : ?l !! ?i = Some _ |- _ =>
      lazymatch goal with
      | _ : i < length l |- _ => fail
      | _ => pose proof (lookup_lt_Some l i _ H)
      end
  end.
Ltac heap_len :=
  lookup_bounds; rewrite ?length_insert, ?length_app; simpl; lia.
Ltac heap_lookup :=
  repeat first
    [ rewrite list_lookup_insert_ne by (congruence || lia)
    | rewrite list_lookup_insert_eq by heap_len ];
  rewrite ?lookup_app_l by lia;
  rewrite ?list_lookup_middle by done.

Section Emplace_facts.
Context {T : Type} `{!Elem T}.

Local Abbreviation World := (@World T).
Local Abbreviation M := (@M T).
Implicit Types (h : list (option (list (option T)))) (w : World).
Implicit Types (pre post spre spost blk : list (option T)) (xs ys : list T).

Lemma RawMemory_ctor_ok w n :
  0 < n →
  RawMemory_ctor n w
  = (Ok {| buffer_ := Ptr (length (heap w)) 0; capacity_ := n |},
     set_heap (heap w ++ [Some (replicate n None)]) w).
Proof.
  intros Hn. unfold RawMemory_ctor, Allocate.
  destruct (n =? 0) eqn:E; [apply Nat.eqb_eq in E; lia|]. done.
Qed.

Lemma RawMemory_plus_ok w (rm : RawMemory) offset :
  offset ≤ capacity_ rm →
  RawMemory_plus rm offset w = (Ok (ptr_add (buffer_ rm) offset), w).
Proof.
  intros Hle. unfold RawMemory_plus.
  by rewrite (proj2 (Nat.leb_le _ _) Hle).
Qed.

Lemma RawMemory_index_ok w (rm : RawMemory) index :
  index < capacity_ rm →
  RawMemory_index rm index w = (Ok (ptr_add (buffer_ rm) index), w).
Proof.
  intros Hlt. unfold RawMemory_index.
  by rewrite (proj2 (Nat.ltb_lt _ _) Hlt).
Qed.

Lemma construct_at_ok w b i pre args post :
  i = length pre →
  heap w !! b = Some (Some (pre ++ None :: post)) →
  throw_countdown w = None →
  construct_at (Ptr b i) args w
  = (Ok tt, mkWorld (<[b := Some (pre ++ Some (arg_value args) :: post)]> (heap w))
                    (vecs w) (S (constructed w)) (destroyed w) None).
Proof.
  intros -> Hb Hc. unfold construct_at.
  erewrite bind_ok by (by eapply T_construct_ok).
  by erewrite place_ok by done.
Qed.

(** Either way of transferring [xs] to fresh slots of another block leaves
    live objects behind in the source. *)
Lemma transfer_ok w bs i spre xs spost bd j pre post n :
  i = length spre → j = length pre → n = length xs →
  bs ≠ bd →
  heap w !! bs = Some (Some (spre ++ (Some <$> xs) ++ spost)) →
  heap w !! bd = Some (Some (pre ++ replicate n None ++ post)) →
  throw_countdown w = None →
  ∃ ys, length ys = length xs ∧
    (if is_nothrow_move_constructible || negb is_copy_constructible
     then uninitialized_move_n (Ptr bs i) n (Ptr bd j)
     else uninitialized_copy_n (Ptr bs i) n (Ptr bd j)) w
    = (Ok tt, mkWorld (<[bs := Some (spre ++ (Some <$> ys) ++ spost)]>
                         (<[bd := Some (pre ++ (Some <$> xs) ++ post)]> (heap w)))
                      (vecs w) (constructed w + n) (destroyed w) None).
Proof.
  intros Hi Hj Hn Hne Hs Hd Hc.
  destruct (is_nothrow_move_constructible || negb is_copy_constructible).
  - exists (moved_from <$> xs). split; [by rewrite length_fmap|].
    by eapply uninitialized_move_n_at.
  - exists xs. split; [done|].
    erewrite uninitialized_copy_n_at; eauto; [|by rewrite Hc].
    rewrite Hc. simpl. do 2 f_equal.
    symmetry. apply list_insert_id. by rewrite list_lookup_insert_ne.
Qed.

Lemma EmplaceWithDataRelocation_ok w this bo xs index args :
  vecs w !! this
    = Some {| data_ := {| buffer_ := Ptr bo 0; capacity_ := length xs |};
              size_ := length xs |} →
  heap w !! bo = Some (Some (Some <$> xs)) →
  index ≤ length xs →
  throw_countdown w = None →
  ∃ h',
    EmplaceWithDataRelocation this (Ptr bo index) index args w
    = (Ok tt,
       mkWorld h'
         (<[this := {| data_ := {| buffer_ := Ptr (length (heap w)) 0;
                                   capacity_ := grown (length xs) |};
                       size_ := length xs |}]> (vecs w))
         (S (constructed w + length xs)) (destroyed w + length xs) None)
    ∧ h' !! length (heap w)
      = Some (Some (contents (grown (length xs))
                      (take index xs ++ arg_value args :: drop index xs)))
    ∧ h' !! bo = Some None
    ∧ length h' = S (length (heap w))
    ∧ ∀ b, b ≠ bo → b < length (heap w) → h' !! b = heap w !! b.
Proof.
  intros Hv Hb Hi Hc.
  assert (Hlt : bo < length (heap w)) by (by eapply lookup_lt_Some).
  pose proof (grown_pos (length xs)) as Hg.
  assert (Hgn : length xs < grown (length xs))
    by (unfold grown; destruct (length xs); simpl; lia).
  set (n := grown (length xs)) in *.
  set (x := arg_value args).
  unfold EmplaceWithDataRelocation.
  erewrite bind_ok by (by apply Size_ok). cbn [size_].
  fold (grown (length xs)). fold n.
  erewrite bind_ok by (by apply RawMemory_ctor_ok).
  set (bn := length (heap w)) in *.
  set (w1 := set_heap _ w).
  assert (Htake : length (take index xs) = index) by (rewrite length_take; lia).
  assert (Hdrop : length (drop index xs) = length xs - index)
    by (by rewrite length_drop).
  (* the transfer of the elements before [pos] *)
  set (w2 := mkWorld (<[bn := Some (replicate index None ++ Some x
                                    :: replicate (n - S index) None)]> (heap w1))
               (vecs w) (S (constructed w)) (destroyed w) None).
  destruct (transfer_ok w2 bo 0 [] (take index xs) (Some <$> drop index xs)
              bn 0 [] (Some x :: replicate (n - S index) None) index)
    as (ys1 & Hl1 & E1); try done.
  { lia. }
  { subst w2 w1. wsimpl. heap_lookup.
    by rewrite <- fmap_app, take_drop. }
  { subst w2 w1. wsimpl. heap_lookup. done. }
  set (w3 := mkWorld _ _ _ _ _) in E1.
  (* the transfer of the elements from [pos] on *)
  destruct (transfer_ok w3 bo index (Some <$> ys1) (drop index xs) []
              bn (S index) ((Some <$> take index xs) ++ [Some x])
              (replicate (n - S (length xs)) None) (length xs - index))
    as (ys2 & Hl2 & E2); try done.
  { rewrite length_fmap. lia. }
  { rewrite length_app, length_fmap. simpl. lia. }
  { lia. }
  { subst w3 w2 w1. wsimpl. heap_lookup. by rewrite app_nil_r. }
  { subst w3 w2 w1. wsimpl. heap_lookup. simpl.
    rewrite <- app_assoc. simpl. do 4 f_equal.
    rewrite <- replicate_add. f_equal. lia. }
  set (w4 := mkWorld _ _ _ _ _) in E2.
  eexists. split.
  { erewrite bind_ok; cycle 1.
    { eapply on_throw_ok.
      erewrite bind_ok by (apply RawMemory_plus_ok; simpl; lia).
      erewrite bind_ok; cycle 1.
      { eapply (construct_at_ok _ _ _ (replicate index None)).
        - by rewrite length_replicate.
        - subst w1. wsimpl. heap_lookup.
          by rewrite (replicate_split n index) by lia.
        - done. }
      erewrite bind_ok by (by apply begin_ok).
      cbn [buffer_ data_ GetAddress ptr_add Nat.add].
      erewrite bind_ok; cycle 1.
      { assert (is_nothrow_move_constructible || negb is_copy_constructible = true
                ∨ is_nothrow_move_constructible || negb is_copy_constructible = false)
          as [Et|Et] by (destruct (_ || _); auto).
        - rewrite Et in E1, E2 |- *.
          refine (eq_trans (bind_ok _ _ _ _ _ E1) _).
          rewrite Nat.add_1_r. exact E2.
        - rewrite Et in E1, E2 |- *.
          etrans; [apply (bind_ok _ _ _ _ _ E1)|].
          rewrite Nat.add_1_r. exact E2. }
      erewrite bind_ok; cycle 1.
      { eapply (destroy_n_at _ _ _ _ [] (ys1 ++ ys2) []); [done| |].
        - rewrite length_app, Hl1, Hl2, Htake, Hdrop. lia.
        - subst w4 w3 w2 w1. wsimpl. heap_lookup.
          by rewrite fmap_app, !app_nil_r. }
      by apply data_Swap_ok. }
    unfold RawMemory_dtor, Deallocate. cbn [data_ buffer_].
    erewrite operator_delete_ok; cycle 1.
    { subst w4 w3 w2 w1. wsimpl. heap_lookup. done. }
    subst w4 w3 w2 w1. unfold set_heap, set_vecs.
    cbn [heap vecs constructed destroyed throw_countdown size_ data_].
    f_equal. f_equal; first [reflexivity | lia]. }
  subst w4 w3 w2 w1. wsimpl.
  split; [|split; [|split]].
  - heap_lookup. unfold contents.
    rewrite fmap_app, fmap_cons, <- !app_assoc. simpl.
    repeat f_equal. rewrite length_app. cbn [length]. rewrite Htake, Hdrop. lia.
  - heap_lookup. done.
  - heap_len.
  - intros b Hne Hltb. heap_lookup. done.
Qed.


Lemma replicate_sub_S {A} (n k : nat) (x : A) :
  k < n → replicate (n - k) x = x :: replicate (n - S k) x.
Proof. intros Hk. by replace (n - k) with (S (n - S k)) by lia. Qed.

Lemma range_size_ok w b i j :
  i ≤ j → range_size (Ptr b i) (Ptr b j) w = (Ok (j - i), w).
Proof.
  intros Hij. unfold range_size, ptr_le.
  by rewrite Nat.eqb_refl, (proj2 (Nat.leb_le _ _) Hij).
Qed.

(** The three steps of [EmplaceWithoutDataRelocation] that open a gap at
    [index] and fill it from the temporary. *)
Lemma open_gap_ok w b cap ps ys l x post :
  heap w !! b
    = Some (Some ((Some <$> ps) ++ (Some <$> ys) ++ Some l :: None :: post)) →
  cap = S (S (length ps + length ys + length post)) →
  throw_countdown w = None →
  let rm := {| buffer_ := Ptr b 0; capacity_ := cap |} in
  let size := S (length ps + length ys) in
  (slot <- RawMemory_plus rm size;;
   last <- lift_option (ptr_sub (Ptr b size) 1);;
   move_construct_at slot last;;
   move_backward (Ptr b (length ps)) last (Ptr b size);;
   slot <- RawMemory_index rm (length ps);;
   move_assign_from slot x) w
  = (Ok (moved_from x),
     mkWorld
       (<[b := Some ((Some <$> ps) ++ Some x :: (Some <$> ys)
                       ++ Some l :: post)]> (heap w))
       (vecs w) (S (constructed w)) (destroyed w) None).
Proof.
  intros Hb Hcap Hc rm size.
  erewrite bind_ok by (apply RawMemory_plus_ok; simpl; lia).
  unfold size at 1. rewrite ptr_sub_S. unfold lift_option.
  erewrite bind_ok by done.
  cbn [buffer_ rm ptr_add Nat.add].
  erewrite bind_ok; cycle 1.
  { eapply (move_construct_next_at _ _ _ _ ((Some <$> ps) ++ (Some <$> ys)));
      [| |by rewrite <- app_assoc|done].
    - by rewrite length_app, !length_fmap.
    - done. }
  match goal with
  | |- bind _ _ ?W = _ =>
      destruct (move_backward_n_at W b (length ps + length ys) size
                  (length ys) (Some <$> ps) ys (moved_from l) (Some l :: post))
        as [f Hf]
  end.
  { by rewrite length_fmap. }
  { done. }
  { done. }
  { wsimpl. heap_lookup. by rewrite <- app_assoc. }
  { done. }
  erewrite bind_ok; cycle 1.
  { unfold move_backward.
    erewrite bind_ok by (apply range_size_ok; lia).
    replace (length ps + length ys - length ps) with (length ys) by lia.
    exact Hf. }
  erewrite bind_ok by (apply RawMemory_index_ok; simpl; lia).
  cbn [buffer_ rm ptr_add Nat.add].
  erewrite (move_assign_from_at _ _ _ (Some <$> ps)); cycle 1.
  { by rewrite length_fmap. }
  { wsimpl. heap_lookup. done. }
  { done. }
  wsimpl. by rewrite !list_insert_insert_eq.
Qed.

Lemma EmplaceWithoutDataRelocation_ok w this bo cap xs index args :
  vecs w !! this
    = Some {| data_ := {| buffer_ := Ptr bo 0; capacity_ := cap |};
              size_ := length xs |} →
  heap w !! bo = Some (Some (contents cap xs)) →
  length xs < cap →
  index ≤ length xs →
  throw_countdown w = None →
  let temps := if decide (index = length xs) then 0 else 1 in
  EmplaceWithoutDataRelocation this (Ptr bo index) index args w
  = (Ok tt,
     mkWorld
       (<[bo := Some (contents cap
                        (take index xs ++ arg_value args :: drop index xs))]>
          (heap w))
       (vecs w) (S (constructed w + temps)) (destroyed w + temps) None).
Proof.
  intros Hv Hb Hlt Hi Hc temps.
  set (x := arg_value args).
  unfold EmplaceWithoutDataRelocation.
  erewrite bind_ok by (by apply end_ok).
  erewrite bind_ok by (by apply get_vec_ok).
  cbn [buffer_ data_ size_ ptr_add Nat.add].
  subst temps. destruct (decide (index = length xs)) as [->|Hne].
  - rewrite decide_False by (intros ?; congruence).
    erewrite bind_ok by (apply RawMemory_plus_ok; simpl; lia).
    cbn [buffer_ ptr_add Nat.add].
    erewrite (construct_at_ok _ _ _ (Some <$> xs) _
                (replicate (cap - S (length xs)) None)); cycle 1.
    { by rewrite length_fmap. }
    { rewrite Hb. unfold contents. by rewrite replicate_sub_S by lia. }
    { done. }
    rewrite firstn_all, drop_all, !Nat.add_0_r. unfold contents.
    rewrite fmap_app, <- app_assoc, length_app. simpl.
    repeat f_equal; lia.
  - rewrite decide_True by (intros [= ?]; lia).
    destruct xs as [|l xs' _] using rev_ind; [simpl in *; lia|].
    rewrite length_snoc in *.
    assert (Hi' : index ≤ length xs') by lia.
    set (ps := take index xs'). set (ys := drop index xs').
    assert (Hps : length ps = index) by (subst ps; rewrite length_take; lia).
    assert (Hys : length xs' = length ps + length ys)
      by (subst ps ys; rewrite length_take, length_drop; lia).
    assert (Hxs' : xs' = ps ++ ys) by (subst ps ys; by rewrite take_drop).
    erewrite bind_ok by (by eapply T_construct_ok).
    erewrite bind_ok; cycle 1.
    { eapply on_throw_ok.
      rewrite <- Hps, Hys.
      eapply (open_gap_ok _ _ _ ps ys l x
                (replicate (cap - S (S (length xs'))) None)).
      - wsimpl. rewrite Hb. unfold contents.
        rewrite length_snoc, fmap_app, <- app_assoc, Hxs', fmap_app, <- app_assoc.
        simpl. do 5 f_equal.
        rewrite <- Hxs'. by rewrite replicate_sub_S by lia.
      - rewrite length_replicate. lia.
      - done. }
    unfold T_destroy, count_destruction, set_destroyed. wsimpl.
    rewrite take_app_le, drop_app_le by lia. fold ps ys.
    assert (Hlen : length (ps ++ x :: ys ++ [l]) = S (S (length xs'))).
    { rewrite length_app. cbn [length]. rewrite length_snoc. lia. }
    unfold contents. rewrite Hlen.
    rewrite fmap_app, fmap_cons, fmap_app. cbn [fmap list_fmap].
    rewrite <- !app_assoc, <- !app_comm_cons, <- !app_assoc. cbn [app].
    repeat f_equal; lia.
Qed.


Lemma EmplaceWithDataRelocation_null_ok w this args :
  vecs w !! this
    = Some {| data_ := {| buffer_ := nullptr; capacity_ := 0 |}; size_ := 0 |} →
  throw_countdown w = None →
  EmplaceWithDataRelocation this nullptr 0 args w
  = (Ok tt,
     mkWorld (heap w ++ [Some [Some (arg_value args)]])
       (<[this := {| data_ := {| buffer_ := Ptr (length (heap w)) 0;
                                 capacity_ := 1 |};
                     size_ := 0 |}]> (vecs w))
       (S (constructed w)) (destroyed w) None).
Proof.
  intros Hv Hc. unfold EmplaceWithDataRelocation.
  erewrite bind_ok by (by apply Size_ok). cbn [size_ Nat.eqb].
  erewrite bind_ok by (apply RawMemory_ctor_ok; lia).
  erewrite bind_ok; cycle 1.
  { eapply on_throw_ok.
    erewrite bind_ok by (apply RawMemory_plus_ok; simpl; lia).
    cbn [buffer_ ptr_add Nat.add].
    erewrite bind_ok; cycle 1.
    { eapply (construct_at_ok _ _ _ [] _ []); [done| |done].
      wsimpl. by rewrite list_lookup_middle. }
    erewrite bind_ok by (by apply begin_ok).
    cbn [buffer_ data_ Nat.sub].
    erewrite bind_ok; cycle 1.
    { destruct (_ || _); reflexivity. }
    cbn [destroy_n]. erewrite bind_ok by reflexivity.
    by apply data_Swap_ok. }
  unfold RawMemory_dtor, Deallocate, operator_delete. cbn [buffer_ data_].
  unfold set_vecs. wsimpl. do 2 f_equal.
  replace (length (heap w)) with (length (heap w) + 0) at 1 by lia.
  by rewrite insert_app_r.
Qed.

Lemma contents_lookup_lt cap xs i x :
  xs !! i = Some x → contents cap xs !! i = Some (Some x).
Proof.
  intros Hx. unfold contents. apply lookup_app_l_Some.
  by rewrite list_lookup_fmap, Hx.
Qed.

Lemma contents_nil_inv cap xs :
  length xs ≤ cap → contents cap xs = [] → xs = [] ∧ cap = 0.
Proof.
  unfold contents. intros Hle Hnil. apply app_eq_nil in Hnil as [Hx Hr].
  apply fmap_nil_inv in Hx. subst xs. split; [done|].
  simpl in Hr. destruct cap; [done|]. by rewrite Nat.sub_0_r in Hr.
Qed.

Lemma length_contents cap xs : length xs ≤ cap → length (contents cap xs) = cap.
Proof.
  intros Hle. unfold contents.
  rewrite length_app, length_fmap, length_replicate. lia.
Qed.

Lemma length_inserted {A} (xs : list A) index x :
  index ≤ length xs →
  length (take index xs ++ x :: drop index xs) = S (length xs).
Proof.
  intros Hi. rewrite length_app. cbn [length].
  rewrite length_take, length_drop. lia.
Qed.

(** [Emplace] on a vector whose next fallible operations do not throw. *)
Lemma Emplace_ok w this buf cap xs index args :
  owns w this buf cap xs →
  index ≤ length xs →
  throw_countdown w = None →
  ∃ w' buf' cap',
    Emplace this (ptr_add buf index) args w = (Ok (ptr_add buf' index), w')
    ∧ owns w' this buf' cap'
        (take index xs ++ arg_value args :: drop index xs)
    ∧ throw_countdown w' = None
    ∧ (length xs = cap → cap' = grown cap ∧ buf' = Ptr (length (heap w)) 0)
    ∧ (length xs < cap → cap' = cap ∧ buf' = buf)
    ∧ alive w' = (alive w + 1)%Z
    ∧ (∀ other, other ≠ this → vecs w' !! other = vecs w !! other)
    ∧ (∀ b, separate buf (Ptr b 0) → b < length (heap w) →
            heap w' !! b = heap w !! b).
Proof.
  intros (Hv & Hle & Hblk) Hi Hc.
  pose proof (length_inserted xs index (arg_value args) Hi) as Hlen.
  destruct buf as [|bo off].
  - (* an empty vector without storage *)
    simpl in Hblk. apply contents_nil_inv in Hblk as [-> ->]; [|done].
    simpl in Hi. assert (index = 0) as -> by lia.
    eexists _, _, _. split.
    { unfold Emplace.
      erewrite bind_ok by (by apply begin_ok).
      erewrite bind_ok by (by apply end_ok).
      cbn [buffer_ data_ size_ ptr_add ptr_le andb length].
      erewrite bind_ok by reflexivity.
      erewrite bind_ok by (by apply Size_ok).
      erewrite bind_ok by (by apply Capacity_ok).
      cbn [size_ data_ capacity_ RawMemory_Capacity distance length Nat.eqb].
      erewrite bind_ok by (by apply EmplaceWithDataRelocation_null_ok).
      erewrite bind_ok by (apply Size_ok; wsimpl; apply lookup_insert_eq).
      erewrite bind_ok by (apply set_size_ok; wsimpl; apply lookup_insert_eq).
      erewrite bind_ok by (apply begin_ok; wsimpl; apply lookup_insert_eq).
      reflexivity. }
    wsimpl. cbn [size_ data_]. rewrite insert_insert_eq.
    split; [|split; [done|split; [done|split; [lia|split; [|split]]]]].
    + unfold owns. wsimpl. split; [by rewrite lookup_insert_eq|]. split; [simpl; lia|].
      simpl. split; [done|]. by rewrite list_lookup_middle.
    + unfold alive. simpl. lia.
    + intros other Hne. by rewrite lookup_insert_ne.
    + intros b _ Hb. by rewrite lookup_app_l.
  - simpl in Hblk. destruct Hblk as [-> Hb].
    assert (Hlt : bo < length (heap w)) by (by eapply lookup_lt_Some).
    assert (Hpos : ptr_le (Ptr bo 0) (Ptr bo index)
                   && ptr_le (Ptr bo index) (Ptr bo (length xs)) = true).
    { simpl. by rewrite Nat.eqb_refl, (proj2 (Nat.leb_le _ _) Hi). }
    destruct (decide (length xs = cap)) as [Hfull|Hroom].
    + subst cap. rewrite contents_full in Hb.
      destruct (EmplaceWithDataRelocation_ok w this bo xs index args)
        as (h' & E & Hn & Ho & Hl & Hframe); try done.
      eexists _, _, _. split.
      { unfold Emplace. cbn [ptr_add Nat.add].
        erewrite bind_ok by (by apply begin_ok).
        erewrite bind_ok by (by apply end_ok).
        cbn [buffer_ data_ size_ ptr_add Nat.add]. rewrite Hpos.
        erewrite bind_ok by reflexivity.
        erewrite bind_ok by (by apply Size_ok).
        erewrite bind_ok by (by apply Capacity_ok).
        cbn [size_ data_ capacity_ RawMemory_Capacity distance].
        rewrite Nat.eqb_refl, Nat.sub_0_r.
        erewrite bind_ok by exact E.
        erewrite bind_ok by (apply Size_ok; wsimpl; apply lookup_insert_eq).
        erewrite bind_ok by (apply set_size_ok; wsimpl; apply lookup_insert_eq).
        erewrite bind_ok by (apply begin_ok; wsimpl; apply lookup_insert_eq).
        reflexivity. }
      wsimpl. cbn [size_ data_]. rewrite insert_insert_eq.
      split; [|split; [done|split; [done|split; [lia|split; [|split]]]]].
      * unfold owns. wsimpl. split; [by rewrite lookup_insert_eq, Hlen|].
        split; [unfold grown; rewrite Hlen; destruct (length xs); simpl; lia|].
        simpl. by split.
      * unfold alive. simpl. lia.
      * intros other Hne. by rewrite lookup_insert_ne.
      * intros b Hsep Hbl. simpl in Hsep. apply Hframe; [congruence|done].
    + assert (Hlt' : length xs < cap) by lia.
      eexists _, _, _. split.
      { unfold Emplace. cbn [ptr_add Nat.add].
        erewrite bind_ok by (by apply begin_ok).
        erewrite bind_ok by (by apply end_ok).
        cbn [buffer_ data_ size_ ptr_add Nat.add]. rewrite Hpos.
        erewrite bind_ok by reflexivity.
        erewrite bind_ok by (by apply Size_ok).
        erewrite bind_ok by (by apply Capacity_ok).
        cbn [size_ data_ capacity_ RawMemory_Capacity distance].
        rewrite (proj2 (Nat.eqb_neq _ _) Hroom), Nat.sub_0_r.
        erewrite bind_ok by (by apply EmplaceWithoutDataRelocation_ok).
        erewrite bind_ok by (by apply Size_ok).
        erewrite bind_ok by (by apply set_size_ok).
        erewrite bind_ok by (apply begin_ok; wsimpl; apply lookup_insert_eq).
        reflexivity. }
      wsimpl. cbn [size_ data_].
      split; [|split; [done|split; [lia|split; [done|split; [|split]]]]].
      * unfold owns. wsimpl. split; [by rewrite lookup_insert_eq, Hlen|]. split; [lia|].
        simpl. split; [done|]. heap_lookup. done.
      * unfold alive. simpl. lia.
      * intros other Hne. by rewrite lookup_insert_ne.
      * intros b Hsep Hbl. simpl in Hsep. by rewrite list_lookup_insert_ne.
Qed.

End Emplace_facts.

Section Erase_facts.
Context {T : Type} `{!Elem T}.

Local Abbreviation World := (@World T).
Local Abbreviation M := (@M T).
Implicit Types (h : list (option (list (option T)))) (w : World).
Implicit Types (pre post spre spost blk : list (option T)) (xs ys : list T).

Lemma length_deleted {A} (xs : list A) index :
  index < length xs → S (length (delete index xs)) = length xs.
Proof. intros Hi. rewrite length_delete; [lia|]. by apply lookup_lt_is_Some_2. Qed.

Lemma ptr_sub_pos b k : 0 < k → ptr_sub (Ptr b k) 1 = Some (Ptr b (k - 1)).
Proof. intros Hk. simpl. destruct k; [lia|done]. Qed.

(** [Erase] on a vector whose move assignments do not throw. *)
Lemma Erase_ok w this buf cap xs index :
  owns w this buf cap xs →
  index < length xs →
  throw_countdown w = None →
  ∃ w',
    Erase this (ptr_add buf index) w = (Ok (ptr_add buf index), w')
    ∧ owns w' this buf cap (delete index xs)
    ∧ throw_countdown w' = None
    ∧ constructed w' = constructed w
    ∧ destroyed w' = S (destroyed w)
    ∧ length (heap w') = length (heap w).
Proof.
  intros (Hv & Hle & Hblk) Hi Hc.
  destruct buf as [|bo off].
  { simpl in Hblk. apply contents_nil_inv in Hblk as [-> _]; [|done].
    simpl in Hi. lia. }
  simpl in Hblk. destruct Hblk as [-> Hb].
  destruct (lookup_lt_is_Some_2 xs index Hi) as [e He].
  pose proof (take_drop_middle xs index e He) as Hsplit.
  set (ps := take index xs) in *. set (ys := drop (S index) xs) in *.
  assert (Hps : length ps = index) by (subst ps; rewrite length_take; lia).
  assert (Hys : length ys = length xs - S index)
    by (subst ys; by rewrite length_drop).
  assert (Hb' : heap w !! bo
    = Some (Some ((Some <$> ps) ++ Some e :: (Some <$> ys)
                    ++ replicate (cap - length xs) None))).
  { rewrite Hb. unfold contents. rewrite <- Hsplit at 1.
    by rewrite fmap_app, fmap_cons, <- app_assoc. }
  destruct (move_n_at w bo (S index) index (length ys) (Some <$> ps) e ys
              (replicate (cap - length xs) None)) as [f Hf];
    [by rewrite length_fmap|done..|].
  assert (Hpos : ptr_le (Ptr bo 0) (Ptr bo index)
                 && ptr_le (Ptr bo index) (Ptr bo (length xs)) = true).
  { simpl. rewrite Nat.eqb_refl. simpl. apply Nat.leb_le. lia. }
  eexists. split.
  { unfold Erase. cbn [ptr_add Nat.add].
    erewrite bind_ok by (by apply begin_ok).
    erewrite bind_ok by (by apply end_ok).
    cbn [buffer_ data_ size_ ptr_add Nat.add]. rewrite Hpos.
    erewrite bind_ok by reflexivity.
    erewrite bind_ok; cycle 1.
    { unfold std_move. rewrite Nat.add_1_r.
      erewrite bind_ok by (apply range_size_ok; lia).
      rewrite <- Hys. exact Hf. }
    rewrite ptr_sub_pos by lia. unfold lift_option.
    erewrite bind_ok by reflexivity.
    erewrite bind_ok; cycle 1.
    { eapply (destroy_at_at _ _ _ ((Some <$> ps) ++ (Some <$> ys))).
      - rewrite length_app, !length_fmap. lia.
      - wsimpl. heap_lookup. by rewrite <- app_assoc. }
    erewrite bind_ok by (by apply Size_ok).
    erewrite bind_ok by (by apply set_size_ok).
    erewrite bind_ok by (apply begin_ok; wsimpl; apply lookup_insert_eq).
    cbn [distance buffer_ data_ ptr_add Nat.add]. rewrite Nat.sub_0_r.
    reflexivity. }
  wsimpl. split; [|split; [done|split; [done|split; [done|heap_len]]]].
  unfold owns. wsimpl. cbn [size_ data_].
  assert (Hdel : delete index xs = ps ++ ys).
  { rewrite <- Hsplit. rewrite <- Hps. by rewrite delete_middle. }
  pose proof (length_deleted xs index Hi) as Hlen.
  split; [|split].
  - rewrite lookup_insert_eq. do 3 f_equal. lia.
  - lia.
  - simpl. split; [done|]. heap_lookup. rewrite Hdel. unfold contents.
    rewrite fmap_app, <- !app_assoc. do 4 f_equal.
    rewrite <- Hdel. replace (cap - length (delete index xs))
      with (S (cap - length xs)) by lia.
    done.
Qed.

End Erase_facts.

Section Copy_facts.
Context {T : Type} `{!Elem T}.

Local Abbreviation World := (@World T).
Local Abbreviation M := (@M T).
Implicit Types (h : list (option (list (option T)))) (w : World).
Implicit Types (pre post spre spost blk : list (option T)) (xs ys : list T).

Lemma heap_snoc_insert h (o o' : option (list (option T))) :
  <[length h := o']> (h ++ [o]) = h ++ [o'].
Proof.
  replace (length h) with (length h + 0) at 1 by lia.
  by rewrite insert_app_r.
Qed.

Lemma Vector_copy_ok w bb capb ys :
  heap w !! bb = Some (Some (contents capb ys)) →
  0 < length ys →
  throw_countdown w = None →
  Vector_copy {| data_ := {| buffer_ := Ptr bb 0; capacity_ := capb |};
                 size_ := length ys |} w
  = (Ok {| data_ := {| buffer_ := Ptr (length (heap w)) 0;
                       capacity_ := length ys |};
           size_ := length ys |},
     mkWorld (heap w ++ [Some (Some <$> ys)]) (vecs w)
             (constructed w + length ys) (destroyed w) None).
Proof.
  intros Hb Hpos Hc.
  assert (Hlt : bb < length (heap w)) by (by eapply lookup_lt_Some).
  unfold Vector_copy. cbn [size_ data_ GetAddress buffer_].
  erewrite bind_ok by (by apply RawMemory_ctor_ok).
  cbn [buffer_].
  erewrite bind_ok; cycle 1.
  { eapply on_throw_ok.
    eapply (uninitialized_copy_n_at _ _ _ [] ys _ _ _ [] []); try done.
    - lia.
    - wsimpl. heap_lookup. done.
    - wsimpl. heap_lookup. by rewrite app_nil_r.
    - wsimpl. by rewrite Hc. }
  wsimpl. rewrite Hc. unfold ret. simpl.
  by rewrite heap_snoc_insert, app_nil_r.
Qed.

Lemma Vector_copy_throw w bb capb ys k :
  heap w !! bb = Some (Some (contents capb ys)) →
  throw_countdown w = Some k → k < length ys →
  Vector_copy {| data_ := {| buffer_ := Ptr bb 0; capacity_ := capb |};
                 size_ := length ys |} w
  = (Throw,
     mkWorld (heap w ++ [None]) (vecs w)
             (constructed w + k) (destroyed w + k) None).
Proof.
  intros Hb Hc Hk.
  assert (Hlt : bb < length (heap w)) by (by eapply lookup_lt_Some).
  unfold Vector_copy. cbn [size_ data_ GetAddress buffer_].
  erewrite bind_ok by (apply RawMemory_ctor_ok; lia).
  cbn [buffer_].
  erewrite bind_throw; [done|].
  eapply on_throw_throw.
  - eapply (uninitialized_copy_n_throw_at _ _ _ [] ys _ _ _ [] []); try done.
    + lia.
    + wsimpl. heap_lookup. done.
    + wsimpl. heap_lookup. by rewrite app_nil_r.
  - unfold RawMemory_dtor, Deallocate. cbn [buffer_].
    erewrite operator_delete_ok by (wsimpl; by rewrite list_lookup_middle).
    wsimpl. by rewrite heap_snoc_insert.
Qed.

(** The destructor of a vector value that owns its block. *)
Lemma Vector_destroy_ok w buf cap xs :
  block_at (heap w) buf (contents cap xs) → length xs ≤ cap →
  ∃ h',
    Vector_destroy {| data_ := {| buffer_ := buf; capacity_ := cap |};
                      size_ := length xs |} w
    = (Ok tt, mkWorld h' (vecs w) (constructed w) (destroyed w + length xs)
                      (throw_countdown w))
    ∧ length h' = length (heap w)
    ∧ ∀ b, separate buf (Ptr b 0) → h' !! b = heap w !! b.
Proof.
  intros Hblk Hle. unfold Vector_destroy. cbn [data_ size_ GetAddress buffer_].
  destruct buf as [|bo off].
  - simpl in Hblk. apply contents_nil_inv in Hblk as [-> ->]; [|done].
    exists (heap w). split; [|done]. simpl. unfold bind, ret. simpl.
    by rewrite Nat.add_0_r, world_eta.
  - simpl in Hblk. destruct Hblk as [-> Hb].
    eexists. split; [|split].
    + erewrite bind_ok; cycle 1.
      { by eapply (destroy_n_at _ _ _ _ [] xs). }
      unfold RawMemory_dtor, Deallocate. cbn [buffer_].
      erewrite operator_delete_ok by (wsimpl; heap_lookup; done).
      wsimpl. reflexivity.
    + heap_len.
    + intros b Hsep. simpl in Hsep. by heap_lookup.
Qed.


Lemma Swap_local_ok w this v other :
  vecs w !! this = Some v →
  Swap_local this other w
  = (Ok v, set_vecs (<[this := other]> (vecs w)) w).
Proof.
  intros E. unfold Swap_local.
  erewrite bind_ok by (by apply get_vec_ok).
  unfold bind, put_vec, ret. simpl. by destruct v as [[??]?], other as [[??]?].
Qed.

(** Copy assignment when the source does not fit: copy and swap. *)
Lemma copy_and_swap_ok w a bufa capa xs b bufb capb ys :
  a ≠ b →
  owns w a bufa capa xs → owns w b bufb capb ys →
  separate bufa bufb →
  capa < length ys →
  throw_countdown w = None →
  ∃ w',
    Vector_copy_assign a b w = (Ok tt, w')
    ∧ owns w' a (Ptr (length (heap w)) 0) (length ys) ys
    ∧ owns w' b bufb capb ys
    ∧ throw_countdown w' = None
    ∧ constructed w' = constructed w + length ys
    ∧ destroyed w' = destroyed w + length xs.
Proof.
  intros Hab (Hva & Hlea & Hblka) (Hvb & Hleb & Hblkb) Hsep Hcap Hc.
  destruct bufb as [|bb offb].
  { simpl in Hblkb. apply contents_nil_inv in Hblkb as [-> _]; [|done].
    simpl in Hcap. lia. }
  simpl in Hblkb. destruct Hblkb as [-> Hb].
  assert (Hlt : bb < length (heap w)) by (by eapply lookup_lt_Some).
  set (w1 := mkWorld (heap w ++ [Some (Some <$> ys)])
               (<[a := {| data_ := {| buffer_ := Ptr (length (heap w)) 0;
                                      capacity_ := length ys |};
                          size_ := length ys |}]> (vecs w))
               (constructed w + length ys) (destroyed w) None).
  destruct (Vector_destroy_ok w1 bufa capa xs) as (h' & E & Hl & Hframe).
  { subst w1. wsimpl. destruct bufa as [|ba offa]; [done|].
    simpl in *. destruct Hblka as [-> Ha]. split; [done|].
    apply lookup_app_l_Some. done. }
  { done. }
  eexists. split.
  { unfold Vector_copy_assign. rewrite decide_True by done.
    erewrite bind_ok by (by apply Size_ok).
    erewrite bind_ok by (by apply Capacity_ok).
    cbn [size_ data_ capacity_ RawMemory_Capacity].
    rewrite (proj2 (Nat.ltb_lt _ _) Hcap).
    erewrite bind_ok by (by apply get_vec_ok).
    erewrite bind_ok by (apply Vector_copy_ok; [done|lia|done]).
    erewrite bind_ok by (by apply Swap_local_ok).
    exact E. }
  subst w1. wsimpl. split; [|split; [|done]].
  - unfold owns. wsimpl. rewrite lookup_insert_eq. split; [done|].
    split; [done|]. simpl. split; [done|].
    rewrite Hframe; wsimpl.
    + rewrite list_lookup_middle by done. by rewrite contents_full.
    + destruct bufa as [|ba offa]; [done|]. simpl in *.
      destruct Hblka as [_ Ha]. apply lookup_lt_Some in Ha. lia.
  - unfold owns. wsimpl. rewrite lookup_insert_ne by done. split; [done|].
    split; [done|]. simpl. split; [done|].
    rewrite Hframe; wsimpl.
    + by apply lookup_app_l_Some.
    + destruct bufa as [|ba offa]; [done|]. simpl in *. congruence.
Qed.

(** Copy and swap leaves everything as it was when a copy throws. *)
Lemma copy_and_swap_throw w a bufa capa xs b bufb capb ys k :
  a ≠ b →
  owns w a bufa capa xs → owns w b bufb capb ys →
  capa < length ys →
  throw_countdown w = Some k → k < length ys →
  ∃ w',
    Vector_copy_assign a b w = (Throw, w')
    ∧ owns w' a bufa capa xs
    ∧ owns w' b bufb capb ys
    ∧ vecs w' = vecs w
    ∧ alive w' = alive w.
Proof.
  intros Hab (Hva & Hlea & Hblka) (Hvb & Hleb & Hblkb) Hcap Hc Hk.
  destruct bufb as [|bb offb].
  { simpl in Hblkb. apply contents_nil_inv in Hblkb as [-> _]; [|done].
    simpl in Hcap. lia. }
  simpl in Hblkb. destruct Hblkb as [-> Hb].
  eexists. split.
  { unfold Vector_copy_assign. rewrite decide_True by done.
    erewrite bind_ok by (by apply Size_ok).
    erewrite bind_ok by (by apply Capacity_ok).
    cbn [size_ data_ capacity_ RawMemory_Capacity].
    rewrite (proj2 (Nat.ltb_lt _ _) Hcap).
    erewrite bind_ok by (by apply get_vec_ok).
    erewrite bind_throw; [done|].
    by eapply Vector_copy_throw. }
  wsimpl. split; [|split; [|split; [done|]]].
  - unfold owns. wsimpl. split; [done|]. split; [done|].
    destruct bufa as [|ba offa]; [done|]. simpl in *.
    destruct Hblka as [-> Ha]. split; [done|]. by apply lookup_app_l_Some.
  - unfold owns. wsimpl. split; [done|]. split; [done|].
    simpl. split; [done|]. by apply lookup_app_l_Some.
  - unfold alive. simpl. lia.
Qed.


(** Copy assignment when the source fits: the storage is reused. *)
Lemma copy_in_place_ok w a bufa capa xs b bufb capb ys :
  a ≠ b →
  owns w a bufa capa xs → owns w b bufb capb ys →
  separate bufa bufb →
  length ys ≤ capa →
  throw_countdown w = None →
  ∃ w',
    Vector_copy_assign a b w = (Ok tt, w')
    ∧ owns w' a bufa capa ys
    ∧ owns w' b bufb capb ys
    ∧ throw_countdown w' = None
    ∧ constructed w' = constructed w + (length ys - length xs)
    ∧ destroyed w' = destroyed w + (length xs - length ys).
Proof.
  intros Hab Hoa Hob Hsep Hcap Hc.
  destruct w as [h vs c0 d0 cd]. unfold owns in Hoa, Hob.
  cbn [heap vecs throw_countdown constructed destroyed] in *. subst cd.
  set (w := mkWorld h vs c0 d0 None).
  destruct Hoa as (Hva & Hlea & Hblka). destruct Hob as (Hvb & Hleb & Hblkb).
  assert (Hstart :
    Vector_copy_assign a b w
    = (rhs_size <- ret (length ys);; size <- ret (length xs);;
       rhs_begin <- ret bufb;; this_begin <- ret bufa;;
       copy_n rhs_begin (rhs_size `min` size) this_begin;;
       (if rhs_size =? rhs_size `min` size
        then destroy_n (ptr_add this_begin rhs_size) (size - rhs_size)
        else uninitialized_copy_n (ptr_add rhs_begin size) (rhs_size - size)
               (ptr_add this_begin size));;
       set_size a rhs_size) w).
  { unfold Vector_copy_assign. rewrite decide_True by done.
    erewrite bind_ok by (by apply Size_ok).
    erewrite bind_ok by (by apply Capacity_ok).
    cbn [size_ data_ capacity_ RawMemory_Capacity].
    rewrite (proj2 (Nat.ltb_ge _ _) Hcap).
    erewrite bind_ok by (by apply Size_ok).
    erewrite bind_ok by (by apply begin_ok).
    erewrite bind_ok by (by apply begin_ok).
    reflexivity. }
  rewrite Hstart. clear Hstart.
  unfold bind at 1 2 3 4. unfold ret at 1 2 3 4.
  assert (Hfinal : ∀ h' c d,
    (∀ blk, block_at (h) bufb blk → block_at h' bufb blk) →
    block_at h' bufa (contents capa ys) →
    let w1 := mkWorld h' (vs) c d None in
    set_size a (length ys) w1
    = (Ok tt, set_vecs (<[a := {| data_ := {| buffer_ := bufa;
                                              capacity_ := capa |};
                                  size_ := length ys |}]> (vs)) w1)
    ∧ owns (set_vecs (<[a := {| data_ := {| buffer_ := bufa;
                                            capacity_ := capa |};
                                size_ := length ys |}]> (vs)) w1)
        a bufa capa ys
    ∧ owns (set_vecs (<[a := {| data_ := {| buffer_ := bufa;
                                            capacity_ := capa |};
                                size_ := length ys |}]> (vs)) w1)
        b bufb capb ys).
  { intros h' c d Hfb Hfa w1. split; [by erewrite set_size_ok by done|].
    unfold owns. wsimpl. split.
    - by rewrite lookup_insert_eq.
    - rewrite lookup_insert_ne by done. auto. }
  destruct bufa as [|ba offa].
  { (* no storage: both vectors are empty *)
    simpl in Hblka. apply contents_nil_inv in Hblka as [-> ->]; [|done].
    assert (ys = []) as -> by (destruct ys; [done|simpl in *; lia]).
    destruct (Hfinal (h) c0 d0) as (E & Ha & Hb);
      [done|done|].
    eexists. split.
    { simpl. unfold bind at 1 2. unfold ret at 1 2. exact E. }
    wsimpl. simpl. rewrite !Nat.add_0_r. done. }
  simpl in Hblka. destruct Hblka as [-> Ha].
  assert (Hlta : ba < length (h)) by (by eapply lookup_lt_Some).
  destruct (decide (length ys ≤ length xs)) as [Hshort|Hlong].
  - (* the source is not longer: assign a prefix, destroy the rest *)
    rewrite Nat.min_l by done. rewrite Nat.eqb_refl.
    set (keep := take (length ys) xs). set (rest := drop (length ys) xs).
    assert (Hkeep : length keep = length ys)
      by (subst keep; rewrite length_take; lia).
    assert (Hrest : length rest = length xs - length ys)
      by (subst rest; by rewrite length_drop).
    assert (Ha' : h !! ba
      = Some (Some ([] ++ (Some <$> keep)
                ++ ((Some <$> rest) ++ replicate (capa - length xs) None)))).
    { rewrite Ha. unfold contents. subst keep rest. cbn [app].
      by rewrite app_assoc, <- fmap_app, take_drop. }
    assert (E1 :
      copy_n bufb (length ys) (Ptr ba 0) w
      = (Ok tt, mkWorld (<[ba := Some ([] ++ (Some <$> ys)
                    ++ ((Some <$> rest) ++ replicate (capa - length xs) None))]>
                           (h))
                        (vs) c0 d0 None)).
    { destruct bufb as [|bb offb].
      - simpl in Hblkb. apply contents_nil_inv in Hblkb as [-> _]; [|done].
        simpl. unfold ret. rewrite list_insert_id.
        + done.
        + rewrite Ha'. subst keep. done.
      - simpl in Hblkb, Hsep. destruct Hblkb as [-> Hb].
        erewrite (copy_n_at _ _ _ [] ys _ _ _ [] keep);
          [done|done..|congruence|done|done|done|by simpl]. }
    destruct (Hfinal
      (<[ba := Some ((Some <$> ys) ++ replicate (length xs - length ys) None
                       ++ replicate (capa - length xs) None)]> (h))
      c0 (d0 + (length xs - length ys)))
      as (E & Hoa & Hob).
    { intros blk. destruct bufb as [|bb offb]; [done|]. simpl in *.
      intros [-> Hb]. split; [done|]. rewrite list_lookup_insert_ne; [done|congruence]. }
    { simpl. split; [done|]. heap_lookup. unfold contents.
      rewrite <- replicate_add. do 4 f_equal. lia. }
    eexists. split.
    { erewrite bind_ok by exact E1.
      erewrite bind_ok; cycle 1.
      { eapply (destroy_n_at _ _ _ _ (Some <$> ys) rest); wsimpl.
        - by rewrite length_fmap.
        - done.
        - heap_lookup. done. }
      wsimpl. rewrite list_insert_insert_eq. exact E. }
    wsimpl. rewrite (proj2 (Nat.sub_0_le _ _) Hshort), Nat.add_0_r. done.
  - (* the source is longer: assign over all of it, construct the rest *)
    assert (Hlt : length xs < length ys) by lia.
    rewrite Nat.min_r by lia.
    rewrite (proj2 (Nat.eqb_neq _ _)) by lia.
    destruct bufb as [|bb offb].
    { simpl in Hblkb. apply contents_nil_inv in Hblkb as [-> _]; [|done].
      simpl in Hlt. lia. }
    simpl in Hblkb, Hsep. destruct Hblkb as [-> Hb].
    set (head := take (length xs) ys). set (tail := drop (length xs) ys).
    assert (Hhead : length head = length xs)
      by (subst head; rewrite length_take; lia).
    assert (Htail : length tail = length ys - length xs)
      by (subst tail; by rewrite length_drop).
    assert (Hb' : h !! bb
      = Some (Some ((Some <$> head) ++ (Some <$> tail)
                      ++ replicate (capb - length ys) None))).
    { rewrite Hb. unfold contents. subst head tail.
      by rewrite app_assoc, <- fmap_app, take_drop. }
    destruct (Hfinal
      (<[ba := Some ((Some <$> head) ++ (Some <$> tail)
                       ++ replicate (capa - length ys) None)]> (h))
      (c0 + (length ys - length xs)) d0)
      as (E & Hoa & Hob).
    { intros blk. simpl. intros [_ Hblk]. split; [done|].
      rewrite list_lookup_insert_ne; [done|congruence]. }
    { simpl. split; [done|]. heap_lookup. unfold contents. subst head tail.
      by rewrite app_assoc, <- fmap_app, take_drop. }
    eexists. split.
    { erewrite bind_ok; cycle 1.
      { eapply (copy_n_at _ _ _ [] head _ _ _ [] xs
                  (replicate (capa - length xs) None));
          [done|done|by rewrite Hhead|congruence|done|exact Hb'|exact Ha
          |by simpl]. }
      cbn [ptr_add Nat.add].
      erewrite bind_ok; cycle 1.
      { eapply (uninitialized_copy_n_at _ _ _ (Some <$> head) tail _ _ _
                  (Some <$> head) (replicate (capa - length ys) None)); wsimpl.
        - by rewrite length_fmap.
        - by rewrite length_fmap.
        - done.
        - congruence.
        - heap_lookup. done.
        - heap_lookup. simpl. do 3 f_equal.
          rewrite <- replicate_add. f_equal. lia.
        - by simpl. }
      wsimpl. rewrite list_insert_insert_eq. exact E. }
    wsimpl. replace (length xs - length ys) with 0 by lia.
    rewrite Nat.add_0_r. done.
Qed.

End Copy_facts.

Section Growth.
Context {T : Type} `{!Elem T}.

Local Abbreviation World := (@World T).
Local Abbreviation M := (@M T).
Implicit Types (w : World) (xs ys : list T).

Lemma owns_lookup w this buf cap xs :
  owns w this buf cap xs →
  vecs w !! this
  = Some {| data_ := {| buffer_ := buf; capacity_ := cap |};
            size_ := length xs |}.
Proof. by intros (Hv & _). Qed.

Lemma owns_address_old w this buf cap xs :
  owns w this buf cap xs → buf ≠ Ptr (length (heap w)) 0.
Proof.
  intros (_ & _ & Hblk) ->. simpl in Hblk. destruct Hblk as [_ Hb].
  apply lookup_lt_Some in Hb. lia.
Qed.

Lemma run_push_ok w this buf cap xs p :
  owns w this buf cap xs →
  throw_countdown w = None →
  ∃ w' buf' cap',
    run_push this p w = (Ok tt, w')
    ∧ owns w' this buf' cap' (xs ++ [pushed p])
    ∧ throw_countdown w' = None
    ∧ (length xs = cap → cap' = grown cap ∧ buf' = Ptr (length (heap w)) 0)
    ∧ (length xs < cap → cap' = cap ∧ buf' = buf).
Proof.
  intros Ho Hc.
  assert (Hargs : ∀ args,
    ∃ w' buf' cap',
      (EmplaceBack this args;; ret tt) w = (Ok tt, w')
      ∧ owns w' this buf' cap' (xs ++ [arg_value args])
      ∧ throw_countdown w' = None
      ∧ (length xs = cap → cap' = grown cap ∧ buf' = Ptr (length (heap w)) 0)
      ∧ (length xs < cap → cap' = cap ∧ buf' = buf)).
  { intros args.
    destruct (Emplace_ok w this buf cap xs (length xs) args Ho)
      as (w' & buf' & cap' & E & Ho' & Hc' & Hfull & Hroom & _); [done..|].
    exists w', buf', cap'. rewrite firstn_all, drop_all in Ho'.
    split; [|done].
    unfold EmplaceBack, cend.
    erewrite bind_ok; [done|].
    erewrite bind_ok by (apply end_ok, (owns_lookup _ _ _ _ _ Ho)).
    exact E. }
  destruct p as [value|value].
  - apply (Hargs (CopyOf value)).
  - apply (Hargs (MoveOf value)).
Qed.

Lemma push_all_app this (ps qs : list Push) w :
  push_all this (ps ++ qs) w = (push_all this ps;; push_all this qs) w.
Proof.
  revert w. induction ps as [|p ps IH]; intros w; [done|].
  cbn [push_all app]. unfold bind.
  destruct (run_push this p w) as [[[]| |] w1]; [|done..].
  rewrite IH. done.
Qed.

Lemma push_all_ok w this buf cap xs (ps : list Push) :
  owns w this buf cap xs →
  throw_countdown w = None →
  ∃ w' buf' cap',
    push_all this ps w = (Ok tt, w')
    ∧ owns w' this buf' cap' (xs ++ (pushed <$> ps))
    ∧ throw_countdown w' = None.
Proof.
  revert w buf cap xs. induction ps as [|p ps IH]; intros w buf cap xs Ho Hc.
  - exists w, buf, cap. by rewrite app_nil_r.
  - destruct (run_push_ok w this buf cap xs p Ho Hc)
      as (w1 & buf1 & cap1 & E1 & Ho1 & Hc1 & _).
    destruct (IH w1 buf1 cap1 (xs ++ [pushed p]) Ho1 Hc1)
      as (w2 & buf2 & cap2 & E2 & Ho2 & Hc2).
    exists w2, buf2, cap2. rewrite <- app_assoc in Ho2.
    split; [|done]. cbn [push_all]. by erewrite bind_ok by exact E1.
Qed.

(** C4: starting from an empty vector, every one of a sequence of
    [PushBack] calls, of either overload, returns; after the [k]-th call
    [Size()] is [k] and the elements are the first [k] values pushed; and
    the next call either keeps the storage and the capacity, or moves to new
    storage whose capacity is 1 when the old capacity was 0 and exactly twice
    the old capacity otherwise. *)
Theorem PushBack_sequence_size_and_capacity w this buf cap
    (ps : list Push) k :
  owns w this buf cap [] →
  throw_countdown w = None →
  k ≤ length ps →
  ∃ wk bufk capk,
    push_all this (take k ps) w = (Ok tt, wk)
    ∧ Size this wk = (Ok k, wk)
    ∧ owns wk this bufk capk (pushed <$> take k ps)
    ∧ ∀ p, ps !! k = Some p →
        ∃ wk' c c',
          run_push this p wk = (Ok tt, wk')
          ∧ push_all this (take (S k) ps) w = (Ok tt, wk')
          ∧ Size this wk' = (Ok (S k), wk')
          ∧ Capacity this wk = (Ok c, wk)
          ∧ Capacity this wk' = (Ok c', wk')
          ∧ ((address_of wk' this = address_of wk this ∧ c' = c)
             ∨ (address_of wk' this ≠ address_of wk this
                ∧ c' = if c =? 0 then 1 else 2 * c)).
Proof.
  intros Ho Hc Hk.
  destruct (push_all_ok w this buf cap [] (take k ps) Ho Hc)
    as (wk & bufk & capk & Ek & Hok & Hck).
  simpl in Hok.
  assert (Hlen : length (pushed <$> take k ps) = k)
    by (rewrite length_fmap, length_take; lia).
  pose proof (owns_lookup _ _ _ _ _ Hok) as Hvk. rewrite Hlen in Hvk.
  exists wk, bufk, capk. split; [done|]. split.
  { by erewrite Size_ok by exact Hvk. }
  split; [done|].
  intros p Hp.
  destruct (run_push_ok wk this bufk capk (pushed <$> take k ps) p Hok Hck)
    as (wk' & buf' & cap' & E' & Ho' & Hc' & Hfull & Hroom).
  pose proof (owns_lookup _ _ _ _ _ Ho') as Hv'.
  rewrite length_app, Hlen in Hv'. simpl in Hv'.
  rewrite Nat.add_1_r in Hv'.
  exists wk', capk, cap'. split; [done|]. split.
  { rewrite (take_S_r _ _ _ Hp), push_all_app.
    erewrite bind_ok by exact Ek. cbn [push_all].
    by erewrite bind_ok by exact E'. }
  split; [by erewrite Size_ok by exact Hv'|].
  split; [by erewrite Capacity_ok by exact Hvk|].
  split; [by erewrite Capacity_ok by exact Hv'|].
  unfold address_of. rewrite Hvk, Hv'. simpl.
  pose proof Hok as (_ & Hle & _). rewrite Hlen in Hle, Hfull, Hroom.
  destruct (decide (k = capk)) as [Heq|Hne].
  - right. destruct (Hfull Heq) as [-> ->]. split.
    + intros [= Hb]. by apply (owns_address_old _ _ _ _ _ Hok).
    + unfold grown. destruct (capk =? 0); lia.
  - left. destruct Hroom as [-> ->]; [lia|done].
Qed.

End Growth.

(** The claim of C4 on three pushes onto a default-constructed vector: the
    third push finds the vector full at capacity 2 and moves it to storage
    of capacity 4. *)
Lemma PushBack_sequence_size_and_capacity_witness :
  ∃ wk bufk capk,
    push_all 0 (take 2 [ByCopy 10; ByMove 20; ByCopy 30]%Z)
      (Vector_ctor 0 empty_world).2
    = (Ok tt, wk)
    ∧ Size 0 wk = (Ok 2, wk)
    ∧ owns wk 0 bufk capk [10; 20]%Z
    ∧ ∀ p, [ByCopy 10; ByMove 20; ByCopy 30]%Z !! 2 = Some p →
        ∃ wk' c c',
          run_push 0 p wk = (Ok tt, wk')
          ∧ push_all 0 (take 3 [ByCopy 10; ByMove 20; ByCopy 30]%Z)
              (Vector_ctor 0 empty_world).2
            = (Ok tt, wk')
          ∧ Size 0 wk' = (Ok 3, wk')
          ∧ Capacity 0 wk = (Ok c, wk)
          ∧ Capacity 0 wk' = (Ok c', wk')
          ∧ ((address_of wk' 0 = address_of wk 0 ∧ c' = c)
             ∨ (address_of wk' 0 ≠ address_of wk 0
                ∧ c' = if c =? 0 then 1 else 2 * c)).
Proof.
  apply (PushBack_sequence_size_and_capacity
           (Vector_ctor 0 empty_world).2 0 nullptr 0
           [ByCopy 10; ByMove 20; ByCopy 30]%Z 2).
  - unfold owns. split; [vm_compute; reflexivity|].
    split; [simpl; lia|reflexivity].
  - reflexivity.
  - simpl. lia.
Defined.

Section Erase_and_iterators.
Context {T : Type} `{!Elem T}.

Local Abbreviation World := (@World T).
Local Abbreviation M := (@M T).
Implicit Types (w : World) (xs ys : list T).

(** C7: [Erase(pos)] at a position of a live element returns; afterwards the
    elements are the old ones without the erased one, in order; one object
    has been destroyed and none constructed; the length is one less; the
    capacity and the storage address are unchanged and no block has been
    allocated. *)
Theorem Erase_closes_the_gap w this buf cap xs index :
  owns w this buf cap xs →
  index < length xs →
  throw_countdown w = None →
  ∃ w' it,
    Erase this (ptr_add buf index) w = (Ok it, w')
    ∧ owns w' this buf cap (delete index xs)
    ∧ Size this w' = (Ok (length xs - 1), w')
    ∧ Capacity this w' = (Ok cap, w')
    ∧ begin this w' = (Ok buf, w')
    ∧ constructed w' = constructed w
    ∧ destroyed w' = S (destroyed w)
    ∧ length (heap w') = length (heap w).
Proof.
  intros Ho Hi Hc.
  destruct (Erase_ok w this buf cap xs index Ho Hi Hc)
    as (w' & E & Ho' & _ & Hcon & Hdes & Hlen).
  pose proof (owns_lookup _ _ _ _ _ Ho') as Hv.
  exists w', (ptr_add buf index). split; [done|]. split; [done|].
  split.
  { erewrite Size_ok by exact Hv. simpl. do 2 f_equal.
    pose proof (length_deleted xs index Hi). lia. }
  split; [by erewrite Capacity_ok by exact Hv|].
  split; [by erewrite begin_ok by exact Hv|done].
Qed.

Lemma owns_load w this buf cap xs i x :
  owns w this buf cap xs → xs !! i = Some x →
  load (ptr_add buf i) w = (Ok x, w).
Proof.
  intros (_ & Hle & Hblk) Hx. destruct buf as [|b off]; simpl in Hblk.
  - apply contents_nil_inv in Hblk as [-> _]; [done|done].
  - destruct Hblk as [-> Hb]. unfold load. simpl. rewrite Hb.
    by rewrite (contents_lookup_lt _ _ _ _ Hx).
Qed.

Lemma owns_read_slot w this buf cap xs i :
  owns w this buf cap xs → i < cap →
  read_slot (heap w) (ptr_add buf i) = Some (xs !! i).
Proof.
  intros (_ & Hle & Hblk) Hi. destruct buf as [|b off]; simpl in Hblk.
  - apply contents_nil_inv in Hblk as [_ ->]; [|done]. lia.
  - destruct Hblk as [-> Hb]. simpl. rewrite Hb. unfold contents.
    destruct (decide (i < length xs)) as [Hlt|Hge].
    + destruct (lookup_lt_is_Some_2 xs i Hlt) as [x Hx]. rewrite Hx.
      apply lookup_app_l_Some. by rewrite list_lookup_fmap, Hx.
    + rewrite lookup_app_r by (rewrite length_fmap; lia).
      rewrite (lookup_ge_None_2 xs i) by lia.
      rewrite lookup_replicate_2; [done|]. rewrite length_fmap. lia.
Qed.

Lemma lookup_inserted xs index (x : T) :
  index ≤ length xs →
  (take index xs ++ x :: drop index xs) !! index = Some x.
Proof. intros Hi. apply list_lookup_middle. rewrite length_take. lia. Qed.

(** C10: [Emplace] and both overloads of [Insert] return [begin() + index],
    with [begin()] taken after the call and [index] the distance of [pos]
    from [begin()] before it, and the object there is the inserted one;
    [EmplaceBack] returns the address of the appended object; [Erase] returns
    [begin() + index], the slot of the erased element, which now holds the
    element that followed it, or is [end()] when none did. *)
Theorem returned_iterators_point_at_the_element w this buf cap xs index args :
  owns w this buf cap xs →
  index ≤ length xs →
  throw_countdown w = None →
  (∃ w' first,
     Emplace this (ptr_add buf index) args w = (Ok (ptr_add first index), w')
     ∧ distance buf (ptr_add buf index) = index
     ∧ begin this w' = (Ok first, w')
     ∧ load (ptr_add first index) w' = (Ok (arg_value args), w'))
  ∧ (∀ value, ∃ w' first,
     Insert this (ptr_add buf index) value w = (Ok (ptr_add first index), w')
     ∧ begin this w' = (Ok first, w')
     ∧ load (ptr_add first index) w' = (Ok value, w'))
  ∧ (∀ value, ∃ w' first,
     Insert_move this (ptr_add buf index) value w
     = (Ok (ptr_add first index), w')
     ∧ begin this w' = (Ok first, w')
     ∧ load (ptr_add first index) w' = (Ok value, w'))
  ∧ (∃ w' first,
     EmplaceBack this args w = (Ok (ptr_add first (length xs)), w')
     ∧ begin this w' = (Ok first, w')
     ∧ load (ptr_add first (length xs)) w' = (Ok (arg_value args), w'))
  ∧ (index < length xs →
     ∃ w',
       Erase this (ptr_add buf index) w = (Ok (ptr_add buf index), w')
       ∧ begin this w' = (Ok buf, w')
       ∧ end_ this w' = (Ok (ptr_add buf (length xs - 1)), w')
       ∧ read_slot (heap w') (ptr_add buf index) = Some (xs !! S index)).
Proof.
  intros Ho Hi Hc.
  assert (Hemplace : ∀ i a, i ≤ length xs →
    ∃ w' first,
      Emplace this (ptr_add buf i) a w = (Ok (ptr_add first i), w')
      ∧ begin this w' = (Ok first, w')
      ∧ load (ptr_add first i) w' = (Ok (arg_value a), w')).
  { intros i a Hia.
    destruct (Emplace_ok w this buf cap xs i a Ho Hia Hc)
      as (w' & buf' & cap' & E & Ho' & _).
    exists w', buf'. split; [done|]. split.
    - by erewrite begin_ok by (by eapply owns_lookup).
    - eapply owns_load; [done|]. by apply lookup_inserted. }
  split; [|split; [|split; [|split]]].
  - destruct (Hemplace index args Hi) as (w' & first & E & Hb & Hl).
    exists w', first. split; [done|]. split; [|done].
    destruct Ho as (_ & Hle & Hblk). destruct buf as [|b off]; simpl in *.
    + apply contents_nil_inv in Hblk as [-> _]; [|done]. simpl in Hi. lia.
    + lia.
  - intros value. apply (Hemplace index (CopyOf value) Hi).
  - intros value. apply (Hemplace index (MoveOf value) Hi).
  - destruct (Hemplace (length xs) args) as (w' & first & E & Hb & Hl); [done|].
    exists w', first. split; [|done].
    unfold EmplaceBack, cend.
    erewrite bind_ok by (apply end_ok, (owns_lookup _ _ _ _ _ Ho)).
    exact E.
  - intros Hlt.
    destruct (Erase_ok w this buf cap xs index Ho Hlt Hc)
      as (w' & E & Ho' & _).
    pose proof (owns_lookup _ _ _ _ _ Ho') as Hv.
    pose proof (length_deleted xs index Hlt) as Hlen.
    exists w'. split; [done|]. split; [by erewrite begin_ok by exact Hv|].
    split.
    { erewrite end_ok by exact Hv. simpl. do 3 f_equal. lia. }
    erewrite owns_read_slot; [|exact Ho'|].
    + f_equal. rewrite list_lookup_delete_ge by lia. done.
    + destruct Ho as (_ & Hle & _). lia.
Qed.

End Erase_and_iterators.

(** Erasing index 1 of [[1; 2; 3; 4]] yields [[1; 3; 4]] with [Size() == 3]
    and the capacity still 4. *)
Lemma Erase_closes_the_gap_witness :
  ∃ w' it,
    Erase 0 (Ptr 2 1) four_ints = (Ok it, w')
    ∧ owns w' 0 (Ptr 2 0) 4 [1; 3; 4]%Z
    ∧ Size 0 w' = (Ok 3, w')
    ∧ Capacity 0 w' = (Ok 4, w')
    ∧ begin 0 w' = (Ok (Ptr 2 0), w')
    ∧ constructed w' = constructed four_ints
    ∧ destroyed w' = S (destroyed four_ints)
    ∧ length (heap w') = length (heap four_ints).
Proof.
  apply (Erase_closes_the_gap four_ints 0 (Ptr 2 0) 4 [1; 2; 3; 4]%Z 1).
  - unfold owns. split; [vm_compute; reflexivity|].
    split; [simpl; lia|]. split; vm_compute; reflexivity.
  - simpl. lia.
  - reflexivity.
Defined.

Create HintDb store discriminated.

Section Store_facts.
Context {T : Type} `{!Elem T}.

Local Abbreviation World := (@World T).
Local Abbreviation M := (@M T).
Implicit Types (w : World) (xs ys : list T).

Lemma keeps_store_ret {A} (a : A) : keeps_store (ret (T:=T) a).
Proof. done. Qed.

Lemma keeps_store_undefined {A} : keeps_store (undefined (T:=T) (A:=A)).
Proof. done. Qed.

Lemma keeps_store_assert c : keeps_store (assert (T:=T) c).
Proof. by destruct c. Qed.

Lemma keeps_store_lift_option {A} (o : option A) :
  keeps_store (lift_option (T:=T) o).
Proof. by destruct o. Qed.

Lemma keeps_store_bind {A B} (m : M A) (f : A → M B) :
  keeps_store m → (∀ a, keeps_store (f a)) → keeps_store (x <- m;; f x).
Proof.
  intros Hm Hf w. unfold bind. specialize (Hm w).
  destruct (m w) as [[a| |] w1]; simpl in *; [|done..].
  by rewrite Hf.
Qed.

Lemma keeps_store_on_throw {A} (m : M A) handler :
  keeps_store m → keeps_store handler → keeps_store (on_throw m handler).
Proof.
  intros Hm Hh w. unfold on_throw. specialize (Hm w).
  destruct (m w) as [[a| |] w1]; simpl in *; [done| |done].
  specialize (Hh w1). destruct (handler w1) as [[?| |] w2]; simpl in *; congruence.
Qed.

Lemma keeps_store_if {A} (c : bool) (m1 m2 : M A) :
  keeps_store m1 → keeps_store m2 → keeps_store (if c then m1 else m2).
Proof. by destruct c. Qed.

Lemma keeps_store_operator_new n : keeps_store (operator_new (T:=T) n).
Proof. done. Qed.

Lemma keeps_store_operator_delete p : keeps_store (operator_delete (T:=T) p).
Proof.
  intros w. unfold operator_delete. by repeat case_match.
Qed.

Lemma keeps_store_load p : keeps_store (load (T:=T) p).
Proof. intros w. unfold load. by repeat case_match. Qed.

Lemma keeps_store_store p x : keeps_store (store (T:=T) p x).
Proof. intros w. unfold store. by repeat case_match. Qed.

Lemma keeps_store_place p x : keeps_store (place (T:=T) p x).
Proof. intros w. unfold place. by repeat case_match. Qed.

Lemma keeps_store_may_throw : keeps_store (may_throw (T:=T)).
Proof. intros w. unfold may_throw. by repeat case_match. Qed.

Lemma keeps_store_count_construction :
  keeps_store (count_construction (T:=T)).
Proof. done. Qed.

Lemma keeps_store_count_destruction :
  keeps_store (count_destruction (T:=T)).
Proof. done. Qed.

Lemma keeps_store_destroy_at p : keeps_store (destroy_at (T:=T) p).
Proof. intros w. unfold destroy_at. by repeat case_match. Qed.

End Store_facts.

#[export] Hint Resolve keeps_store_ret keeps_store_undefined keeps_store_assert
  keeps_store_lift_option keeps_store_on_throw keeps_store_if
  keeps_store_operator_new keeps_store_operator_delete keeps_store_load
  keeps_store_store keeps_store_place keeps_store_may_throw
  keeps_store_count_construction keeps_store_count_destruction
  keeps_store_destroy_at : store.

(** Goals [keeps_store m] for a call [m] composed of calls known to keep the
    store. *)
Ltac keeps :=
  repeat first
    [ progress eauto with store
    | apply keeps_store_bind; [|intros ?]
    | apply keeps_store_on_throw
    | match goal with
      | |- keeps_store (if ?c then _ else _) => destruct c
      | |- keeps_store (match ?a with _ => _ end) => destruct a
      end ].

Section Store_facts_algorithms.
Context {T : Type} `{!Elem T}.

Local Abbreviation World := (@World T).
Local Abbreviation M := (@M T).

Lemma keeps_store_T_construct a : keeps_store (T_construct (T:=T) a).
Proof. unfold T_construct. keeps. Qed.
Hint Resolve keeps_store_T_construct : store.

Lemma keeps_store_T_destroy x : keeps_store (T_destroy (T:=T) x).
Proof. unfold T_destroy. keeps. Qed.

Lemma keeps_store_construct_at p a : keeps_store (construct_at (T:=T) p a).
Proof. unfold construct_at. keeps. Qed.
Hint Resolve keeps_store_construct_at : store.

Lemma keeps_store_copy_construct_at p q :
  keeps_store (copy_construct_at (T:=T) p q).
Proof. unfold copy_construct_at. keeps. Qed.

Lemma keeps_store_move_construct_at p q :
  keeps_store (move_construct_at (T:=T) p q).
Proof. unfold move_construct_at. keeps. Qed.

Lemma keeps_store_value_construct_at p :
  keeps_store (value_construct_at (T:=T) p).
Proof. unfold value_construct_at. keeps. Qed.

Lemma keeps_store_copy_assign p q : keeps_store (copy_assign (T:=T) p q).
Proof. unfold copy_assign. keeps. Qed.

Lemma keeps_store_move_assign_from p x :
  keeps_store (move_assign_from (T:=T) p x).
Proof. unfold move_assign_from. keeps. Qed.
Hint Resolve keeps_store_move_assign_from : store.

Lemma keeps_store_move_assign p q : keeps_store (move_assign (T:=T) p q).
Proof. unfold move_assign. keeps. Qed.

Hint Resolve keeps_store_copy_construct_at keeps_store_move_construct_at
  keeps_store_value_construct_at keeps_store_copy_assign
  keeps_store_move_assign keeps_store_T_destroy : store.

Lemma keeps_store_destroy_n p n : keeps_store (destroy_n (T:=T) p n).
Proof. revert p. induction n; intros p; simpl; keeps. Qed.

Lemma keeps_store_uninitialized_copy_n p n q :
  keeps_store (uninitialized_copy_n (T:=T) p n q).
Proof. revert p q. induction n; intros p q; simpl; keeps. Qed.

Lemma keeps_store_uninitialized_move_n p n q :
  keeps_store (uninitialized_move_n (T:=T) p n q).
Proof. revert p q. induction n; intros p q; simpl; keeps. Qed.

Lemma keeps_store_uninitialized_value_construct_n p n :
  keeps_store (uninitialized_value_construct_n (T:=T) p n).
Proof. revert p. induction n; intros p; simpl; keeps. Qed.

Lemma keeps_store_copy_n p n q : keeps_store (copy_n (T:=T) p n q).
Proof. revert p q. induction n; intros p q; simpl; keeps. Qed.

Lemma keeps_store_move_n p n q : keeps_store (move_n (T:=T) p n q).
Proof. revert p q. induction n; intros p q; simpl; keeps. Qed.

Lemma keeps_store_move_backward_n p n q :
  keeps_store (move_backward_n (T:=T) p n q).
Proof. revert p q. induction n; intros p q; simpl; keeps. Qed.

Hint Resolve keeps_store_destroy_n keeps_store_uninitialized_copy_n
  keeps_store_uninitialized_move_n keeps_store_uninitialized_value_construct_n
  keeps_store_copy_n keeps_store_move_n keeps_store_move_backward_n : store.

Lemma keeps_store_range_size p q : keeps_store (range_size (T:=T) p q).
Proof. unfold range_size. keeps. Qed.
Hint Resolve keeps_store_range_size : store.

Lemma keeps_store_std_move p q r : keeps_store (std_move (T:=T) p q r).
Proof. unfold std_move. keeps. Qed.

Lemma keeps_store_move_backward p q r :
  keeps_store (move_backward (T:=T) p q r).
Proof. unfold move_backward. keeps. Qed.

Lemma keeps_store_RawMemory_ctor n : keeps_store (RawMemory_ctor (T:=T) n).
Proof. unfold RawMemory_ctor, Allocate. keeps. Qed.

Lemma keeps_store_RawMemory_dtor rm : keeps_store (RawMemory_dtor (T:=T) rm).
Proof. unfold RawMemory_dtor, Deallocate. keeps. Qed.

Lemma keeps_store_RawMemory_plus rm n :
  keeps_store (RawMemory_plus (T:=T) rm n).
Proof. unfold RawMemory_plus. keeps. Qed.

Lemma keeps_store_RawMemory_index rm n :
  keeps_store (RawMemory_index (T:=T) rm n).
Proof. unfold RawMemory_index. keeps. Qed.

Lemma keeps_store_RawMemory_move_assign a b :
  keeps_store (RawMemory_move_assign (T:=T) a b).
Proof. done. Qed.

Hint Resolve keeps_store_std_move keeps_store_move_backward
  keeps_store_RawMemory_ctor keeps_store_RawMemory_dtor
  keeps_store_RawMemory_plus keeps_store_RawMemory_index
  keeps_store_RawMemory_move_assign : store.

Lemma keeps_store_get_vec this : keeps_store (get_vec (T:=T) this).
Proof. intros w. unfold get_vec. by case_match. Qed.
Hint Resolve keeps_store_get_vec : store.

Lemma keeps_store_Size this : keeps_store (Size (T:=T) this).
Proof. unfold Size. keeps. Qed.

Lemma keeps_store_Capacity this : keeps_store (Capacity (T:=T) this).
Proof. unfold Capacity. keeps. Qed.

Lemma keeps_store_begin this : keeps_store (begin (T:=T) this).
Proof. unfold begin. keeps. Qed.

Lemma keeps_store_end this : keeps_store (end_ (T:=T) this).
Proof. unfold end_. keeps. Qed.

Hint Resolve keeps_store_Size keeps_store_Capacity keeps_store_begin
  keeps_store_end : store.

Lemma keeps_store_Vector_copy v : keeps_store (Vector_copy (T:=T) v).
Proof. unfold Vector_copy. keeps. Qed.

Lemma keeps_store_Vector_destroy v : keeps_store (Vector_destroy (T:=T) v).
Proof. unfold Vector_destroy. keeps. Qed.

Lemma keeps_store_EmplaceWithoutDataRelocation this pos index args :
  keeps_store (EmplaceWithoutDataRelocation (T:=T) this pos index args).
Proof. unfold EmplaceWithoutDataRelocation. keeps. Qed.

End Store_facts_algorithms.

#[export] Hint Resolve keeps_store_T_construct keeps_store_T_destroy
  keeps_store_construct_at keeps_store_copy_construct_at
  keeps_store_move_construct_at keeps_store_value_construct_at
  keeps_store_copy_assign keeps_store_move_assign_from keeps_store_move_assign
  keeps_store_destroy_n keeps_store_uninitialized_copy_n
  keeps_store_uninitialized_move_n keeps_store_uninitialized_value_construct_n
  keeps_store_copy_n keeps_store_move_n keeps_store_move_backward_n
  keeps_store_range_size keeps_store_std_move keeps_store_move_backward
  keeps_store_RawMemory_ctor keeps_store_RawMemory_dtor
  keeps_store_RawMemory_plus keeps_store_RawMemory_index
  keeps_store_RawMemory_move_assign keeps_store_get_vec keeps_store_Size
  keeps_store_Capacity keeps_store_begin keeps_store_end
  keeps_store_Vector_copy keeps_store_Vector_destroy
  keeps_store_EmplaceWithoutDataRelocation : store.

Section Store_post_facts.
Context {T : Type} `{!Elem T}.

Local Abbreviation World := (@World T).
Local Abbreviation M := (@M T).
Implicit Types (w : World) (vs : gmap nat Vector).

Lemma store_post_bind {A B} (m : M A) (f : A → M B) w Q :
  (∀ r w1, m w = (r, w1) →
     match r with
     | Ok a => store_post (f a) w1 Q
     | Throw => Q Throw (vecs w1)
     | Undefined => Q Undefined (vecs w1)
     end) →
  store_post (x <- m;; f x) w Q.
Proof.
  intros H. unfold store_post, bind.
  specialize (H (m w).1 (m w).2). destruct (m w) as [[a| |] w1]; by apply H.
Qed.

Lemma store_post_bind_keeps {A B} (m : M A) (f : A → M B) w Q :
  keeps_store m →
  (∀ a w1, vecs w1 = vecs w → store_post (f a) w1 Q) →
  Q Throw (vecs w) → Q Undefined (vecs w) →
  store_post (x <- m;; f x) w Q.
Proof.
  intros Hk Hf Ht Hu. apply store_post_bind. intros r w1 E.
  assert (Hw1 : vecs w1 = vecs w) by (by rewrite <- (Hk w), E).
  destruct r; rewrite ?Hw1; auto.
Qed.

Lemma store_post_bind_get_vec {B} this (f : Vector → M B) w Q :
  (∀ v, vecs w !! this = Some v → store_post (f v) w Q) →
  (vecs w !! this = None → Q Undefined (vecs w)) →
  store_post (v <- get_vec this;; f v) w Q.
Proof.
  intros Hs Hn. unfold store_post, bind, get_vec.
  destruct (vecs w !! this) as [v|] eqn:E; [by apply Hs|by apply Hn].
Qed.

Lemma store_post_bind_put_vec {B} this v (f : unit → M B) w Q :
  (∀ w1, vecs w1 = <[this := v]> (vecs w) → store_post (f tt) w1 Q) →
  store_post (x <- put_vec this v;; f x) w Q.
Proof. intros H. unfold store_post, bind, put_vec. by apply H. Qed.

Lemma store_post_put_vec this v w Q :
  Q (Ok tt) (<[this := v]> (vecs w)) → store_post (put_vec this v) w Q.
Proof. done. Qed.

Lemma store_post_bind_fresh_name {B} this (f : unit → M B) w Q :
  (vecs w !! this = None → store_post (f tt) w Q) →
  (∀ v, vecs w !! this = Some v → Q Undefined (vecs w)) →
  store_post (x <- fresh_name this;; f x) w Q.
Proof.
  intros Hn Hs. unfold store_post, bind, fresh_name.
  destruct (vecs w !! this) as [v|] eqn:E; [by eapply Hs|by apply Hn].
Qed.

Lemma store_post_ret {A} (a : A) w Q :
  Q (Ok a) (vecs w) → store_post (ret a) w Q.
Proof. done. Qed.

Lemma store_post_keeps {A} (m : M A) w Q :
  keeps_store m → (∀ r, Q r (vecs w)) → store_post m w Q.
Proof. intros Hk HQ. unfold store_post. rewrite Hk. apply HQ. Qed.

Lemma store_post_set_size this n w Q :
  (∀ v, vecs w !! this = Some v →
        Q (Ok tt) (<[this := {| data_ := data_ v; size_ := n |}]> (vecs w))) →
  (vecs w !! this = None → Q Undefined (vecs w)) →
  store_post (set_size this n) w Q.
Proof.
  intros Hs Hn. unfold set_size. apply store_post_bind_get_vec; [|done].
  intros v Hv. by apply store_post_put_vec, Hs.
Qed.

Lemma store_post_on_throw {A} (m : M A) handler w Q :
  keeps_store handler →
  store_post m w (λ r vs,
    match r with
    | Throw => Q Throw vs ∧ Q Undefined vs
    | _ => Q r vs
    end) →
  store_post (on_throw m handler) w Q.
Proof.
  intros Hk. unfold store_post, on_throw.
  destruct (m w) as [[a| |] w1]; simpl; [done| |done].
  intros [Ht Hu]. specialize (Hk w1).
  destruct (handler w1) as [[?| |] w2]; simpl in *; by rewrite Hk.
Qed.

Lemma store_post_mono {A} (m : M A) w (Q Q' : Res A → gmap nat Vector → Prop) :
  store_post m w Q → (∀ r vs, Q r vs → Q' r vs) → store_post m w Q'.
Proof. unfold store_post. auto. Qed.

Lemma store_post_bind_Size {B} this (f : nat → M B) w Q :
  (∀ v, vecs w !! this = Some v → store_post (f (size_ v)) w Q) →
  (vecs w !! this = None → Q Undefined (vecs w)) →
  store_post (n <- Size this;; f n) w Q.
Proof.
  intros Hs Hn. unfold store_post.
  destruct (vecs w !! this) as [v|] eqn:E.
  - rewrite (bind_ok _ _ _ _ _ (Size_ok _ _ _ E)). by apply Hs.
  - unfold Size. unfold bind, get_vec. rewrite E. by apply Hn.
Qed.

Lemma store_post_bind_Capacity {B} this (f : nat → M B) w Q :
  (∀ v, vecs w !! this = Some v → store_post (f (capacity_ (data_ v))) w Q) →
  (vecs w !! this = None → Q Undefined (vecs w)) →
  store_post (n <- Capacity this;; f n) w Q.
Proof.
  intros Hs Hn. unfold store_post.
  destruct (vecs w !! this) as [v|] eqn:E.
  - rewrite (bind_ok _ _ _ _ _ (Capacity_ok _ _ _ E)). by apply Hs.
  - unfold Capacity. unfold bind, get_vec. rewrite E. by apply Hn.
Qed.

Lemma store_post_bind_begin {B} this (f : ptr → M B) w Q :
  (∀ v, vecs w !! this = Some v → store_post (f (buffer_ (data_ v))) w Q) →
  (vecs w !! this = None → Q Undefined (vecs w)) →
  store_post (p <- begin this;; f p) w Q.
Proof.
  intros Hs Hn. unfold store_post.
  destruct (vecs w !! this) as [v|] eqn:E.
  - rewrite (bind_ok _ _ _ _ _ (begin_ok _ _ _ E)). by apply Hs.
  - unfold begin. unfold bind, get_vec. rewrite E. by apply Hn.
Qed.

Lemma store_post_bind_end {B} this (f : ptr → M B) w Q :
  (∀ v, vecs w !! this = Some v →
        store_post (f (ptr_add (buffer_ (data_ v)) (size_ v))) w Q) →
  (vecs w !! this = None → Q Undefined (vecs w)) →
  store_post (p <- end_ this;; f p) w Q.
Proof.
  intros Hs Hn. unfold store_post.
  destruct (vecs w !! this) as [v|] eqn:E.
  - rewrite (bind_ok _ _ _ _ _ (end_ok _ _ _ E)). by apply Hs.
  - unfold end_. unfold bind, get_vec. rewrite E. by apply Hn.
Qed.

Lemma store_post_bind_RawMemory_ctor {B} n (f : RawMemory → M B) w Q :
  (∀ buf w1, vecs w1 = vecs w →
     store_post (f {| buffer_ := buf; capacity_ := n |}) w1 Q) →
  store_post (rm <- RawMemory_ctor n;; f rm) w Q.
Proof.
  intros H. unfold store_post, bind, RawMemory_ctor, Allocate, operator_new, ret.
  destruct (negb (n =? 0)); by apply H.
Qed.

Lemma store_post_data_Swap this new_data w Q :
  (∀ v, vecs w !! this = Some v →
     Q (Ok (data_ v))
       (<[this := {| data_ := new_data; size_ := size_ v |}]> (vecs w))) →
  (vecs w !! this = None → Q Undefined (vecs w)) →
  store_post (data_Swap this new_data) w Q.
Proof.
  intros Hs Hn. unfold store_post.
  destruct (vecs w !! this) as [v|] eqn:E.
  - rewrite (data_Swap_ok _ _ _ _ E). by apply Hs.
  - unfold data_Swap, bind, get_vec. rewrite E. by apply Hn.
Qed.

(** What [Reserve] does to the store: nothing, or the vector gets storage
    of the requested capacity. *)
Lemma Reserve_store this n w :
  store_post (Reserve this n) w (λ r vs,
    (vs = vecs w
     ∧ (r = Ok tt → ∃ v, vecs w !! this = Some v ∧ n ≤ capacity_ (data_ v)))
    ∨ (∃ v buf, vecs w !! this = Some v ∧ capacity_ (data_ v) < n
        ∧ vs = <[this := {| data_ := {| buffer_ := buf; capacity_ := n |};
                            size_ := size_ v |}]> (vecs w))).
Proof.
  unfold Reserve.
  apply store_post_bind_Capacity; [|by left].
  intros v Hv.
  destruct (n <=? capacity_ (data_ v)) eqn:Hn.
  { apply store_post_ret. left. split; [done|]. intros _. exists v.
    split; [done|]. by apply Nat.leb_le. }
  apply Nat.leb_gt in Hn.
  apply store_post_bind_RawMemory_ctor. intros buf w1 Hw1.
  set (Q := λ (r : Res unit) (vs : gmap nat Vector),
    (vs = vecs w ∧ (r = Ok tt → False))
    ∨ vs = <[this := {| data_ := {| buffer_ := buf; capacity_ := n |};
                        size_ := size_ v |}]> (vecs w)).
  eapply (store_post_mono _ _ Q).
  2:{ intros r vs [[-> Hr]| ->]; [left|right; eauto]. split; [done|].
      intros Hok. by destruct Hr. }
  apply store_post_bind. intros r w2 E.
  assert (Hbody : store_post
    (on_throw
       (first <- begin this;; size <- Size this;;
        (if is_nothrow_move_constructible || negb is_copy_constructible
         then uninitialized_move_n first size
                (GetAddress {| buffer_ := buf; capacity_ := n |})
         else uninitialized_copy_n first size
                (GetAddress {| buffer_ := buf; capacity_ := n |}));;
        destroy_n first size;;
        data_Swap this {| buffer_ := buf; capacity_ := n |})
       (RawMemory_dtor {| buffer_ := buf; capacity_ := n |})) w1
    (λ r vs,
       match r with
       | Ok old => vs = <[this := {| data_ := {| buffer_ := buf;
                                                  capacity_ := n |};
                                      size_ := size_ v |}]> (vecs w)
       | _ => vs = vecs w
       end)).
  { apply store_post_on_throw; [keeps|].
    apply store_post_bind_begin; [|intros; by rewrite Hw1].
    intros v1 Hv1. rewrite Hw1, Hv in Hv1. injection Hv1 as <-.
    apply store_post_bind_Size; [|intros; by rewrite Hw1].
    intros v1 Hv1. rewrite Hw1, Hv in Hv1. injection Hv1 as <-.
    apply store_post_bind_keeps; [keeps| |by rewrite Hw1|by rewrite Hw1].
    intros _ w3 Hw3.
    apply store_post_bind_keeps;
      [keeps| |by rewrite Hw3, Hw1|by rewrite Hw3, Hw1].
    intros _ w4 Hw4.
    apply store_post_data_Swap; rewrite Hw4, Hw3, Hw1; [|congruence].
    intros v1 Hv1. rewrite Hv in Hv1. by injection Hv1 as <-. }
  unfold store_post in Hbody. rewrite E in Hbody. simpl in Hbody.
  destruct r as [old| |]; subst Q; simpl.
  - apply store_post_keeps; [keeps|]. intros r. right. done.
  - left. done.
  - left. done.
Qed.

End Store_post_facts.

Section Invariant_facts.
Context {T : Type} `{!Elem T}.

Local Abbreviation World := (@World T).
Local Abbreviation M := (@M T).
Implicit Types (w : World) (vs : gmap nat Vector).

Lemma sizes_fit_insert vs this v :
  sizes_fit vs → size_ v ≤ capacity_ (data_ v) →
  sizes_fit (<[this := v]> vs).
Proof.
  intros Hfit Hv that v'. rewrite lookup_insert.
  case_decide; [by intros [= <-]|by apply Hfit].
Qed.

Lemma sizes_fit_delete vs this : sizes_fit vs → sizes_fit (delete this vs).
Proof.
  intros Hfit that v'. rewrite lookup_delete.
  case_decide; [done|by apply Hfit].
Qed.

Lemma capacity_kept_refl vs : capacity_kept vs vs.
Proof. intros this v v' Hv Hv'. by simplify_eq. Qed.

Lemma capacity_kept_insert vs this v :
  (∀ v0, vs !! this = Some v0 → capacity_ (data_ v0) ≤ capacity_ (data_ v)) →
  capacity_kept vs (<[this := v]> vs).
Proof.
  intros Hv that v0 v'. rewrite lookup_insert.
  case_decide as Heq.
  - subst that. intros Hv0 [= <-]. by apply Hv.
  - intros Hv0 Hv'. by simplify_eq.
Qed.

Lemma capacity_kept_delete vs this : capacity_kept vs (delete this vs).
Proof.
  intros that v v'. rewrite lookup_delete.
  case_decide; [done|]. intros Hv Hv'. by simplify_eq.
Qed.

Lemma grown_gt n : n < grown n.
Proof. unfold grown. destruct n; simpl; lia. Qed.

(** What [EmplaceWithDataRelocation] does to the store: nothing when it
    does not return, and otherwise the vector gets storage of the grown
    capacity. *)
Lemma EmplaceWithDataRelocation_store this pos index args w :
  store_post (EmplaceWithDataRelocation this pos index args) w (λ r vs,
    (vs = vecs w ∧ r ≠ Ok tt)
    ∨ (∃ v buf, vecs w !! this = Some v
        ∧ vs = <[this := {| data_ := {| buffer_ := buf;
                                        capacity_ := grown (size_ v) |};
                            size_ := size_ v |}]> (vecs w))).
Proof.
  unfold EmplaceWithDataRelocation.
  apply store_post_bind_Size; [|by left].
  intros v Hv. fold (grown (size_ v)).
  apply store_post_bind_RawMemory_ctor. intros buf w1 Hw1.
  set (nd := {| buffer_ := buf; capacity_ := grown (size_ v) |}).
  apply store_post_bind. intros r w2 E.
  match type of E with
  | on_throw ?body ?h w1 = _ =>
      assert (Hbody : store_post (on_throw body h) w1 (λ r vs,
        match r with
        | Ok old => vs = <[this := {| data_ := nd; size_ := size_ v |}]> (vecs w)
        | _ => vs = vecs w
        end))
  end.
  { apply store_post_on_throw; [keeps|].
    apply store_post_bind_keeps; [keeps| |by rewrite Hw1|by rewrite Hw1].
    intros slot w3 Hw3.
    apply store_post_bind_keeps;
      [keeps| |by rewrite Hw3, Hw1|by rewrite Hw3, Hw1].
    intros _ w4 Hw4.
    apply store_post_bind_begin; [|intros; by rewrite Hw4, Hw3, Hw1].
    intros v1 _.
    apply store_post_bind_keeps;
      [keeps| |by rewrite Hw4, Hw3, Hw1|by rewrite Hw4, Hw3, Hw1].
    intros _ w5 Hw5.
    apply store_post_bind_keeps;
      [keeps| |by rewrite Hw5, Hw4, Hw3, Hw1|by rewrite Hw5, Hw4, Hw3, Hw1].
    intros _ w6 Hw6.
    apply store_post_data_Swap; rewrite Hw6, Hw5, Hw4, Hw3, Hw1; [|congruence].
    intros v2 Hv2. rewrite Hv in Hv2. by injection Hv2 as <-. }
  unfold store_post in Hbody. rewrite E in Hbody. simpl in Hbody.
  destruct r as [old| |]; simpl.
  - apply store_post_keeps; [keeps|]. intros r. right. eauto.
  - left. done.
  - left. done.
Qed.

End Invariant_facts.

Section Invariant.
Context {T : Type} `{!Elem T}.

Local Abbreviation World := (@World T).
Local Abbreviation M := (@M T).
Implicit Types (w : World) (vs : gmap nat Vector).

Lemma good_refl vs : sizes_fit vs → good vs vs.
Proof. intros Hfit. split; [done|apply capacity_kept_refl]. Qed.

Lemma good_insert vs this v :
  sizes_fit vs → size_ v ≤ capacity_ (data_ v) →
  (∀ u, vs !! this = Some u → capacity_ (data_ u) ≤ capacity_ (data_ v)) →
  good vs (<[this := v]> vs).
Proof.
  intros Hfit Hv Hcap. split; [by apply sizes_fit_insert|].
  by apply capacity_kept_insert.
Qed.

Lemma store_post_bind_set_size {B} this n (f : unit → M B) w Q :
  (∀ v w1, vecs w !! this = Some v →
     vecs w1 = <[this := {| data_ := data_ v; size_ := n |}]> (vecs w) →
     store_post (f tt) w1 Q) →
  (vecs w !! this = None → Q Undefined (vecs w)) →
  store_post (x <- set_size this n;; f x) w Q.
Proof.
  intros Hs Hn. unfold store_post.
  destruct (vecs w !! this) as [v|] eqn:E.
  - rewrite (bind_ok _ _ _ _ _ (set_size_ok _ _ _ n E)). by eapply Hs.
  - unfold set_size. unfold bind, get_vec. rewrite E. by apply Hn.
Qed.

Lemma Emplace_good this pos args w :
  sizes_fit (vecs w) →
  store_post (Emplace this pos args) w (λ _ vs', good (vecs w) vs').
Proof.
  intros Hfit. pose proof (good_refl _ Hfit) as Hsame. unfold Emplace.
  apply store_post_bind_begin; [|done]. intros v Hv.
  apply store_post_bind_end; [|done]. intros v' Hv'.
  rewrite Hv in Hv'. injection Hv' as <-.
  apply store_post_bind_keeps; [keeps| |done|done]. intros ? w1 Hw1.
  apply store_post_bind_Size; [|by rewrite Hw1]. intros v' Hv'.
  rewrite Hw1, Hv in Hv'. injection Hv' as <-.
  apply store_post_bind_Capacity; [|by rewrite Hw1]. intros v' Hv'.
  rewrite Hw1, Hv in Hv'. injection Hv' as <-.
  pose proof (Hfit _ _ Hv) as Hle.
  pose proof (grown_gt (size_ v)) as Hgt.
  assert (Hput : ∀ d n, n ≤ capacity_ d →
    capacity_ (data_ v) ≤ capacity_ d →
    good (vecs w) (<[this := {| data_ := d; size_ := n |}]> (vecs w))).
  { intros d n Hn Hd. apply good_insert; [done|done|].
    intros u Hu. rewrite Hv in Hu. by injection Hu as <-. }
  destruct (size_ v =? capacity_ (data_ v)) eqn:Hfull.
  - apply Nat.eqb_eq in Hfull.
    apply store_post_bind. intros r w2 E.
    pose proof (EmplaceWithDataRelocation_store this pos
                  (distance (buffer_ (data_ v)) pos) args w1) as Hst.
    unfold store_post in Hst. rewrite E in Hst. simpl in Hst.
    rewrite Hw1 in Hst.
    destruct Hst as [[Hvs Hr]|(u & buf & Hu & Hvs)].
    { destruct r as [[]| |]; [done|by rewrite Hvs..]. }
    rewrite Hv in Hu. injection Hu as <-.
    assert (Hg : good (vecs w) (vecs w2))
      by (rewrite Hvs; apply Hput; simpl; lia).
    destruct r as [[]| |]; [|done..].
    apply store_post_bind_Size; [|done].
    intros v1 Hv1. rewrite Hvs, lookup_insert_eq in Hv1. injection Hv1 as <-.
    apply store_post_bind_set_size; [|done].
    intros v1 w3 Hv1 Hw3.
    rewrite Hvs, lookup_insert_eq in Hv1. injection Hv1 as <-.
    rewrite Hvs, insert_insert_eq in Hw3. simpl in Hw3.
    apply store_post_keeps; [keeps|]. intros _. rewrite Hw3.
    apply Hput; simpl; lia.
  - apply Nat.eqb_neq in Hfull.
    apply store_post_bind_keeps; [keeps| |by rewrite Hw1..].
    intros ? w2 Hw2.
    apply store_post_bind_Size; [|by rewrite Hw2, Hw1].
    intros v1 Hv1. rewrite Hw2, Hw1, Hv in Hv1. injection Hv1 as <-.
    apply store_post_bind_set_size; [|by rewrite Hw2, Hw1].
    intros v1 w3 Hv1 Hw3.
    rewrite Hw2, Hw1 in Hv1, Hw3. rewrite Hv in Hv1. injection Hv1 as <-.
    apply store_post_keeps; [keeps|]. intros _. rewrite Hw3.
    apply Hput; lia.
Qed.


Lemma Vector_copy_shape (o : Vector) w r w1 :
  Vector_copy o w = (r, w1) →
  vecs w1 = vecs w
  ∧ ∀ v, r = Ok v → size_ v = size_ o ∧ capacity_ (data_ v) = size_ o.
Proof.
  intros E. split.
  { pose proof (keeps_store_Vector_copy o w) as Hk. by rewrite E in Hk. }
  intros v ->. revert E. unfold Vector_copy, RawMemory_ctor.
  unfold bind at 1 2. destruct (Allocate (size_ o) w) as [[buf| |] w0]; [|done..].
  unfold ret at 1. unfold bind at 1.
  destruct (on_throw _ _ w0) as [[[]| |] w2]; [|done..].
  unfold ret. by intros [= <- <-].
Qed.

Lemma Vector_ctor_good this w :
  sizes_fit (vecs w) →
  store_post (Vector_ctor this) w (λ _ vs', good (vecs w) vs').
Proof.
  intros Hfit. pose proof (good_refl _ Hfit) as Hsame. unfold Vector_ctor.
  apply store_post_bind_fresh_name; [|done]. intros Hnone.
  apply store_post_put_vec, good_insert; [done|simpl; lia|].
  intros u Hu. congruence.
Qed.

Lemma Vector_ctor_size_good this size w :
  sizes_fit (vecs w) →
  store_post (Vector_ctor_size this size) w (λ _ vs', good (vecs w) vs').
Proof.
  intros Hfit. pose proof (good_refl _ Hfit) as Hsame. unfold Vector_ctor_size.
  apply store_post_bind_fresh_name; [|done]. intros Hnone.
  apply store_post_bind_RawMemory_ctor. intros buf w1 Hw1.
  apply store_post_bind_keeps; [keeps| |by rewrite Hw1..].
  intros ? w2 Hw2. apply store_post_put_vec. rewrite Hw2, Hw1.
  apply good_insert; [done|simpl; lia|]. intros u Hu. congruence.
Qed.

Lemma Vector_copy_ctor_good this other w :
  sizes_fit (vecs w) →
  store_post (Vector_copy_ctor this other) w (λ _ vs', good (vecs w) vs').
Proof.
  intros Hfit. pose proof (good_refl _ Hfit) as Hsame. unfold Vector_copy_ctor.
  apply store_post_bind_fresh_name; [|done]. intros Hnone.
  apply store_post_bind_get_vec; [|done]. intros o Ho.
  apply store_post_bind. intros r w1 E.
  destruct (Vector_copy_shape _ _ _ _ E) as [Hw1 Hshape].
  destruct r as [v| |]; [|by rewrite Hw1..].
  destruct (Hshape v eq_refl) as [Hs Hc].
  apply store_post_put_vec. rewrite Hw1.
  apply good_insert; [done|lia|]. intros u Hu. congruence.
Qed.

Lemma Vector_dtor_good this w :
  sizes_fit (vecs w) →
  store_post (Vector_dtor this) w (λ _ vs', good (vecs w) vs').
Proof.
  intros Hfit. pose proof (good_refl _ Hfit) as Hsame. unfold Vector_dtor.
  apply store_post_bind_get_vec; [|done]. intros v Hv.
  apply store_post_bind_keeps; [keeps| |done..].
  intros ? w1 Hw1. unfold store_post, drop_vec. simpl. rewrite Hw1.
  split; [by apply sizes_fit_delete|apply capacity_kept_delete].
Qed.

Lemma Vector_copy_assign_good this rhs w :
  sizes_fit (vecs w) →
  store_post (Vector_copy_assign this rhs) w (λ _ vs', good (vecs w) vs').
Proof.
  intros Hfit. pose proof (good_refl _ Hfit) as Hsame.
  unfold Vector_copy_assign. case_decide; [|done].
  apply store_post_bind_Size; [|done]. intros r Hr.
  apply store_post_bind_Capacity; [|done]. intros t Ht.
  assert (Hput : ∀ d n, n ≤ capacity_ d →
    capacity_ (data_ t) ≤ capacity_ d →
    good (vecs w) (<[this := {| data_ := d; size_ := n |}]> (vecs w))).
  { intros d n Hn Hd. apply good_insert; [done|done|].
    intros u Hu. rewrite Ht in Hu. by injection Hu as <-. }
  unfold RawMemory_Capacity.
  destruct (capacity_ (data_ t) <? size_ r) eqn:Hcap.
  - apply Nat.ltb_lt in Hcap.
    apply store_post_bind_get_vec; [|done]. intros r' Hr'.
    rewrite Hr in Hr'. injection Hr' as <-.
    apply store_post_bind. intros res w1 E.
    destruct (Vector_copy_shape _ _ _ _ E) as [Hw1 Hshape].
    destruct res as [c| |]; [|by rewrite Hw1..].
    destruct (Hshape c eq_refl) as [Hs Hc].
    apply store_post_bind. intros res w2 E2.
    assert (Hw1t : vecs w1 !! this = Some t) by (by rewrite Hw1).
    rewrite (Swap_local_ok _ _ _ _ Hw1t) in E2. injection E2 as <- <-.
    apply store_post_keeps; [keeps|]. intros _. simpl. rewrite Hw1.
    destruct c as [d n]. simpl in *. apply Hput; lia.
  - apply Nat.ltb_ge in Hcap.
    apply store_post_bind_Size; [|done]. intros t' Ht'.
    rewrite Ht in Ht'. injection Ht' as <-.
    apply store_post_bind_begin; [|done]. intros ? _.
    apply store_post_bind_begin; [|done]. intros ? _.
    apply store_post_bind_keeps; [keeps| |done..]. intros ? w1 Hw1.
    apply store_post_bind_keeps; [keeps| |by rewrite Hw1..]. intros ? w2 Hw2.
    apply store_post_set_size; rewrite Hw2, Hw1; [|done].
    intros t' Ht'. rewrite Ht in Ht'. injection Ht' as <-.
    apply Hput; lia.
Qed.

Lemma Reserve_good this n w :
  sizes_fit (vecs w) →
  store_post (Reserve this n) w (λ _ vs', good (vecs w) vs').
Proof.
  intros Hfit. eapply store_post_mono; [apply Reserve_store|].
  intros r vs [[-> _]|(v & buf & Hv & Hn & ->)]; [by apply good_refl|].
  pose proof (Hfit _ _ Hv). apply good_insert; [done|simpl; lia|].
  intros u Hu. rewrite Hv in Hu. injection Hu as <-. simpl. lia.
Qed.

Lemma Resize_good this new_size w :
  sizes_fit (vecs w) →
  store_post (Resize this new_size) w (λ _ vs', good (vecs w) vs').
Proof.
  intros Hfit. pose proof (good_refl _ Hfit) as Hsame. unfold Resize.
  apply store_post_bind_Size; [|done]. intros v Hv.
  pose proof (Hfit _ _ Hv) as Hle.
  eapply store_post_bind. intros r w1 E.
  assert (Hmid :
    ∃ v1, vecs w1 !! this = Some v1 ∧ good (vecs w) (vecs w1)
       ∧ capacity_ (data_ v) ≤ capacity_ (data_ v1)
       ∧ (∀ d n, n ≤ capacity_ d → capacity_ (data_ v1) ≤ capacity_ d →
            good (vecs w) (<[this := {| data_ := d; size_ := n |}]> (vecs w1)))
       ∧ (r = Ok tt → new_size ≤ capacity_ (data_ v1))).
  { destruct (size_ v <? new_size) eqn:Hgrow.
    - apply Nat.ltb_lt in Hgrow. revert E.
      unfold bind at 1.
      pose proof (Reserve_store this new_size w) as Hst.
      unfold store_post in Hst.
      destruct (Reserve this new_size w) as [res w0]. simpl in Hst.
      assert (Hw0 : ∃ v1, vecs w0 !! this = Some v1 ∧ good (vecs w) (vecs w0)
        ∧ capacity_ (data_ v) ≤ capacity_ (data_ v1)
        ∧ (∀ d n, n ≤ capacity_ d → capacity_ (data_ v1) ≤ capacity_ d →
            good (vecs w) (<[this := {| data_ := d; size_ := n |}]> (vecs w0)))
        ∧ (res = Ok tt → new_size ≤ capacity_ (data_ v1))).
      { destruct Hst as [[Hvs Hok]|(u & buf & Hu & Hn & Hvs)].
        - exists v. rewrite Hvs. split; [done|]. split; [done|].
          split; [done|]. split.
          + intros d n Hn Hd. apply good_insert; [done|done|].
            intros u Hu. rewrite Hv in Hu. by injection Hu as <-.
          + intros Hres. destruct (Hok Hres) as (u & Hu & Hn).
            rewrite Hv in Hu. by injection Hu as <-.
        - rewrite Hv in Hu. injection Hu as <-.
          eexists. rewrite Hvs, lookup_insert_eq. split; [done|].
          split; [|split; [simpl; lia|split]].
          + apply good_insert; [done|simpl; lia|].
            intros u Hu. rewrite Hv in Hu. injection Hu as <-. simpl. lia.
          + intros d k Hk Hd. rewrite insert_insert_eq. simpl in Hd.
            apply good_insert; [done|done|].
            intros u Hu. rewrite Hv in Hu. injection Hu as <-. simpl. lia.
          + simpl. lia. }
      destruct Hw0 as (v1 & Hv1 & Hg & Hc & Hput & Hok).
      destruct res as [[]| |]; [|intros [= <- <-]; exists v1; split_and!; done..].
      unfold bind at 1, get_vec. rewrite Hv1.
      intros E.
      pose proof (keeps_store_uninitialized_value_construct_n
                    (ptr_add (GetAddress (data_ v1)) (size_ v1))
                    (new_size - size_ v1) w0) as Hk.
      rewrite E in Hk. simpl in Hk. exists v1. rewrite Hk. split_and!; auto.
    - apply Nat.ltb_ge in Hgrow. revert E.
      unfold bind at 1, get_vec. rewrite Hv. intros E.
      pose proof (keeps_store_destroy_n
                    (ptr_add (GetAddress (data_ v)) new_size)
                    (size_ v - new_size) w) as Hk.
      rewrite E in Hk. simpl in Hk. exists v. rewrite Hk. split_and!; auto.
      + intros d n Hn Hd. apply good_insert; [done|done|].
        intros u Hu. rewrite Hv in Hu. by injection Hu as <-.
      + intros _. lia. }
  destruct Hmid as (v1 & Hv1 & Hg & Hc & Hput & Hok).
  destruct r as [[]| |]; [|done..].
  apply store_post_set_size; [|congruence].
  intros v2 Hv2. rewrite Hv1 in Hv2. injection Hv2 as <-.
  apply Hput; [by apply Hok|done].
Qed.

Lemma PopBack_good this w :
  sizes_fit (vecs w) →
  store_post (PopBack this) w (λ _ vs', good (vecs w) vs').
Proof.
  intros Hfit. pose proof (good_refl _ Hfit) as Hsame. unfold PopBack.
  apply store_post_bind_Size; [|done]. intros v Hv.
  pose proof (Hfit _ _ Hv) as Hle.
  destruct (0 <? size_ v); [|done].
  apply store_post_bind_end; [|done]. intros ? _.
  apply store_post_bind_keeps; [keeps| |done..]. intros ? w1 Hw1.
  apply store_post_bind_keeps; [keeps| |by rewrite Hw1..]. intros ? w2 Hw2.
  apply store_post_set_size; rewrite Hw2, Hw1; [|done].
  intros v' Hv'. rewrite Hv in Hv'. injection Hv' as <-.
  apply good_insert; [done|simpl; lia|].
  intros u Hu. rewrite Hv in Hu. by injection Hu as <-.
Qed.

Lemma Erase_good this pos w :
  sizes_fit (vecs w) →
  store_post (Erase this pos) w (λ _ vs', good (vecs w) vs').
Proof.
  intros Hfit. pose proof (good_refl _ Hfit) as Hsame. unfold Erase.
  apply store_post_bind_begin; [|done]. intros v Hv.
  pose proof (Hfit _ _ Hv) as Hle.
  apply store_post_bind_end; [|done]. intros ? _.
  apply store_post_bind_keeps; [keeps| |done..]. intros ? w1 Hw1.
  apply store_post_bind_keeps; [keeps| |by rewrite Hw1..]. intros ? w2 Hw2.
  apply store_post_bind_keeps; [keeps| |by rewrite Hw2, Hw1..].
  intros ? w3 Hw3.
  apply store_post_bind_keeps; [keeps| |by rewrite Hw3, Hw2, Hw1..].
  intros ? w4 Hw4.
  apply store_post_bind_Size; [|by rewrite Hw4, Hw3, Hw2, Hw1].
  intros v' Hv'. rewrite Hw4, Hw3, Hw2, Hw1, Hv in Hv'. injection Hv' as <-.
  apply store_post_bind_set_size; [|by rewrite Hw4, Hw3, Hw2, Hw1].
  intros v' w5 Hv' Hw5. rewrite Hw4, Hw3, Hw2, Hw1 in Hv', Hw5.
  rewrite Hv in Hv'. injection Hv' as <-.
  apply store_post_keeps; [keeps|]. intros _. rewrite Hw5.
  apply good_insert; [done|simpl; lia|].
  intros u Hu. rewrite Hv in Hu. by injection Hu as <-.
Qed.

(** The operations that hand over buffers keep [Size() <= Capacity()]. *)
Lemma Vector_move_ctor_fits this other w :
  sizes_fit (vecs w) →
  store_post (Vector_move_ctor this other) w (λ _ vs', sizes_fit vs').
Proof.
  intros Hfit. unfold Vector_move_ctor.
  apply store_post_bind_fresh_name; [|done]. intros Hnone.
  apply store_post_bind_get_vec; [|done]. intros o Ho.
  pose proof (Hfit _ _ Ho) as Hle.
  unfold RawMemory_move_assign. unfold bind at 1. unfold ret at 1. simpl.
  apply store_post_bind_put_vec. intros w1 Hw1.
  apply store_post_put_vec. rewrite Hw1.
  apply sizes_fit_insert; [|done].
  apply sizes_fit_insert; [done|simpl; lia].
Qed.

Lemma Vector_move_assign_fits this rhs w :
  sizes_fit (vecs w) →
  store_post (Vector_move_assign this rhs) w (λ _ vs', sizes_fit vs').
Proof.
  intros Hfit. unfold Vector_move_assign.
  apply store_post_bind_get_vec; [|done]. intros t Ht.
  apply store_post_bind_get_vec; [|done]. intros r Hr.
  pose proof (Hfit _ _ Ht) as Hlet. pose proof (Hfit _ _ Hr) as Hler.
  unfold RawMemory_move_assign. unfold bind at 1. unfold ret at 1. simpl.
  unfold store_post.
  rewrite (bind_ok _ _ _ _ _ (set_data_ok _ _ _ _ Hr)).
  destruct (decide (this = rhs)) as [->|Hne].
  - erewrite bind_ok by (apply set_data_ok; simpl; apply lookup_insert_eq).
    erewrite bind_ok by (apply get_vec_ok; simpl; apply lookup_insert_eq).
    erewrite bind_ok by (apply set_size_ok; simpl; apply lookup_insert_eq).
    erewrite set_size_ok by (simpl; apply lookup_insert_eq).
    simpl. rewrite !insert_insert_eq. apply sizes_fit_insert; [done|simpl; lia].
  - erewrite bind_ok
      by (apply set_data_ok; simpl; rewrite lookup_insert_ne by done; exact Ht).
    erewrite bind_ok
      by (apply get_vec_ok; simpl; rewrite lookup_insert_ne by done;
          apply lookup_insert_eq).
    erewrite bind_ok
      by (apply set_size_ok; simpl; rewrite lookup_insert_ne by done;
          apply lookup_insert_eq).
    erewrite set_size_ok
      by (simpl; rewrite lookup_insert_ne by done; apply lookup_insert_eq).
    simpl. rewrite (insert_insert_ne _ rhs this) by done.
    rewrite !insert_insert_eq.
    repeat (apply sizes_fit_insert; simpl; try lia). done.
Qed.

Lemma Swap_fits this other w :
  sizes_fit (vecs w) →
  store_post (Swap this other) w (λ _ vs', sizes_fit vs').
Proof.
  intros Hfit. unfold Swap.
  apply store_post_bind_get_vec; [|done]. intros t Ht.
  apply store_post_bind_get_vec; [|done]. intros o Ho.
  pose proof (Hfit _ _ Ht) as Hlet. pose proof (Hfit _ _ Ho) as Hleo.
  apply store_post_bind_put_vec. intros w1 Hw1.
  apply store_post_put_vec. rewrite Hw1. simpl.
  repeat (apply sizes_fit_insert; simpl; try lia). done.
Qed.

End Invariant.

Section Claims.
Context {T : Type} `{!Elem T}.

Local Abbreviation World := (@World T).
Local Abbreviation M := (@M T).
Implicit Types (w : World) (xs ys : list T).

(** C8, as amended: every operation keeps [Size() <= Capacity()] for every
    vector, whatever its outcome; and no operation lowers the [Capacity()]
    of a vector, except the three that hand over or exchange whole buffers
    (move construction, move assignment and [Swap]).  Copy assignment, also
    through copy-and-swap, never lowers it. *)
Theorem operations_keep_size_le_capacity (op : Op) w :
  size_le_capacity w →
  size_le_capacity (run_op op w).2
  ∧ (transfers_buffer op = false →
     capacity_kept (vecs w) (vecs (run_op op w).2)).
Proof.
  intros Hfit. unfold size_le_capacity in *.
  assert (Hgood : ∀ m : M unit,
    store_post m w (λ _ vs', good (vecs w) vs') →
    sizes_fit (vecs (m w).2)
    ∧ (transfers_buffer op = false → capacity_kept (vecs w) (vecs (m w).2))).
  { intros m [Hs Hk]. split; [done|]. by intros _. }
  assert (Hptr : ∀ m : M ptr,
    store_post m w (λ _ vs', good (vecs w) vs') →
    store_post (m;; ret tt) w (λ _ vs', good (vecs w) vs')).
  { intros m Hm. apply store_post_bind. intros r w1 E.
    unfold store_post in Hm. rewrite E in Hm. by destruct r. }
  destruct op; simpl.
  - apply Hgood, Vector_ctor_good, Hfit.
  - apply Hgood, Vector_ctor_size_good, Hfit.
  - apply Hgood, Vector_copy_ctor_good, Hfit.
  - split; [by apply Vector_move_ctor_fits|done].
  - apply Hgood, Vector_dtor_good, Hfit.
  - apply Hgood, Vector_copy_assign_good, Hfit.
  - split; [by apply Vector_move_assign_fits|done].
  - split; [by apply Swap_fits|done].
  - apply Hgood, Reserve_good, Hfit.
  - apply Hgood, Resize_good, Hfit.
  - apply Hgood, Hptr. unfold EmplaceBack, cend.
    apply store_post_bind_end; [|intros; by apply good_refl].
    intros v Hv. by apply Emplace_good.
  - apply Hgood. unfold PushBack. apply Hptr. unfold EmplaceBack, cend.
    apply store_post_bind_end; [|intros; by apply good_refl].
    intros v Hv. by apply Emplace_good.
  - apply Hgood. unfold PushBack_move. apply Hptr. unfold EmplaceBack, cend.
    apply store_post_bind_end; [|intros; by apply good_refl].
    intros v Hv. by apply Emplace_good.
  - apply Hgood, PopBack_good, Hfit.
  - apply Hgood, Hptr. by apply Emplace_good.
  - apply Hgood, Hptr. by apply Emplace_good.
  - apply Hgood, Hptr. by apply Emplace_good.
  - apply Hgood, Hptr. by apply Erase_good.
Qed.

(** C9: copy assignment of a vector to itself returns at once and leaves
    the whole world as it is: the elements, [Size()], [Capacity()], the
    storage and the counts of constructions and destructions. *)
Theorem self_copy_assignment_is_a_no_op this w :
  Vector_copy_assign this this w = (Ok tt, w).
Proof. unfold Vector_copy_assign. by rewrite decide_False by (by intros ?). Qed.

(** C5: [Reserve(n)] with [n <= Capacity()] returns and leaves the whole
    world as it is, its storage address, capacity and elements included; and
    after any [Reserve(n)] that returned, [Reserve(n)] again changes
    nothing. *)
Theorem Reserve_within_capacity_is_a_no_op this n w v :
  vecs w !! this = Some v →
  (n ≤ capacity_ (data_ v) → Reserve this n w = (Ok tt, w))
  ∧ (∀ w', Reserve this n w = (Ok tt, w') → Reserve this n w' = (Ok tt, w')).
Proof.
  intros Hv.
  assert (Hnoop : ∀ w0 v0, vecs w0 !! this = Some v0 →
    n ≤ capacity_ (data_ v0) → Reserve this n w0 = (Ok tt, w0)).
  { intros w0 v0 Hv0 Hn. unfold Reserve.
    erewrite bind_ok by (by apply Capacity_ok).
    by rewrite (proj2 (Nat.leb_le _ _) Hn). }
  split; [by apply Hnoop|].
  intros w' E. pose proof (Reserve_store this n w) as Hst.
  unfold store_post in Hst. rewrite E in Hst. simpl in Hst.
  destruct Hst as [[Hvs Hok]|(v0 & buf & Hv0 & Hn & Hvs)].
  - destruct (Hok eq_refl) as (v0 & Hv0 & Hn).
    apply (Hnoop w' v0); [by rewrite Hvs|done].
  - eapply Hnoop; [rewrite Hvs; apply lookup_insert_eq|]. simpl. lia.
Qed.


Lemma copy_in_place_sets_length_last (a b : vid) w v r :
  a ≠ b →
  vecs w !! a = Some v → vecs w !! b = Some r →
  size_ r ≤ capacity_ (data_ v) →
  store_post (Vector_copy_assign a b) w (λ res vs',
    res ≠ Ok tt → vs' = vecs w).
Proof.
  intros Hab Ha Hb Hcap. unfold Vector_copy_assign.
  rewrite decide_True by done.
  apply store_post_bind_Size; [|done]. intros r' Hr'.
  rewrite Hb in Hr'. injection Hr' as <-.
  apply store_post_bind_Capacity; [|done]. intros v' Hv'.
  rewrite Ha in Hv'. injection Hv' as <-.
  unfold RawMemory_Capacity. rewrite (proj2 (Nat.ltb_ge _ _) Hcap).
  apply store_post_bind_Size; [|done]. intros ? _.
  apply store_post_bind_begin; [|done]. intros ? _.
  apply store_post_bind_begin; [|done]. intros ? _.
  apply store_post_bind_keeps; [keeps| |done..]. intros ? w1 Hw1.
  apply store_post_bind_keeps; [keeps| |by rewrite Hw1..]. intros ? w2 Hw2.
  apply store_post_set_size; rewrite Hw2, Hw1; [|done].
  intros ? _ Hres. done.
Qed.

(** C6: copy assignment [a = b] between two vectors returns when no copy
    throws and leaves [a] with the elements of [b] and [a.Size() ==
    b.Size()], [b] unchanged.  When [b.Size()] exceeds [a.Capacity()] it
    copy-constructs all of [b] into new storage, which becomes the storage of
    [a], and destroys the old elements of [a]; if one of these copies throws,
    [a] and [b] are as before.  Otherwise the storage of [a] is kept, the
    surplus elements of [a] are destroyed or the missing ones
    copy-constructed, and the length is written last: unless the assignment
    returns, no [Vector] object has changed. *)
Theorem copy_assignment_makes_a_equal_to_b w a bufa capa xs b bufb capb ys :
  a ≠ b →
  owns w a bufa capa xs → owns w b bufb capb ys →
  separate bufa bufb →
  (throw_countdown w = None →
   ∃ w' bufa' capa',
     Vector_copy_assign a b w = (Ok tt, w')
     ∧ owns w' a bufa' capa' ys
     ∧ owns w' b bufb capb ys
     ∧ Size a w' = (Ok (length ys), w')
     ∧ Size b w' = (Ok (length ys), w')
     ∧ (capa < length ys →
        bufa' = Ptr (length (heap w)) 0 ∧ capa' = length ys
        ∧ constructed w' = constructed w + length ys
        ∧ destroyed w' = destroyed w + length xs)
     ∧ (length ys ≤ capa →
        bufa' = bufa ∧ capa' = capa
        ∧ constructed w' = constructed w + (length ys - length xs)
        ∧ destroyed w' = destroyed w + (length xs - length ys)))
  ∧ (capa < length ys →
     ∀ k, throw_countdown w = Some k → k < length ys →
     ∃ w',
       Vector_copy_assign a b w = (Throw, w')
       ∧ owns w' a bufa capa xs
       ∧ owns w' b bufb capb ys
       ∧ alive w' = alive w)
  ∧ (length ys ≤ capa →
     ∀ r w', Vector_copy_assign a b w = (r, w') → r ≠ Ok tt →
             vecs w' = vecs w).
Proof.
  intros Hab Hoa Hob Hsep. split; [|split].
  - intros Hc. destruct (decide (capa < length ys)) as [Hbig|Hfits].
    + destruct (copy_and_swap_ok w a bufa capa xs b bufb capb ys)
        as (w' & E & Hoa' & Hob' & _ & Hcon & Hdes); [done..|].
      exists w', (Ptr (length (heap w)) 0), (length ys).
      split; [done|]. split; [done|]. split; [done|].
      split; [by erewrite Size_ok by (by eapply owns_lookup)|].
      split; [by erewrite Size_ok by (by eapply owns_lookup)|].
      split; [done|lia].
    + destruct (copy_in_place_ok w a bufa capa xs b bufb capb ys)
        as (w' & E & Hoa' & Hob' & _ & Hcon & Hdes); [done|done|done|done|lia|done|].
      exists w', bufa, capa.
      split; [done|]. split; [done|]. split; [done|].
      split; [by erewrite Size_ok by (by eapply owns_lookup)|].
      split; [by erewrite Size_ok by (by eapply owns_lookup)|].
      split; [lia|done].
  - intros Hbig k Hc Hk.
    destruct (copy_and_swap_throw w a bufa capa xs b bufb capb ys k)
      as (w' & E & Hoa' & Hob' & _ & Halive); [done..|].
    by exists w'.
  - intros Hfits r w' E Hr.
    pose proof (copy_in_place_sets_length_last a b w _ _ Hab
                  (owns_lookup _ _ _ _ _ Hoa) (owns_lookup _ _ _ _ _ Hob) Hfits)
      as Hst.
    unfold store_post in Hst. rewrite E in Hst. by apply Hst.
Qed.

End Claims.

Section Relocation_throws.
Context {T : Type} `{!Elem T}.

Local Abbreviation World := (@World T).
Local Abbreviation M := (@M T).
Implicit Types (w : World) (xs ys : list T).

Lemma copies_for_transfer :
  is_nothrow_move_constructible || negb is_copy_constructible = false →
  is_nothrow_move_constructible = false.
Proof. by destruct is_nothrow_move_constructible. Qed.

Lemma T_construct_tick w args k :
  is_nothrow_move_constructible = false →
  throw_countdown w = Some (S k) →
  T_construct args w
  = (Ok (arg_value args),
     mkWorld (heap w) (vecs w) (S (constructed w)) (destroyed w) (Some k)).
Proof.
  intros Hm Hc. unfold T_construct. rewrite Hm.
  assert (Ht : may_throw w
    = (Ok tt, mkWorld (heap w) (vecs w) (constructed w) (destroyed w) (Some k))).
  { rewrite may_throw_ok by (rewrite Hc; simpl; lia).
    rewrite Hc. simpl. by rewrite Nat.sub_0_r. }
  destruct args; by erewrite bind_ok by exact Ht.
Qed.

Lemma T_construct_throw w args :
  is_nothrow_move_constructible = false →
  throw_countdown w = Some 0 →
  T_construct args w
  = (Throw, mkWorld (heap w) (vecs w) (constructed w) (destroyed w) None).
Proof.
  intros Hm Hc. unfold T_construct. rewrite Hm.
  destruct args; by erewrite bind_throw by (by apply may_throw_throw).
Qed.


(** A relocating [Emplace] on an element type that is transferred by copy,
    when one of its fallible operations throws: the exception propagates,
    the store and the old block are as before and the new block has been
    released, but only the objects of the interrupted batch have been
    destroyed. *)
Lemma EmplaceWithDataRelocation_throw w this bo xs index args k :
  is_nothrow_move_constructible || negb is_copy_constructible = false →
  vecs w !! this
    = Some {| data_ := {| buffer_ := Ptr bo 0; capacity_ := length xs |};
              size_ := length xs |} →
  heap w !! bo = Some (Some (Some <$> xs)) →
  index ≤ length xs →
  throw_countdown w = Some k → k ≤ length xs →
  EmplaceWithDataRelocation this (Ptr bo index) index args w
  = (Throw,
     mkWorld (heap w ++ [None]) (vecs w)
             (constructed w + k) (destroyed w + unwound k index) None).
Proof.
  intros Hpath Hv Hb Hi Hc Hk.
  pose proof (copies_for_transfer Hpath) as Hm.
  assert (Hlt : bo < length (heap w)) by (by eapply lookup_lt_Some).
  pose proof (grown_gt (length xs)) as Hgn.
  set (n := grown (length xs)) in *.
  set (x := arg_value args).
  assert (Htake : length (take index xs) = index) by (rewrite length_take; lia).
  assert (Hdrop : length (drop index xs) = length xs - index)
    by (by rewrite length_drop).
  unfold EmplaceWithDataRelocation.
  erewrite bind_ok by (by apply Size_ok). cbn [size_].
  fold (grown (length xs)). fold n.
  erewrite bind_ok by (apply RawMemory_ctor_ok; lia).
  erewrite bind_throw; [reflexivity|].
  set (bn := length (heap w)) in *.
  assert (Hrelease : ∀ blk c d,
    RawMemory_dtor {| buffer_ := Ptr bn 0; capacity_ := n |}
      (mkWorld (<[bn := Some blk]> (heap w ++ [Some (replicate n None)]))
               (vecs w) c d None)
    = (Ok tt, mkWorld (heap w ++ [None]) (vecs w) c d None)).
  { intros blk c d. unfold RawMemory_dtor, Deallocate. cbn [buffer_].
    erewrite operator_delete_ok by (wsimpl; heap_lookup; done).
    wsimpl. unfold bn. by rewrite list_insert_insert_eq, heap_snoc_insert. }
  rewrite Hpath.
  destruct k as [|k].
  { (* the constructor of the new element throws *)
    eapply on_throw_throw.
    - erewrite bind_ok by (apply RawMemory_plus_ok; simpl; lia).
      erewrite bind_throw; [reflexivity|].
      unfold construct_at. erewrite bind_throw; [reflexivity|].
      by apply T_construct_throw.
    - wsimpl. unfold RawMemory_dtor, Deallocate. cbn [buffer_].
      erewrite operator_delete_ok by (wsimpl; by rewrite list_lookup_middle).
      wsimpl. unfold unwound, bn. simpl.
      by rewrite heap_snoc_insert, !Nat.add_0_r. }
  assert (Hnew : construct_at (Ptr bn index) args
      (set_heap (heap w ++ [Some (replicate n None)]) w)
    = (Ok tt, mkWorld (<[bn := Some (replicate index None ++ Some x
                                   :: replicate (n - S index) None)]>
                         (heap w ++ [Some (replicate n None)]))
                      (vecs w) (S (constructed w)) (destroyed w) (Some k))).
  { unfold construct_at.
    erewrite bind_ok by (by apply T_construct_tick).
    erewrite (place_at _ _ _ (replicate index None)).
    - reflexivity.
    - by rewrite length_replicate.
    - wsimpl. rewrite list_lookup_middle by done.
      by rewrite (replicate_split n index) by lia. }
  destruct (decide (k < index)) as [Hfirst|Hsecond].
  - (* a copy of the first batch throws *)
    eapply on_throw_throw.
    + erewrite bind_ok by (apply RawMemory_plus_ok; simpl; lia).
      cbn [buffer_ ptr_add Nat.add].
      erewrite bind_ok by exact Hnew.
      erewrite bind_ok by (by apply begin_ok).
      cbn [buffer_ data_ GetAddress].
      erewrite bind_throw; [reflexivity|].
      erewrite bind_throw; [reflexivity|].
      eapply (uninitialized_copy_n_throw_at _ _ _ [] (take index xs)
                (Some <$> drop index xs) _ _ []
                (Some x :: replicate (n - S index) None) _ k);
        wsimpl; try done.
      * lia.
      * heap_lookup. by rewrite <- fmap_app, take_drop.
      * heap_lookup. done.
    + wsimpl. rewrite Hrelease. do 2 f_equal; [lia|].
      unfold unwound. cbn [Nat.eqb].
      rewrite (proj2 (Nat.leb_le (S k) index)) by lia. lia.
  - (* a copy of the second batch throws *)
    eapply on_throw_throw.
    + erewrite bind_ok by (apply RawMemory_plus_ok; simpl; lia).
      cbn [buffer_ ptr_add Nat.add].
      erewrite bind_ok by exact Hnew.
      erewrite bind_ok by (by apply begin_ok).
      cbn [buffer_ data_ GetAddress].
      erewrite bind_throw; [reflexivity|].
      erewrite bind_ok; cycle 1.
      { eapply (uninitialized_copy_n_at _ _ _ [] (take index xs)
                  (Some <$> drop index xs) _ _ []
                  (Some x :: replicate (n - S index) None));
          wsimpl; try done.
        - lia.
        - heap_lookup. by rewrite <- fmap_app, take_drop.
        - heap_lookup. done.
        - simpl. lia. }
      cbn [ptr_add Nat.add]. rewrite Nat.add_1_r.
      eapply (uninitialized_copy_n_throw_at _ _ _ (Some <$> take index xs)
                (drop index xs) [] _ _
                ((Some <$> take index xs) ++ [Some x])
                (replicate (n - S (length xs)) None) _ (k - index));
        wsimpl; try done.
      * by rewrite length_fmap.
      * rewrite length_app, length_fmap. simpl. lia.
      * lia.
      * heap_lookup. rewrite app_nil_r. by rewrite <- fmap_app, take_drop.
      * heap_lookup. simpl. rewrite <- app_assoc. simpl. do 4 f_equal.
        rewrite <- replicate_add. f_equal. lia.
      * lia.
    + wsimpl. rewrite list_insert_insert_eq, Hrelease.
      do 2 f_equal; [lia|].
      unfold unwound. cbn [Nat.eqb].
      rewrite (proj2 (Nat.leb_gt (S k) index)) by lia. lia.
Qed.

(** X20.  The part of C1 that holds, and the size of the leak: when the
    fallible operation number [k] of a relocating [Emplace] throws, on an
    element type that is transferred by copy, the vector has its old address,
    length, capacity and elements and the new block has been released;
    [leaked k index] objects built in that block were not destroyed. *)
Lemma Emplace_relocation_throw w this bo xs index args k :
  is_nothrow_move_constructible || negb is_copy_constructible = false →
  owns w this (Ptr bo 0) (length xs) xs →
  index ≤ length xs →
  throw_countdown w = Some k → k ≤ length xs →
  ∃ w',
    Emplace this (Ptr bo index) args w = (Throw, w')
    ∧ vecs w' = vecs w
    ∧ owns w' this (Ptr bo 0) (length xs) xs
    ∧ heap w' = heap w ++ [None]
    ∧ alive w' = (alive w + Z.of_nat (leaked k index))%Z.
Proof.
  intros Hpath Ho Hi Hc Hk.
  pose proof Ho as (Hv & _ & Hblk). simpl in Hblk. destruct Hblk as [_ Hb].
  rewrite contents_full in Hb.
  eexists. split.
  { unfold Emplace.
    erewrite bind_ok by (by apply begin_ok).
    erewrite bind_ok by (by apply end_ok).
    cbn [buffer_ data_ size_ ptr_add ptr_le Nat.add].
    rewrite Nat.eqb_refl, (proj2 (Nat.leb_le _ _) Hi). simpl.
    erewrite bind_ok by reflexivity.
    erewrite bind_ok by (by apply Size_ok).
    erewrite bind_ok by (by apply Capacity_ok).
    cbn [size_ data_ capacity_ RawMemory_Capacity].
    rewrite Nat.eqb_refl, Nat.sub_0_r.
    erewrite bind_throw; [reflexivity|].
    by apply (EmplaceWithDataRelocation_throw _ _ _ xs). }
  wsimpl. split; [done|]. split; [|split; [done|]].
  - unfold owns. wsimpl. split; [done|]. split; [done|].
    simpl. split; [done|]. rewrite contents_full. by apply lookup_app_l_Some.
  - unfold alive, leaked, unwound. cbn [constructed destroyed].
    destruct k as [|k]; cbn [Nat.eqb]; [lia|].
    destruct (S k <=? index) eqn:E; [apply Nat.leb_le in E|apply Nat.leb_gt in E];
      lia.
Qed.

End Relocation_throws.

Section RawMemory_moves.
Context {T : Type}.

(** The move constructor releases what the new object holds by default,
    which is null, takes the pointer and the capacity of [other] and leaves
    [other] empty; the heap is as before. *)
Lemma RawMemory_move_ctor_steals (other : RawMemory) (w : @World T) :
  RawMemory_move_ctor other w
  = (Ok ({| buffer_ := buffer_ other; capacity_ := capacity_ other |},
         RawMemory_default), w).
Proof. reflexivity. Qed.

(** The move assignment takes the pointer and the capacity of [rhs] and
    leaves [rhs] empty; it never touches the heap, so the block the
    destination held is not released. *)
Lemma RawMemory_move_assign_steals (this rhs : RawMemory) (w : @World T) :
  RawMemory_move_assign this rhs w
  = (Ok ({| buffer_ := buffer_ rhs; capacity_ := capacity_ rhs |},
         RawMemory_default), w).
Proof. reflexivity. Qed.

End RawMemory_moves.

(** C3, at the failing input: move assignment of a [RawMemory] that owns
    the 2-slot block 1 to one that owns the 1-slot block 0.  The
    destination takes over block 1 and the source is reset, but block 0 is
    not released: it is still allocated, no object points to it any more, and
    it stays allocated after both objects have been destroyed. *)
Theorem RawMemory_move_assign_keeps_the_old_block :
  let a := {| buffer_ := Ptr 0 0; capacity_ := 1 |} in
  let b := {| buffer_ := Ptr 1 0; capacity_ := 2 |} in
  heap two_blocks = [Some [None]; Some [None; None]]
  ∧ RawMemory_move_assign a b two_blocks
    = (Ok ({| buffer_ := Ptr 1 0; capacity_ := 2 |},
           {| buffer_ := nullptr; capacity_ := 0 |}),
       two_blocks)
  ∧ ∃ w',
      (p <- RawMemory_move_assign a b;;
       RawMemory_dtor p.1;; RawMemory_dtor p.2) two_blocks
      = (Ok tt, w')
      ∧ heap w' = [Some [None]; None].
Proof.
  split; [reflexivity|]. split; [reflexivity|].
  eexists. split; reflexivity.
Qed.

(** C2, at the failing input: two vectors [[1]] and [[2]]; the second is
    move-assigned to the first.  The assignment returns, and afterwards two
    objects are alive while the vectors hold one element in total; after both
    vectors have been destroyed one object is still alive, in a block that
    was never released. *)
Theorem move_assignment_leaks_the_old_elements :
  alive two_singletons = 2%Z ∧ total_length two_singletons = 2
  ∧ ∃ w1 w2,
      Vector_move_assign 0 1 two_singletons = (Ok tt, w1)
      ∧ size_of w1 0 = Some 1 ∧ size_of w1 1 = Some 0
      ∧ alive w1 = 2%Z ∧ total_length w1 = 1
      ∧ (Vector_dtor 0;; Vector_dtor 1) w1 = (Ok tt, w2)
      ∧ vecs w2 = ∅
      ∧ alive w2 = 1%Z
      ∧ heap w2 = [Some [Some 1%Z]; None].
Proof.
  split; [reflexivity|]. split; [reflexivity|].
  eexists _, _. split; [vm_compute; reflexivity|].
  repeat split; vm_compute; reflexivity.
Qed.

(** C1, at the failing input: [PushBack] on a full vector of one
    instrumented object, when the copy of that object into the new storage
    throws.  The exception propagates; the vector has its old address,
    length, capacity and element, and the new block has been released; but
    the new element, which was constructed in the new block first, was never
    destroyed: two objects are alive and the vector holds one.  When the
    throwing copy is one of the second batch, the elements already copied
    are lost with it. *)
Theorem relocation_leaks_what_it_constructed :
  (∃ w',
     PushBack 0 (obj 2) one_obj_armed = (Throw, w')
     ∧ vecs w' = vecs one_obj_armed
     ∧ owns w' 0 (Ptr 0 0) 1 [obj 1]
     ∧ heap w' !! 1 = Some None
     ∧ constructed w' = S (constructed one_obj_armed)
     ∧ destroyed w' = destroyed one_obj_armed
     ∧ alive w' = 2%Z ∧ total_length w' = 1)
  ∧ (∃ w',
     Emplace 0 (Ptr 1 1) (Forward (obj 3)) two_objs_armed = (Throw, w')
     ∧ vecs w' = vecs two_objs_armed
     ∧ owns w' 0 (Ptr 1 0) 2 [obj 1; obj 2]
     ∧ heap w' !! 2 = Some None
     ∧ constructed w' = 2 + constructed two_objs_armed
     ∧ destroyed w' = destroyed two_objs_armed
     ∧ alive w' = 4%Z ∧ total_length w' = 2).
Proof.
  split.
  - eexists. split; [vm_compute; reflexivity|].
    unfold owns. repeat split; try (vm_compute; reflexivity); simpl; lia.
  - eexists. split; [vm_compute; reflexivity|].
    unfold owns. repeat split; try (vm_compute; reflexivity); simpl; lia.
Qed.

(** C8, as stated, fails: move assignment of a vector of capacity 1 to a
    vector of capacity 4 returns and leaves the destination with capacity 1,
    and no copy of elements is involved. *)
Lemma move_assignment_lowers_the_capacity :
  size_le_capacity two_vectors
  ∧ capacity_of two_vectors 0 = Some 4
  ∧ ∃ w',
      run_op (OpMoveAssign 0 1) two_vectors = (Ok tt, w')
      ∧ capacity_of w' 0 = Some 1
      ∧ constructed w' = constructed two_vectors
      ∧ ¬ capacity_kept (vecs two_vectors) (vecs w').
Proof.
  split.
  { apply (bool_decide_unpack
             (map_Forall (λ _ v, size_ v ≤ capacity_ (data_ v))
                         (vecs two_vectors))).
    vm_compute. exact I. }
  split; [vm_compute; reflexivity|].
  eexists. split; [vm_compute; reflexivity|].
  split; [vm_compute; reflexivity|]. split; [vm_compute; reflexivity|].
  intros Hkept.
  specialize (Hkept 0 {| data_ := {| buffer_ := Ptr 2 0; capacity_ := 4 |};
                         size_ := 3 |}
                      {| data_ := {| buffer_ := Ptr 3 0; capacity_ := 1 |};
                         size_ := 1 |}).
  simpl in Hkept.
  assert (4 ≤ 1) by (apply Hkept; vm_compute; reflexivity). lia.
Qed.

(** The claim of C8 as amended, on [PushBack] onto a vector with spare
    capacity next to another vector. *)
Lemma operations_keep_size_le_capacity_witness :
  size_le_capacity (run_op (OpPushBack 0 5%Z) two_vectors).2
  ∧ (transfers_buffer (OpPushBack 0 5%Z) = false →
     capacity_kept (vecs two_vectors)
       (vecs (run_op (OpPushBack 0 5%Z) two_vectors).2)).
Proof.
  apply (operations_keep_size_le_capacity (OpPushBack 0 5%Z) two_vectors).
  apply (bool_decide_unpack
           (map_Forall (λ _ v, size_ v ≤ capacity_ (data_ v))
                       (vecs two_vectors))).
  vm_compute. exact I.
Defined.

(** The claim of C5 on a vector of capacity 4 and [Reserve(2)]. *)
Lemma Reserve_within_capacity_is_a_no_op_witness :
  (2 ≤ 4 → Reserve 0 2 two_vectors = (Ok tt, two_vectors))
  ∧ (∀ w', Reserve 0 2 two_vectors = (Ok tt, w') →
           Reserve 0 2 w' = (Ok tt, w')).
Proof.
  apply (Reserve_within_capacity_is_a_no_op 0 2 two_vectors
           {| data_ := {| buffer_ := Ptr 2 0; capacity_ := 4 |};
              size_ := 3 |}).
  vm_compute. reflexivity.
Defined.

Lemma owns_two_vectors_0 : owns two_vectors 0 (Ptr 2 0) 4 [1; 2; 3]%Z.
Proof.
  unfold owns. split; [vm_compute; reflexivity|].
  split; [simpl; lia|]. split; vm_compute; reflexivity.
Defined.

Lemma owns_two_vectors_1 : owns two_vectors 1 (Ptr 3 0) 1 [7]%Z.
Proof.
  unfold owns. split; [vm_compute; reflexivity|].
  split; [simpl; lia|]. split; vm_compute; reflexivity.
Defined.

(** The claim of C6 on [a = b] for [a = [1; 2; 3]] with capacity 4 and
    [b = [7]]: the storage of [a] is reused and two elements are
    destroyed. *)
Lemma copy_assignment_makes_a_equal_to_b_witness :
  ∃ w' bufa' capa',
    Vector_copy_assign 0 1 two_vectors = (Ok tt, w')
    ∧ owns w' 0 bufa' capa' [7]%Z
    ∧ owns w' 1 (Ptr 3 0) 1 [7]%Z
    ∧ Size 0 w' = (Ok 1, w')
    ∧ Size 1 w' = (Ok 1, w')
    ∧ (4 < 1 →
       bufa' = Ptr (length (heap two_vectors)) 0 ∧ capa' = 1
       ∧ constructed w' = constructed two_vectors + 1
       ∧ destroyed w' = destroyed two_vectors + 3)
    ∧ (1 ≤ 4 →
       bufa' = Ptr 2 0 ∧ capa' = 4
       ∧ constructed w' = constructed two_vectors + 0
       ∧ destroyed w' = destroyed two_vectors + 2).
Proof.
  apply (copy_assignment_makes_a_equal_to_b two_vectors
           0 (Ptr 2 0) 4 [1; 2; 3]%Z 1 (Ptr 3 0) 1 [7]%Z).
  - lia.
  - exact owns_two_vectors_0.
  - exact owns_two_vectors_1.
  - simpl. lia.
  - reflexivity.
Defined.

(** The claim of C10 on [Emplace] of 9 at index 1 of [[1; 2; 3]], and on
    [Erase] at index 1, where the returned iterator then points at 3. *)
Lemma returned_iterators_point_at_the_element_witness :
  (∃ w' first,
     Emplace 0 (Ptr 2 1) (Forward 9%Z) two_vectors
     = (Ok (ptr_add first 1), w')
     ∧ distance (Ptr 2 0) (Ptr 2 1) = 1
     ∧ begin 0 w' = (Ok first, w')
     ∧ load (ptr_add first 1) w' = (Ok 9%Z, w'))
  ∧ (∃ w',
       Erase 0 (Ptr 2 1) two_vectors = (Ok (Ptr 2 1), w')
       ∧ begin 0 w' = (Ok (Ptr 2 0), w')
       ∧ end_ 0 w' = (Ok (Ptr 2 2), w')
       ∧ read_slot (heap w') (Ptr 2 1) = Some (Some 3%Z)).
Proof.
  destruct (returned_iterators_point_at_the_element two_vectors
              0 (Ptr 2 0) 4 [1; 2; 3]%Z 1 (Forward 9%Z))
    as (Hemplace & _ & _ & _ & Herase).
  - exact owns_two_vectors_0.
  - simpl. lia.
  - reflexivity.
  - split; [exact Hemplace|]. apply Herase. simpl. lia.
Defined.

(** * Further properties of the operations *)

Section Reserve_facts.
Context {T : Type} `{!Elem T}.

Local Abbreviation World := (@World T).
Local Abbreviation M := (@M T).
Implicit Types (h : list (option (list (option T)))) (w : World).
Implicit Types (xs ys : list T).





End Reserve_facts.

Section Value_construction_facts.
Context {T : Type} `{!Elem T}.

Local Abbreviation World := (@World T).
Local Abbreviation M := (@M T).
Implicit Types (h : list (option (list (option T)))) (w : World).
Implicit Types (pre post : list (option T)) (xs ys : list T).







Lemma fmap_replicate_Some n (x : T) :
  Some <$> replicate n x = replicate n (Some x).
Proof. apply fmap_replicate. Qed.


Lemma fresh_name_ok w this :
  vecs w !! this = None → fresh_name this w = (Ok tt, w).
Proof. intros E. unfold fresh_name. by rewrite E. Qed.




End Value_construction_facts.

Section Reserve_throws.
Context {T : Type} `{!Elem T}.

Local Abbreviation World := (@World T).
Implicit Types (w : World) (xs ys : list T).


End Reserve_throws.

Section Capacity_management.
Context {T : Type} `{!Elem T}.

Local Abbreviation World := (@World T).
Local Abbreviation M := (@M T).
Implicit Types (h : list (option (list (option T)))) (w : World).
Implicit Types (xs ys : list T).

Lemma owns_null_inv w this cap xs :
  owns w this nullptr cap xs → xs = [] ∧ cap = 0.
Proof. intros (_ & Hle & Hb). by apply contents_nil_inv. Qed.

Lemma owns_block_inv w this b off cap xs :
  owns w this (Ptr b off) cap xs →
  off = 0 ∧ heap w !! b = Some (Some (contents cap xs)) ∧ b < length (heap w).
Proof.
  intros (_ & _ & -> & Hb). split; [done|]. split; [done|].
  by eapply lookup_lt_Some.
Qed.

Lemma lookup_snoc_length h (o : option (list (option T))) n :
  n = length h → (h ++ [o]) !! n = Some o.
Proof. intros ->. by apply list_lookup_middle. Qed.





End Capacity_management.

Section Resize_facts.
Context {T : Type} `{!Elem T}.

Local Abbreviation World := (@World T).
Local Abbreviation M := (@M T).
Implicit Types (h : list (option (list (option T)))) (w : World).
Implicit Types (xs ys : list T).

Lemma contents_split cap xs n :
  contents cap xs
  = (Some <$> take n xs) ++ (Some <$> drop n xs)
      ++ replicate (cap - length xs) None.
Proof.
  unfold contents. by rewrite app_assoc, <- fmap_app, take_drop.
Qed.

Lemma contents_take cap xs n :
  n ≤ length xs → length xs ≤ cap →
  (Some <$> take n xs) ++ replicate (length xs - n) None
     ++ replicate (cap - length xs) None
  = contents cap (take n xs).
Proof.
  intros Hn Hle. unfold contents.
  rewrite <- replicate_add, length_take. do 2 f_equal. lia.
Qed.




Lemma Resize_shrink_block w this bo cap xs n :
  vecs w !! this
    = Some {| data_ := {| buffer_ := Ptr bo 0; capacity_ := cap |};
              size_ := length xs |} →
  heap w !! bo = Some (Some (contents cap xs)) →
  length xs ≤ cap → n ≤ length xs →
  Resize this n w
  = (Ok tt,
     mkWorld (<[bo := Some (contents cap (take n xs))]> (heap w))
       (<[this := {| data_ := {| buffer_ := Ptr bo 0; capacity_ := cap |};
                     size_ := n |}]> (vecs w))
       (constructed w) (destroyed w + (length xs - n)) (throw_countdown w)).
Proof.
  intros Hv Hb Hle Hn. unfold Resize.
  erewrite bind_ok by (by apply Size_ok). cbn [size_].
  rewrite (proj2 (Nat.ltb_ge _ _)) by lia.
  erewrite bind_ok; cycle 1.
  { erewrite bind_ok by (by apply get_vec_ok).
    cbn [GetAddress data_ buffer_ size_ ptr_add Nat.add].
    eapply (destroy_n_at _ _ _ _ (Some <$> take n xs) (drop n xs)
              (replicate (cap - length xs) None)).
    - rewrite length_fmap, length_take. lia.
    - by rewrite length_drop.
    - by rewrite Hb, (contents_split cap xs n). }
  erewrite set_size_ok by done. wsimpl. cbn [data_].
  by rewrite contents_take.
Qed.

Lemma Resize_null_zero w this :
  vecs w !! this
    = Some {| data_ := {| buffer_ := nullptr; capacity_ := 0 |}; size_ := 0 |} →
  Resize this 0 w = (Ok tt, w).
Proof.
  intros Hv. unfold Resize.
  erewrite bind_ok by (by apply Size_ok). cbn [size_ Nat.ltb Nat.leb].
  erewrite bind_ok; cycle 1.
  { erewrite bind_ok by (by apply get_vec_ok). reflexivity. }
  erewrite set_size_ok by done. wsimpl. cbn [data_].
  rewrite insert_id by done. by destruct w.
Qed.




Lemma PopBack_block w this bo cap xs x :
  vecs w !! this
    = Some {| data_ := {| buffer_ := Ptr bo 0; capacity_ := cap |};
              size_ := length (xs ++ [x]) |} →
  heap w !! bo = Some (Some (contents cap (xs ++ [x]))) →
  length (xs ++ [x]) ≤ cap →
  PopBack this w
  = (Ok tt,
     mkWorld (<[bo := Some (contents cap xs)]> (heap w))
       (<[this := {| data_ := {| buffer_ := Ptr bo 0; capacity_ := cap |};
                     size_ := length xs |}]> (vecs w))
       (constructed w) (S (destroyed w)) (throw_countdown w)).
Proof.
  intros Hv Hb Hle. rewrite length_snoc in Hv, Hle. unfold PopBack.
  erewrite bind_ok by (by apply Size_ok). cbn [size_ Nat.ltb Nat.leb].
  erewrite bind_ok by (by apply end_ok).
  cbn [buffer_ data_ size_ ptr_add Nat.add].
  rewrite ptr_sub_S. erewrite bind_ok by reflexivity.
  erewrite bind_ok; cycle 1.
  { eapply (destroy_at_at _ _ _ (Some <$> xs) x
              (replicate (cap - S (length xs)) None)).
    - by rewrite length_fmap.
    - rewrite Hb. unfold contents.
      rewrite fmap_app, <- app_assoc, length_snoc. done. }
  erewrite set_size_ok by done. wsimpl. cbn [data_].
  replace (S (length xs) - 1) with (length xs) by lia.
  unfold contents. by rewrite (replicate_sub_S cap (length xs)) by lia.
Qed.

Lemma PopBack_empty w this v :
  vecs w !! this = Some v → size_ v = 0 → PopBack this w = (Ok tt, w).
Proof.
  intros Hv Hs. unfold PopBack.
  erewrite bind_ok by (by apply Size_ok). by rewrite Hs.
Qed.

End Resize_facts.

Section Length_changes.
Context {T : Type} `{!Elem T}.

Local Abbreviation World := (@World T).
Local Abbreviation M := (@M T).
Implicit Types (h : list (option (list (option T)))) (w : World).
Implicit Types (xs ys : list T).


(** X12.  [Resize] to a length not greater than [Size()] destroys the surplus
    tail and keeps the storage and the capacity; in particular [Resize(0)]
    empties the vector without releasing anything. *)
Theorem Resize_to_a_smaller_length_destroys_the_tail w this buf cap xs n :
  owns w this buf cap xs →
  n ≤ length xs →
  ∃ w',
    Resize this n w = (Ok tt, w')
    ∧ owns w' this buf cap (take n xs)
    ∧ constructed w' = constructed w
    ∧ destroyed w' = destroyed w + (length xs - n)
    ∧ length (heap w') = length (heap w)
    ∧ throw_countdown w' = throw_countdown w.
Proof.
  intros Ho Hn. pose proof Ho as (Hv & Hle & _).
  destruct buf as [|b off].
  - pose proof Ho as Ho'. apply owns_null_inv in Ho' as [-> ->].
    simpl in Hn. assert (n = 0) as -> by lia.
    exists w. split; [apply Resize_null_zero; exact Hv|].
    split; [done|]. simpl. repeat split; lia.
  - apply owns_block_inv in Ho as (-> & Hb & Hlt).
    eexists. split; [by apply Resize_shrink_block|].
    unfold owns. wsimpl. rewrite length_take, Nat.min_l by lia.
    split; [|split; [done|split; [done|split; [by rewrite length_insert|done]]]].
    split; [by rewrite lookup_insert_eq|]. split; [lia|]. split; [done|].
    by apply list_lookup_insert_eq.
Qed.

(** X14.  [PopBack] destroys the last element and nothing else; the storage and
    the capacity are kept. *)
Theorem PopBack_destroys_the_last_element w this buf cap xs x :
  owns w this buf cap (xs ++ [x]) →
  ∃ w',
    PopBack this w = (Ok tt, w')
    ∧ owns w' this buf cap xs
    ∧ constructed w' = constructed w
    ∧ destroyed w' = S (destroyed w)
    ∧ length (heap w') = length (heap w).
Proof.
  intros Ho. pose proof Ho as (Hv & Hle & _).
  destruct buf as [|b off].
  - apply owns_null_inv in Ho as [Hnil _]. by destruct xs.
  - apply owns_block_inv in Ho as (-> & Hb & Hlt).
    eexists. split; [by apply PopBack_block with (x := x)|].
    unfold owns. wsimpl. rewrite length_snoc in Hle.
    split; [|split; [done|split; [done|by rewrite length_insert]]].
    split; [by rewrite lookup_insert_eq|]. split; [lia|]. split; [done|].
    by apply list_lookup_insert_eq.
Qed.

(** X15.  [PopBack] on an empty vector returns without touching anything. *)
Theorem PopBack_on_an_empty_vector_does_nothing w this buf cap :
  owns w this buf cap [] → PopBack this w = (Ok tt, w).
Proof. intros (Hv & _). by eapply PopBack_empty. Qed.

End Length_changes.

Section Heap_after_Emplace.
Context {T : Type} `{!Elem T}.

Local Abbreviation World := (@World T).
Local Abbreviation M := (@M T).
Implicit Types (h : list (option (list (option T)))) (w : World).
Implicit Types (xs ys : list T).

Lemma heap_relocated h h' bo (blk : list (option T)) :
  bo < length h →
  h' !! length h = Some (Some blk) →
  h' !! bo = Some None →
  length h' = S (length h) →
  (∀ b, b ≠ bo → b < length h → h' !! b = h !! b) →
  h' = <[bo := None]> h ++ [Some blk].
Proof.
  intros Hlt Hn Ho Hl Hframe. apply list_eq. intros i.
  destruct (decide (i < length h)) as [Hi|Hi].
  - rewrite lookup_app_l by (by rewrite length_insert).
    destruct (decide (i = bo)) as [->|Hne].
    + by rewrite list_lookup_insert_eq.
    + rewrite list_lookup_insert_ne by done. by apply Hframe.
  - destruct (decide (i = length h)) as [->|Hne].
    + rewrite lookup_snoc_length by (by rewrite length_insert). done.
    + rewrite !(lookup_ge_None_2 _ i); [done| |lia].
      rewrite length_app, length_insert. simpl. lia.
Qed.

(** The heap after [Emplace]: a relocation releases the old block and adds
    the new one; otherwise only the block of the vector changes. *)
Lemma Emplace_heap w this buf cap xs index args :
  owns w this buf cap xs →
  index ≤ length xs →
  throw_countdown w = None →
  let ys := take index xs ++ arg_value args :: drop index xs in
  heap (Emplace this (ptr_add buf index) args w).2
  = if decide (length xs = cap)
    then release buf (heap w) ++ [Some (contents (grown cap) ys)]
    else match buf with
         | Ptr b _ => <[b := Some (contents cap ys)]> (heap w)
         | nullptr => heap w
         end.
Proof.
  intros (Hv & Hle & Hblk) Hi Hc ys.
  destruct buf as [|bo off].
  - simpl in Hblk. apply contents_nil_inv in Hblk as [-> ->]; [|done].
    simpl in Hi. assert (index = 0) as -> by lia.
    unfold Emplace.
    erewrite bind_ok by (by apply begin_ok).
    erewrite bind_ok by (by apply end_ok).
    cbn [buffer_ data_ size_ ptr_add ptr_le andb length].
    erewrite bind_ok by reflexivity.
    erewrite bind_ok by (by apply Size_ok).
    erewrite bind_ok by (by apply Capacity_ok).
    cbn [size_ data_ capacity_ RawMemory_Capacity distance length Nat.eqb].
    erewrite bind_ok by (by apply EmplaceWithDataRelocation_null_ok).
    erewrite bind_ok by (apply Size_ok; wsimpl; apply lookup_insert_eq).
    erewrite bind_ok by (apply set_size_ok; wsimpl; apply lookup_insert_eq).
    erewrite bind_ok by (apply begin_ok; wsimpl; apply lookup_insert_eq).
    done.
  - simpl in Hblk. destruct Hblk as [-> Hb].
    assert (Hlt : bo < length (heap w)) by (by eapply lookup_lt_Some).
    assert (Hpos : ptr_le (Ptr bo 0) (Ptr bo index)
                   && ptr_le (Ptr bo index) (Ptr bo (length xs)) = true).
    { simpl. by rewrite Nat.eqb_refl, (proj2 (Nat.leb_le _ _) Hi). }
    destruct (decide (length xs = cap)) as [Hfull|Hroom].
    + subst cap. rewrite contents_full in Hb.
      destruct (EmplaceWithDataRelocation_ok w this bo xs index args)
        as (h' & E & Hn & Ho & Hl & Hframe); try done.
      unfold Emplace. cbn [ptr_add Nat.add].
      erewrite bind_ok by (by apply begin_ok).
      erewrite bind_ok by (by apply end_ok).
      cbn [buffer_ data_ size_ ptr_add Nat.add]. rewrite Hpos.
      erewrite bind_ok by reflexivity.
      erewrite bind_ok by (by apply Size_ok).
      erewrite bind_ok by (by apply Capacity_ok).
      cbn [size_ data_ capacity_ RawMemory_Capacity distance].
      rewrite Nat.eqb_refl, Nat.sub_0_r.
      erewrite bind_ok by exact E.
      erewrite bind_ok by (apply Size_ok; wsimpl; apply lookup_insert_eq).
      erewrite bind_ok by (apply set_size_ok; wsimpl; apply lookup_insert_eq).
      erewrite bind_ok by (apply begin_ok; wsimpl; apply lookup_insert_eq).
      wsimpl. cbn [snd heap release]. by apply heap_relocated.
    + assert (Hlt' : length xs < cap) by lia.
      unfold Emplace. cbn [ptr_add Nat.add].
      erewrite bind_ok by (by apply begin_ok).
      erewrite bind_ok by (by apply end_ok).
      cbn [buffer_ data_ size_ ptr_add Nat.add]. rewrite Hpos.
      erewrite bind_ok by reflexivity.
      erewrite bind_ok by (by apply Size_ok).
      erewrite bind_ok by (by apply Capacity_ok).
      cbn [size_ data_ capacity_ RawMemory_Capacity distance].
      rewrite (proj2 (Nat.eqb_neq _ _) Hroom), Nat.sub_0_r.
      erewrite bind_ok by (by apply EmplaceWithoutDataRelocation_ok).
      erewrite bind_ok by (by apply Size_ok).
      erewrite bind_ok by (by apply set_size_ok).
      erewrite bind_ok by (apply begin_ok; wsimpl; apply lookup_insert_eq).
      done.
Qed.

Lemma Vector_destroy_releases w buf cap xs :
  block_at (heap w) buf (contents cap xs) → length xs ≤ cap →
  Vector_destroy {| data_ := {| buffer_ := buf; capacity_ := cap |};
                    size_ := length xs |} w
  = (Ok tt, mkWorld (release buf (heap w)) (vecs w) (constructed w)
                    (destroyed w + length xs) (throw_countdown w)).
Proof.
  intros Hblk Hle. unfold Vector_destroy. cbn [data_ size_ GetAddress buffer_].
  destruct buf as [|bo off].
  - simpl in Hblk. apply contents_nil_inv in Hblk as [-> ->]; [|done].
    simpl. unfold bind, ret. simpl.
    by rewrite Nat.add_0_r, world_eta.
  - simpl in Hblk. destruct Hblk as [-> Hb].
    erewrite bind_ok; cycle 1.
    { by eapply (destroy_n_at _ _ _ _ [] xs). }
    unfold RawMemory_dtor, Deallocate. cbn [buffer_].
    erewrite operator_delete_ok by (wsimpl; heap_lookup; done).
    wsimpl. cbn [release]. by rewrite list_insert_insert_eq.
Qed.

Lemma Vector_dtor_ok w this buf cap xs :
  owns w this buf cap xs →
  Vector_dtor this w
  = (Ok tt, mkWorld (release buf (heap w)) (delete this (vecs w))
                    (constructed w) (destroyed w + length xs)
                    (throw_countdown w)).
Proof.
  intros (Hv & Hle & Hblk). unfold Vector_dtor.
  erewrite bind_ok by (by apply get_vec_ok).
  erewrite bind_ok by (by apply Vector_destroy_releases).
  done.
Qed.

End Heap_after_Emplace.

Section Sequences_of_pushes.
Context {T : Type} `{!Elem T}.

Local Abbreviation World := (@World T).
Local Abbreviation M := (@M T).
Implicit Types (h : list (option (list (option T)))) (w : World).
Implicit Types (xs ys : list T).

Lemma length_release buf h : length (release buf h) = length h.
Proof. destruct buf; simpl; [done|]. by rewrite length_insert. Qed.

Lemma run_push_full w this buf cap xs p :
  owns w this buf cap xs →
  throw_countdown w = None →
  ∃ w' buf' cap',
    run_push this p w = (Ok tt, w')
    ∧ owns w' this buf' cap' (xs ++ [pushed p])
    ∧ throw_countdown w' = None
    ∧ (length xs = cap → cap' = grown cap ∧ buf' = Ptr (length (heap w)) 0)
    ∧ (length xs < cap → cap' = cap ∧ buf' = buf)
    ∧ alive w' = (alive w + 1)%Z
    ∧ (∀ other, other ≠ this → vecs w' !! other = vecs w !! other)
    ∧ release buf' (heap w')
      = release buf (heap w) ++ (if decide (length xs = cap) then [None] else []).
Proof.
  intros Ho Hc.
  assert (Hargs : ∀ args,
    ∃ w' buf' cap',
      (EmplaceBack this args;; ret tt) w = (Ok tt, w')
      ∧ owns w' this buf' cap' (xs ++ [arg_value args])
      ∧ throw_countdown w' = None
      ∧ (length xs = cap → cap' = grown cap ∧ buf' = Ptr (length (heap w)) 0)
      ∧ (length xs < cap → cap' = cap ∧ buf' = buf)
      ∧ alive w' = (alive w + 1)%Z
      ∧ (∀ other, other ≠ this → vecs w' !! other = vecs w !! other)
      ∧ release buf' (heap w')
        = release buf (heap w)
            ++ (if decide (length xs = cap) then [None] else [])).
  { intros args.
    destruct (Emplace_ok w this buf cap xs (length xs) args Ho)
      as (w' & buf' & cap' & E & Ho' & Hc' & Hfull & Hroom & Ha & Hothers & _);
      [done..|].
    pose proof (Emplace_heap w this buf cap xs (length xs) args Ho) as Hh.
    cbn zeta in Hh. rewrite E in Hh. cbn [snd] in Hh.
    specialize (Hh (le_n _) Hc).
    exists w', buf', cap'. rewrite firstn_all, drop_all in Ho'.
    split.
    { unfold EmplaceBack, cend.
      erewrite bind_ok; [done|].
      erewrite bind_ok by (apply end_ok, (owns_lookup _ _ _ _ _ Ho)).
      exact E. }
    do 6 (split; [done|]).
    rewrite Hh. destruct (decide (length xs = cap)) as [Hf|Hr].
    - destruct (Hfull Hf) as [_ ->]. cbn [release].
      rewrite <- (length_release buf (heap w)). apply heap_snoc_insert.
    - destruct (Hroom ltac:(destruct Ho as (_ & ? & _); lia)) as [_ ->].
      rewrite app_nil_r. destruct buf as [|b off]; [done|].
      cbn [release]. by rewrite list_insert_insert_eq. }
  destruct p as [value|value].
  - apply (Hargs (CopyOf value)).
  - apply (Hargs (MoveOf value)).
Qed.

Lemma push_all_full w this buf cap xs (ps : list Push) :
  owns w this buf cap xs →
  throw_countdown w = None →
  ∃ w' buf' cap' k,
    push_all this ps w = (Ok tt, w')
    ∧ owns w' this buf' cap' (xs ++ (pushed <$> ps))
    ∧ throw_countdown w' = None
    ∧ alive w' = (alive w + Z.of_nat (length ps))%Z
    ∧ (∀ other, other ≠ this → vecs w' !! other = vecs w !! other)
    ∧ release buf' (heap w') = release buf (heap w) ++ replicate k None.
Proof.
  revert w buf cap xs. induction ps as [|p ps IH]; intros w buf cap xs Ho Hc.
  - exists w, buf, cap, 0. cbn [fmap list_fmap replicate length push_all].
    rewrite !app_nil_r. do 3 (split; [done|]). split; [lia|done].
  - destruct (run_push_full w this buf cap xs p Ho Hc)
      as (w1 & buf1 & cap1 & E1 & Ho1 & Hc1 & _ & _ & Ha1 & Hv1 & Hr1).
    destruct (IH w1 buf1 cap1 (xs ++ [pushed p]) Ho1 Hc1)
      as (w2 & buf2 & cap2 & k & E2 & Ho2 & Hc2 & Ha2 & Hv2 & Hr2).
    exists w2, buf2, cap2,
      ((if decide (length xs = cap) then 1 else 0) + k).
    rewrite <- app_assoc in Ho2.
    split; [cbn [push_all]; by erewrite bind_ok by exact E1|].
    split; [done|]. split; [done|].
    split; [cbn [length]; lia|].
    split; [intros other Hne; by rewrite Hv2, Hv1|].
    rewrite Hr2, Hr1, <- app_assoc. f_equal.
    by destruct (decide (length xs = cap)).
Qed.


Lemma PopBack_owns w this buf cap xs x :
  owns w this buf cap (xs ++ [x]) →
  ∃ w',
    PopBack this w = (Ok tt, w')
    ∧ owns w' this buf cap xs
    ∧ constructed w' = constructed w
    ∧ destroyed w' = S (destroyed w)
    ∧ throw_countdown w' = throw_countdown w.
Proof.
  intros Ho. pose proof Ho as (Hv & Hle & _).
  destruct buf as [|b off].
  - apply owns_null_inv in Ho as [Hnil _]. by destruct xs.
  - apply owns_block_inv in Ho as (-> & Hb & Hlt).
    eexists. split; [by apply PopBack_block with (x := x)|].
    unfold owns. wsimpl. rewrite length_snoc in Hle.
    split; [|done].
    split; [by rewrite lookup_insert_eq|]. split; [lia|]. split; [done|].
    by apply list_lookup_insert_eq.
Qed.

(** X7.  A vector that is default-constructed, filled by any sequence of
    [PushBack] calls and then destroyed leaves nothing behind: as many
    objects were destroyed as were constructed, every block allocated on the
    way has been released, and all other vectors and blocks are
    untouched. *)
Theorem a_vector_filled_and_destroyed_leaves_nothing_behind w this
    (ps : list Push) :
  vecs w !! this = None →
  throw_countdown w = None →
  ∃ w' k,
    (Vector_ctor this;; push_all this ps;; Vector_dtor this) w = (Ok tt, w')
    ∧ vecs w' = vecs w
    ∧ heap w' = heap w ++ replicate k None
    ∧ alive w' = alive w.
Proof.
  intros Hv Hc.
  set (w0 := set_vecs (<[this := {| data_ := RawMemory_default; size_ := 0 |}]>
                         (vecs w)) w).
  assert (E0 : Vector_ctor this w = (Ok tt, w0)).
  { unfold Vector_ctor. by erewrite bind_ok by (by apply fresh_name_ok). }
  assert (Ho0 : owns w0 this nullptr 0 []).
  { unfold owns, w0. wsimpl. by rewrite lookup_insert_eq. }
  destruct (push_all_full w0 this nullptr 0 [] ps Ho0 Hc)
    as (w1 & buf1 & cap1 & k & E1 & Ho1 & Hc1 & Ha1 & Hv1 & Hr1).
  eexists _, k. split.
  { erewrite bind_ok by exact E0. erewrite bind_ok by exact E1.
    by apply Vector_dtor_ok with (cap := cap1). }
  wsimpl. split; [|split; [done|]].
  - apply map_eq. intros other.
    destruct (decide (other = this)) as [->|Hne].
    + by rewrite lookup_delete_eq, Hv.
    + rewrite lookup_delete_ne, Hv1 by done.
      unfold w0. wsimpl. by rewrite lookup_insert_ne.
  - assert (Ha0 : alive w0 = alive w) by done.
    unfold alive in *. wsimpl. cbn [app]. rewrite length_fmap. lia.
Qed.

(** X16.  [PushBack] followed by [PopBack] gives back the elements the vector
    had, and as many objects alive; the capacity stays where the push left
    it. *)
Theorem PushBack_then_PopBack_restores_the_elements w this buf cap xs p :
  owns w this buf cap xs →
  throw_countdown w = None →
  ∃ w' buf' cap',
    (run_push this p;; PopBack this) w = (Ok tt, w')
    ∧ owns w' this buf' cap' xs
    ∧ (length xs < cap → buf' = buf ∧ cap' = cap)
    ∧ (length xs = cap → cap' = grown cap)
    ∧ alive w' = alive w.
Proof.
  intros Ho Hc.
  destruct (run_push_full w this buf cap xs p Ho Hc)
    as (w1 & buf1 & cap1 & E1 & Ho1 & Hc1 & Hfull & Hroom & Ha1 & _).
  destruct (PopBack_owns w1 this buf1 cap1 xs (pushed p) Ho1)
    as (w2 & E2 & Ho2 & Hk2 & Hd2 & _).
  exists w2, buf1, cap1.
  split; [by erewrite bind_ok by exact E1|].
  split; [done|].
  split; [intros Hlt; by destruct (Hroom Hlt) as [-> ->]|].
  split; [intros Hf; by destruct (Hfull Hf)|].
  unfold alive in *. lia.
Qed.



End Sequences_of_pushes.

Section Whole_vectors.
Context {T : Type} `{!Elem T}.

Local Abbreviation World := (@World T).
Local Abbreviation M := (@M T).
Implicit Types (h : list (option (list (option T)))) (w : World).
Implicit Types (xs ys : list T).

Lemma Vector_copy_empty w (rm : RawMemory) :
  Vector_copy {| data_ := rm; size_ := 0 |} w
  = (Ok {| data_ := RawMemory_default; size_ := 0 |}, w).
Proof. done. Qed.

Lemma owns_frame w w' this buf cap xs :
  owns w this buf cap xs →
  vecs w' !! this = vecs w !! this →
  (∀ b, buf = Ptr b 0 → heap w' !! b = heap w !! b) →
  owns w' this buf cap xs.
Proof.
  intros (Hv & Hle & Hblk) Hvs Hh. split; [by rewrite Hvs|]. split; [done|].
  destruct buf as [|b off]; [done|]. destruct Hblk as [-> Hb].
  split; [done|]. by rewrite Hh.
Qed.

(** X3.  Copy construction builds an element-wise equal vector in storage of its
    own, of exactly [other.Size()] slots, and leaves the source as it is; the
    copy of an empty vector allocates nothing. *)
Theorem copy_construction_makes_an_independent_copy w this other buf cap ys :
  vecs w !! this = None →
  owns w other buf cap ys →
  throw_countdown w = None →
  ∃ w' buf',
    Vector_copy_ctor this other w = (Ok tt, w')
    ∧ owns w' this buf' (length ys) ys
    ∧ owns w' other buf cap ys
    ∧ separate buf' buf
    ∧ (ys = [] → buf' = nullptr ∧ heap w' = heap w)
    ∧ (ys ≠ [] → buf' = Ptr (length (heap w)) 0
                 ∧ heap w' = heap w ++ [Some (Some <$> ys)])
    ∧ constructed w' = constructed w + length ys
    ∧ destroyed w' = destroyed w.
Proof.
  intros Hfresh Ho Hc. pose proof Ho as (Hv & Hle & Hblk).
  assert (Hne : other ≠ this) by (intros ->; congruence).
  destruct (decide (ys = [])) as [->|Hys].
  - exists (set_vecs (<[this := {| data_ := RawMemory_default; size_ := 0 |}]>
                        (vecs w)) w), nullptr.
    split.
    { unfold Vector_copy_ctor.
      erewrite bind_ok by (by apply fresh_name_ok).
      erewrite bind_ok by (by apply get_vec_ok).
      erewrite bind_ok by apply Vector_copy_empty. done. }
    wsimpl. split; [|split; [|split; [done|split; [done|split; [done|]]]]].
    + unfold owns. wsimpl. by rewrite lookup_insert_eq.
    + eapply owns_frame; [exact Ho| |done]. wsimpl. by rewrite lookup_insert_ne.
    + cbn [length]. by rewrite Nat.add_0_r.
  - destruct buf as [|b off].
    { apply owns_null_inv in Ho as [-> _]. done. }
    apply owns_block_inv in Ho as (-> & Hb & Hlt).
    assert (Hpos : 0 < length ys) by (destruct ys; [done|simpl; lia]).
    eexists _, (Ptr (length (heap w)) 0). split.
    { unfold Vector_copy_ctor.
      erewrite bind_ok by (by apply fresh_name_ok).
      erewrite bind_ok by (by apply get_vec_ok).
      erewrite bind_ok by (by apply Vector_copy_ok).
      reflexivity. }
    unfold put_vec. wsimpl.
    split; [|split; [|split; [simpl; lia|split; [done|split; [done|done]]]]].
    + unfold owns. wsimpl. split; [by rewrite lookup_insert_eq|].
      split; [done|]. split; [done|].
      rewrite contents_full. by apply lookup_snoc_length.
    + unfold owns. wsimpl. split; [by rewrite lookup_insert_ne|].
      split; [done|]. split; [done|]. by rewrite lookup_app_l.
Qed.

(** X4.  When copy number [k] of a copy construction throws, the copies already
    made are destroyed and the block is released: no vector comes into
    being, the source is as it was and nothing is leaked. *)
Theorem copy_construction_that_throws_leaves_nothing_behind w this other
    buf cap ys k :
  vecs w !! this = None →
  owns w other buf cap ys →
  throw_countdown w = Some k → k < length ys →
  ∃ w',
    Vector_copy_ctor this other w = (Throw, w')
    ∧ vecs w' = vecs w
    ∧ heap w' = heap w ++ [None]
    ∧ owns w' other buf cap ys
    ∧ alive w' = alive w.
Proof.
  intros Hfresh Ho Hc Hk. pose proof Ho as (Hv & Hle & Hblk).
  destruct buf as [|b off].
  { apply owns_null_inv in Ho as [-> _]. simpl in Hk. lia. }
  apply owns_block_inv in Ho as (-> & Hb & Hlt).
  eexists. split.
  { unfold Vector_copy_ctor.
    erewrite bind_ok by (by apply fresh_name_ok).
    erewrite bind_ok by (by apply get_vec_ok).
    erewrite bind_throw; [reflexivity|].
    by eapply Vector_copy_throw. }
  wsimpl. split; [done|]. split; [done|]. split.
  - unfold owns. wsimpl. split; [done|]. split; [done|]. split; [done|].
    by rewrite lookup_app_l.
  - unfold alive. wsimpl. lia.
Qed.

(** X5.  Move construction hands the storage of the source over to the new
    vector and leaves the source empty, without storage; no element is
    constructed, destroyed or moved. *)
Theorem move_construction_takes_over_the_storage w this other buf cap xs :
  vecs w !! this = None →
  owns w other buf cap xs →
  ∃ w',
    Vector_move_ctor this other w = (Ok tt, w')
    ∧ owns w' this buf cap xs
    ∧ owns w' other nullptr 0 []
    ∧ heap w' = heap w
    ∧ constructed w' = constructed w
    ∧ destroyed w' = destroyed w
    ∧ throw_countdown w' = throw_countdown w.
Proof.
  intros Hfresh Ho. pose proof Ho as (Hv & Hle & Hblk).
  assert (Hne : other ≠ this) by (intros ->; congruence).
  eexists. split.
  { unfold Vector_move_ctor.
    erewrite bind_ok by (by apply fresh_name_ok).
    erewrite bind_ok by (by apply get_vec_ok).
    unfold RawMemory_move_assign.
    erewrite bind_ok by reflexivity.
    erewrite bind_ok by reflexivity.
    reflexivity. }
  unfold put_vec, owns. wsimpl. cbn [fst snd buffer_ capacity_ data_ size_].
  split; [|split; [|done]].
  - split; [by rewrite lookup_insert_eq|]. done.
  - split; [|done].
    by rewrite lookup_insert_ne, lookup_insert_eq by done.
Qed.

(** X23.  [Swap] exchanges storage, capacity and elements of two vectors without
    touching an element. *)
Theorem Swap_exchanges_the_contents w a bufa capa xs b bufb capb ys :
  a ≠ b →
  owns w a bufa capa xs → owns w b bufb capb ys →
  ∃ w',
    Swap a b w = (Ok tt, w')
    ∧ owns w' a bufb capb ys
    ∧ owns w' b bufa capa xs
    ∧ heap w' = heap w
    ∧ constructed w' = constructed w
    ∧ destroyed w' = destroyed w
    ∧ ∀ other, other ≠ a → other ≠ b → vecs w' !! other = vecs w !! other.
Proof.
  intros Hne (Hva & Hlea & Hba) (Hvb & Hleb & Hbb).
  eexists. split.
  { unfold Swap.
    erewrite bind_ok by (by apply get_vec_ok).
    erewrite bind_ok by (by apply get_vec_ok).
    erewrite bind_ok by reflexivity. reflexivity. }
  unfold put_vec, owns, RawMemory_Swap. wsimpl.
  cbn [fst snd buffer_ capacity_ data_ size_].
  split; [|split; [|split; [done|split; [done|split; [done|]]]]].
  - split; [|done]. by rewrite lookup_insert_ne, lookup_insert_eq by done.
  - split; [|done]. by rewrite lookup_insert_eq.
  - intros other Ha Hb. by rewrite !lookup_insert_ne by done.
Qed.

(** X24.  [Swap] is an involution, and swapping a vector with itself changes
    nothing. *)
Theorem Swap_twice_changes_nothing w a b va vb :
  vecs w !! a = Some va → vecs w !! b = Some vb →
  (Swap a b;; Swap a b) w = (Ok tt, w)
  ∧ (a = b → Swap a b w = (Ok tt, w)).
Proof.
  intros Ha Hb.
  assert (Hself : ∀ v, vecs w !! a = Some v → Swap a a w = (Ok tt, w)).
  { intros [[p c] s] Hv. unfold Swap.
    erewrite bind_ok by (by apply get_vec_ok).
    erewrite bind_ok by (by apply get_vec_ok).
    unfold put_vec, bind, RawMemory_Swap. wsimpl.
    cbn [fst snd buffer_ capacity_ data_ size_].
    rewrite insert_insert_eq, insert_id by done. by destruct w. }
  destruct (decide (a = b)) as [->|Hne].
  - split; [|intros _; by eapply Hself].
    erewrite bind_ok by (by eapply Hself). by eapply Hself.
  - split; [|done].
    destruct va as [[pa ca] sa], vb as [[pb cb] sb].
    unfold Swap.
    erewrite bind_ok; cycle 1.
    { erewrite bind_ok by (by apply get_vec_ok).
      erewrite bind_ok by (by apply get_vec_ok).
      erewrite bind_ok by reflexivity. reflexivity. }
    unfold put_vec, RawMemory_Swap. wsimpl.
    cbn [fst snd buffer_ capacity_ data_ size_].
    erewrite bind_ok; cycle 1.
    { apply get_vec_ok. wsimpl.
      by rewrite lookup_insert_ne, lookup_insert_eq by done. }
    erewrite bind_ok; cycle 1.
    { apply get_vec_ok. wsimpl. by rewrite lookup_insert_eq. }
    unfold bind. wsimpl. cbn [fst snd buffer_ capacity_ data_ size_].
    f_equal. destruct w as [h vs c d cd]. cbn in *. f_equal.
    apply map_eq. intros i.
    destruct (decide (i = b)) as [->|Hib]; [by rewrite lookup_insert_eq|].
    rewrite lookup_insert_ne by done.
    destruct (decide (i = a)) as [->|Hia]; [by rewrite lookup_insert_eq|].
    by rewrite !lookup_insert_ne by done.
Qed.

(** X25.  Move assignment between two vectors hands the storage of the source
    over and leaves the source empty; it touches neither the heap nor an
    element, so the block the destination held stays allocated with its
    elements alive. *)
Theorem move_assignment_hands_over_the_storage w a bufa capa xs b bufb capb ys :
  a ≠ b →
  owns w a bufa capa xs → owns w b bufb capb ys →
  ∃ w',
    Vector_move_assign a b w = (Ok tt, w')
    ∧ owns w' a bufb capb ys
    ∧ owns w' b nullptr 0 []
    ∧ heap w' = heap w
    ∧ constructed w' = constructed w
    ∧ destroyed w' = destroyed w
    ∧ block_at (heap w') bufa (contents capa xs).
Proof.
  intros Hne (Hva & Hlea & Hba) (Hvb & Hleb & Hbb).
  eexists. split.
  { unfold Vector_move_assign.
    erewrite bind_ok by (by apply get_vec_ok).
    erewrite bind_ok by (by apply get_vec_ok).
    unfold RawMemory_move_assign.
    erewrite bind_ok by reflexivity.
    cbn [fst snd buffer_ capacity_ data_ size_].
    erewrite bind_ok by (by apply set_data_ok).
    erewrite bind_ok
      by (apply set_data_ok; wsimpl; by rewrite lookup_insert_ne by done).
    erewrite bind_ok; cycle 1.
    { apply get_vec_ok. wsimpl.
      by rewrite lookup_insert_ne, lookup_insert_eq by done. }
    erewrite bind_ok; cycle 1.
    { apply set_size_ok. wsimpl.
      by rewrite lookup_insert_ne, lookup_insert_eq by done. }
    apply set_size_ok. wsimpl.
    by rewrite lookup_insert_ne, lookup_insert_eq by done. }
  unfold owns. wsimpl. cbn [fst snd buffer_ capacity_ data_ size_].
  split; [|split; [|done]].
  - split; [|done]. by rewrite lookup_insert_eq.
  - split; [|done]. by rewrite lookup_insert_ne, lookup_insert_eq by done.
Qed.

(** X26.  Move assignment of a vector to itself changes nothing, although the
    operator has no test for it. *)
Theorem move_assignment_to_itself_changes_nothing w a v :
  vecs w !! a = Some v →
  Vector_move_assign a a w = (Ok tt, w).
Proof.
  intros Hv. destruct v as [[p c] s]. unfold Vector_move_assign.
  erewrite bind_ok by (by apply get_vec_ok).
  erewrite bind_ok by (by apply get_vec_ok).
  unfold RawMemory_move_assign.
  erewrite bind_ok by reflexivity.
  cbn [fst snd buffer_ capacity_ data_ size_].
  erewrite bind_ok by (by apply set_data_ok).
  erewrite bind_ok by (apply set_data_ok; wsimpl; apply lookup_insert_eq).
  erewrite bind_ok by (apply get_vec_ok; wsimpl; apply lookup_insert_eq).
  erewrite bind_ok by (apply set_size_ok; wsimpl; apply lookup_insert_eq).
  erewrite set_size_ok by (wsimpl; apply lookup_insert_eq).
  wsimpl. cbn [fst snd buffer_ capacity_ data_ size_].
  rewrite !insert_insert_eq, insert_id by done. by destruct w.
Qed.

(** X6.  The destructor destroys exactly the [Size()] elements and releases the
    block; everything else is as before. *)
Theorem the_destructor_destroys_the_elements_and_releases_the_storage w this
    buf cap xs :
  owns w this buf cap xs →
  ∃ w',
    Vector_dtor this w = (Ok tt, w')
    ∧ vecs w' = delete this (vecs w)
    ∧ heap w' = release buf (heap w)
    ∧ constructed w' = constructed w
    ∧ destroyed w' = destroyed w + length xs
    ∧ throw_countdown w' = throw_countdown w.
Proof.
  intros Ho. eexists. split; [by eapply Vector_dtor_ok|]. done.
Qed.

End Whole_vectors.

Section Positions.
Context {T : Type} `{!Elem T}.

Local Abbreviation World := (@World T).
Local Abbreviation M := (@M T).
Implicit Types (h : list (option (list (option T)))) (w : World).
Implicit Types (xs ys : list T).

(** X21.  [operator[]] yields the address of element [index], [index] slots after
    [begin()], for every [index < Size()]; any other index fails the
    assertion and nothing is read. *)
Theorem subscript_addresses_the_element w this buf cap xs index :
  owns w this buf cap xs →
  (∀ x, xs !! index = Some x →
        Vector_index this index w = (Ok (ptr_add buf index), w)
        ∧ load (ptr_add buf index) w = (Ok x, w))
  ∧ (length xs ≤ index → Vector_index this index w = (Undefined, w)).
Proof.
  intros Ho. pose proof Ho as (Hv & Hle & _). split.
  - intros x Hx. pose proof (lookup_lt_Some _ _ _ Hx) as Hlt.
    split; [|by eapply owns_load].
    unfold Vector_index.
    erewrite bind_ok by (by apply Size_ok). cbn [size_].
    rewrite (proj2 (Nat.ltb_lt _ _) Hlt).
    erewrite bind_ok by reflexivity.
    erewrite bind_ok by (by apply get_vec_ok).
    apply RawMemory_index_ok. simpl. lia.
  - intros Hge. unfold Vector_index.
    erewrite bind_ok by (by apply Size_ok). cbn [size_].
    by rewrite (proj2 (Nat.ltb_ge _ _) Hge).
Qed.

(** X22.  [Erase] needs the position of an element: at [end()], which the
    assertion lets through, the range handed to [std::move] is ill-formed,
    and past [end()] the assertion fails.  [Emplace] past [end()] fails the
    assertion as well.  Nothing has been changed by then. *)
Theorem positions_past_the_last_element_are_rejected w this buf cap xs :
  owns w this buf cap xs →
  (∀ i, length xs ≤ i → Erase this (ptr_add buf i) w = (Undefined, w))
  ∧ (∀ i args, length xs < i → buf ≠ nullptr →
       Emplace this (ptr_add buf i) args w = (Undefined, w)).
Proof.
  intros Ho. pose proof Ho as (Hv & Hle & _). split.
  - intros i Hi. unfold Erase.
    erewrite bind_ok by (by apply begin_ok).
    erewrite bind_ok by (by apply end_ok).
    cbn [buffer_ data_ size_].
    destruct buf as [|b off].
    + apply owns_null_inv in Ho as [-> ->]. done.
    + apply owns_block_inv in Ho as (-> & Hb & Hlt).
      cbn [ptr_add ptr_le Nat.add]. rewrite Nat.eqb_refl. cbn [andb].
      destruct (decide (i = length xs)) as [->|Hne].
      * rewrite Nat.leb_refl.
        erewrite bind_ok by reflexivity.
        unfold std_move, range_size. cbn [ptr_le].
        rewrite Nat.eqb_refl, (proj2 (Nat.leb_gt (length xs + 1) (length xs)))
          by lia.
        done.
      * rewrite (proj2 (Nat.leb_gt i (length xs))) by lia. done.
  - intros i args Hi Hnull. unfold Emplace.
    erewrite bind_ok by (by apply begin_ok).
    erewrite bind_ok by (by apply end_ok).
    cbn [buffer_ data_ size_].
    destruct buf as [|b off]; [done|].
    apply owns_block_inv in Ho as (-> & Hb & Hlt).
    cbn [ptr_add ptr_le Nat.add]. rewrite Nat.eqb_refl. cbn [andb].
    rewrite (proj2 (Nat.leb_gt i (length xs))) by lia. done.
Qed.

(** X17.  [Emplace] (and so [Insert], which forwards to it) puts the new element
    before the one at [pos]: the elements before [pos] stay, those from
    [pos] on follow the new element.  With room to spare the storage is
    kept and only its block changes; a full vector moves to a block of
    doubled capacity and the old block is released. *)
Theorem Emplace_inserts_before_the_position w this buf cap xs index args :
  owns w this buf cap xs →
  index ≤ length xs →
  throw_countdown w = None →
  let ys := take index xs ++ arg_value args :: drop index xs in
  ∃ w' buf' cap',
    Emplace this (ptr_add buf index) args w = (Ok (ptr_add buf' index), w')
    ∧ owns w' this buf' cap' ys
    ∧ (length xs < cap →
       buf' = buf ∧ cap' = cap
       ∧ ∀ b, buf = Ptr b 0 →
           heap w' = <[b := Some (contents cap ys)]> (heap w))
    ∧ (length xs = cap →
       buf' = Ptr (length (heap w)) 0 ∧ cap' = grown cap
       ∧ heap w' = release buf (heap w) ++ [Some (contents (grown cap) ys)])
    ∧ alive w' = (alive w + 1)%Z
    ∧ ∀ other, other ≠ this → vecs w' !! other = vecs w !! other.
Proof.
  intros Ho Hi Hc ys.
  destruct (Emplace_ok w this buf cap xs index args Ho Hi Hc)
    as (w' & buf' & cap' & E & Ho' & Hc' & Hfull & Hroom & Ha & Hothers & _).
  pose proof (Emplace_heap w this buf cap xs index args Ho Hi Hc) as Hh.
  cbn zeta in Hh. rewrite E in Hh. cbn [snd] in Hh.
  exists w', buf', cap'. split; [done|]. split; [done|].
  split; [|split; [|done]].
  - intros Hlt. destruct (Hroom Hlt) as [-> ->]. split; [done|]. split; [done|].
    intros b ->. by rewrite decide_False in Hh by lia.
  - intros Hf. destruct (Hfull Hf) as [-> ->]. split; [done|]. split; [done|].
    by rewrite decide_True in Hh by done.
Qed.

(** X18.  [Erase] at the iterator returned by [Insert] undoes the insertion: the
    vector holds the elements it had, and as many objects are alive as
    before. *)
Theorem Insert_then_Erase_restores_the_elements w this buf cap xs index value :
  owns w this buf cap xs →
  index ≤ length xs →
  throw_countdown w = None →
  ∃ w' buf' cap',
    (it <- Insert this (ptr_add buf index) value;; Erase this it) w
    = (Ok (ptr_add buf' index), w')
    ∧ owns w' this buf' cap' xs
    ∧ (length xs < cap → buf' = buf ∧ cap' = cap)
    ∧ alive w' = alive w.
Proof.
  intros Ho Hi Hc.
  destruct (Emplace_ok w this buf cap xs index (CopyOf value) Ho Hi Hc)
    as (w1 & buf1 & cap1 & E1 & Ho1 & Hc1 & _ & Hroom & Ha1 & _).
  destruct (Erase_ok w1 this buf1 cap1 _ index Ho1) as
    (w2 & E2 & Ho2 & _ & Hk2 & Hd2 & _); [|done|].
  { rewrite length_inserted by done. lia. }
  exists w2, buf1, cap1.
  split; [unfold Insert; by erewrite bind_ok by exact E1|].
  split.
  { cbn [arg_value] in Ho2.
    pose proof (delete_middle (take index xs) (drop index xs) value) as Hdel.
    rewrite length_take, Nat.min_l, take_drop in Hdel by lia.
    by rewrite Hdel in Ho2. }
  split; [intros Hlt; by destruct (Hroom Hlt) as [-> ->]|].
  unfold alive in *. lia.
Qed.

Lemma T_construct_copy_throw w value :
  throw_countdown w = Some 0 →
  T_construct (CopyOf value) w
  = (Throw, mkWorld (heap w) (vecs w) (constructed w) (destroyed w) None).
Proof.
  intros Hc. unfold T_construct.
  by erewrite bind_throw by (by apply may_throw_throw).
Qed.

(** X19.  [Insert] with room to spare has the strong guarantee against a throwing
    copy of the value: the copy is made before any element is touched, so
    the vector, the heap and the counters are as before.  [PushBack] is the
    case of the end position. *)
Theorem Insert_with_room_that_throws_changes_nothing w this buf cap xs index
    value :
  owns w this buf cap xs →
  index ≤ length xs →
  length xs < cap →
  throw_countdown w = Some 0 →
  Insert this (ptr_add buf index) value w = (Throw, set_throw_countdown None w)
  ∧ PushBack this value w = (Throw, set_throw_countdown None w).
Proof.
  intros Ho Hi Hroom Hc. pose proof Ho as (Hv & Hle & _).
  destruct buf as [|b off].
  { apply owns_null_inv in Ho as [_ ->]. lia. }
  apply owns_block_inv in Ho as (-> & Hb & Hlt).
  assert (Hat : ∀ i, i ≤ length xs →
    Emplace this (Ptr b i) (CopyOf value) w
    = (Throw, set_throw_countdown None w)).
  { intros i Hile. unfold Emplace.
    erewrite bind_ok by (by apply begin_ok).
    erewrite bind_ok by (by apply end_ok).
    cbn [buffer_ data_ size_ ptr_add ptr_le Nat.add].
    rewrite Nat.eqb_refl, (proj2 (Nat.leb_le _ _) Hile). cbn [andb].
    erewrite bind_ok by reflexivity.
    erewrite bind_ok by (by apply Size_ok).
    erewrite bind_ok by (by apply Capacity_ok).
    cbn [size_ data_ capacity_ RawMemory_Capacity distance].
    rewrite (proj2 (Nat.eqb_neq _ _)) by lia.
    erewrite bind_throw; [reflexivity|].
    unfold EmplaceWithoutDataRelocation.
    erewrite bind_ok by (by apply end_ok).
    erewrite bind_ok by (by apply get_vec_ok).
    cbn [buffer_ data_ size_ ptr_add Nat.add].
    destruct (decide (Ptr b (length xs) ≠ Ptr b i)) as [Hmid|Hend].
    - erewrite bind_throw; [reflexivity|]. by apply T_construct_copy_throw.
    - erewrite bind_ok by (apply RawMemory_plus_ok; simpl; lia).
      unfold construct_at. erewrite bind_throw; [reflexivity|].
      by apply T_construct_copy_throw. }
  split.
  - unfold Insert. cbn [ptr_add Nat.add]. by apply Hat.
  - unfold PushBack, EmplaceBack, cend.
    erewrite bind_throw; [reflexivity|].
    erewrite bind_ok by (by apply end_ok).
    cbn [buffer_ data_ size_ ptr_add Nat.add]. by apply Hat.
Qed.

End Positions.

Section Copy_assignment_throws.
Context {T : Type} `{!Elem T}.

Local Abbreviation World := (@World T).
Local Abbreviation M := (@M T).
Implicit Types (h : list (option (list (option T)))) (w : World).
Implicit Types (pre post spre spost : list (option T)) (xs ys : list T).






End Copy_assignment_throws.

Section Resize_throws.
Context {T : Type} `{!Elem T}.

Local Abbreviation World := (@World T).
Local Abbreviation M := (@M T).
Implicit Types (h : list (option (list (option T)))) (w : World).
Implicit Types (xs ys : list T).



End Resize_throws.

(** ** Facts about the worlds of the examples *)

Lemma owns_two_objs k :
  owns (arm k two_objs_armed).2 0 (Ptr 1 0) 2 [obj 1; obj 2].
Proof.
  unfold owns. split; [vm_compute; reflexivity|].
  split; [simpl; lia|]. split; vm_compute; reflexivity.
Defined.

Lemma owns_two_vectors_armed_0 k :
  owns (arm k two_vectors).2 0 (Ptr 2 0) 4 [1; 2; 3]%Z.
Proof.
  unfold owns. split; [vm_compute; reflexivity|].
  split; [simpl; lia|]. split; vm_compute; reflexivity.
Defined.


Lemma owns_default :
  owns no_ints 0 nullptr 0 [].
Proof.
  unfold owns. split; [vm_compute; reflexivity|].
  split; [simpl; lia|]. vm_compute; reflexivity.
Defined.

(** ** Instances of the theorems at the examples *)






Lemma Resize_to_a_smaller_length_destroys_the_tail_witness :
  ∃ w',
    Resize 0 1 two_vectors = (Ok (), w')
    ∧ owns w' 0 (Ptr 2 0) 4 (take 1 [1%Z; 2%Z; 3%Z])
      ∧ constructed w' = constructed two_vectors
        ∧ destroyed w' =
          destroyed two_vectors + (length [1%Z; 2%Z; 3%Z] - 1)
          ∧ length (heap w') = length (heap two_vectors)
            ∧ throw_countdown w' = throw_countdown two_vectors.
Proof.
  apply (Resize_to_a_smaller_length_destroys_the_tail two_vectors 0
           (Ptr 2 0) 4 [1; 2; 3]%Z 1).
  - exact owns_two_vectors_0.
  - simpl; lia.
Defined.

Lemma PopBack_destroys_the_last_element_witness :
  ∃ w',
    PopBack 0 two_vectors = (Ok (), w')
    ∧ owns w' 0 (Ptr 2 0) 4 [1%Z; 2%Z]
      ∧ constructed w' = constructed two_vectors
        ∧ destroyed w' = S (destroyed two_vectors)
          ∧ length (heap w') = length (heap two_vectors).
Proof.
  apply (PopBack_destroys_the_last_element two_vectors 0 (Ptr 2 0) 4
           [1; 2]%Z 3%Z).
  - exact owns_two_vectors_0.
Defined.

Lemma PopBack_on_an_empty_vector_does_nothing_witness :
  PopBack 0 no_ints = (Ok (), no_ints).
Proof.
  apply (PopBack_on_an_empty_vector_does_nothing no_ints 0 nullptr 0).
  - exact owns_default.
Defined.

Lemma a_vector_filled_and_destroyed_leaves_nothing_behind_witness :
  ∃ w' (k : nat),
    (Vector_ctor 5;;
     push_all 5 [ByCopy 1%Z; ByMove 2%Z; ByCopy 3%Z];; Vector_dtor 5)
      two_vectors =
    (Ok (), w')
    ∧ vecs w' = vecs two_vectors
      ∧ heap w' = heap two_vectors ++ replicate k None
        ∧ alive w' = alive two_vectors.
Proof.
  apply (a_vector_filled_and_destroyed_leaves_nothing_behind two_vectors 5
           [ByCopy 1; ByMove 2; ByCopy 3]%Z).
  - reflexivity.
  - reflexivity.
Defined.

Lemma PushBack_then_PopBack_restores_the_elements_witness :
  ∃ w' (buf' : ptr) (cap' : nat),
    (run_push 0 (ByCopy 9%Z);; PopBack 0) two_vectors = (Ok (), w')
    ∧ owns w' 0 buf' cap' [1%Z; 2%Z; 3%Z]
      ∧ (length [1%Z; 2%Z; 3%Z] < 4 → buf' = Ptr 2 0 ∧ cap' = 4)
        ∧ (length [1%Z; 2%Z; 3%Z] = 4 → cap' = grown 4)
          ∧ alive w' = alive two_vectors.
Proof.
  apply (PushBack_then_PopBack_restores_the_elements two_vectors 0 (Ptr 2 0)
           4 [1; 2; 3]%Z (ByCopy 9%Z)).
  - exact owns_two_vectors_0.
  - reflexivity.
Defined.


Lemma copy_construction_makes_an_independent_copy_witness :
  ∃ w' (buf' : ptr),
    Vector_copy_ctor 5 0 two_vectors = (Ok (), w')
    ∧ owns w' 5 buf' (length [1%Z; 2%Z; 3%Z]) [1%Z; 2%Z; 3%Z]
      ∧ owns w' 0 (Ptr 2 0) 4 [1%Z; 2%Z; 3%Z]
        ∧ separate buf' (Ptr 2 0)
          ∧ ([1%Z; 2%Z; 3%Z] = []
             → buf' = nullptr ∧ heap w' = heap two_vectors)
            ∧ ([1%Z; 2%Z; 3%Z] ≠ []
               → buf' = Ptr (length (heap two_vectors)) 0
                 ∧ heap w' =
                   heap two_vectors ++
                   [Some (Some <$> [1%Z; 2%Z; 3%Z])])
              ∧ constructed w' =
                constructed two_vectors + length [1%Z; 2%Z; 3%Z]
                ∧ destroyed w' = destroyed two_vectors.
Proof.
  apply (copy_construction_makes_an_independent_copy two_vectors 5 0
           (Ptr 2 0) 4 [1; 2; 3]%Z).
  - reflexivity.
  - exact owns_two_vectors_0.
  - reflexivity.
Defined.

Lemma copy_construction_that_throws_leaves_nothing_behind_witness :
  ∃ w',
    Vector_copy_ctor 5 0 (arm 1 two_objs_armed).2 = (Throw, w')
    ∧ vecs w' = vecs (arm 1 two_objs_armed).2
      ∧ heap w' = heap (arm 1 two_objs_armed).2 ++ [None]
        ∧ owns w' 0 (Ptr 1 0) 2 [obj 1; obj 2]
          ∧ alive w' = alive (arm 1 two_objs_armed).2.
Proof.
  apply (@copy_construction_that_throws_leaves_nothing_behind Obj Elem_Obj
           (arm 1 two_objs_armed).2 5 0 (Ptr 1 0) 2 [obj 1; obj 2] 1).
  - reflexivity.
  - exact (owns_two_objs 1).
  - reflexivity.
  - simpl; lia.
Defined.

Lemma move_construction_takes_over_the_storage_witness :
  ∃ w',
    Vector_move_ctor 5 0 two_vectors = (Ok (), w')
    ∧ owns w' 5 (Ptr 2 0) 4 [1%Z; 2%Z; 3%Z]
      ∧ owns w' 0 nullptr 0 []
        ∧ heap w' = heap two_vectors
          ∧ constructed w' = constructed two_vectors
            ∧ destroyed w' = destroyed two_vectors
              ∧ throw_countdown w' = throw_countdown two_vectors.
Proof.
  apply (move_construction_takes_over_the_storage two_vectors 5 0 (Ptr 2 0)
           4 [1; 2; 3]%Z).
  - reflexivity.
  - exact owns_two_vectors_0.
Defined.

Lemma Swap_exchanges_the_contents_witness :
  ∃ w',
    Swap 0 1 two_vectors = (Ok (), w')
    ∧ owns w' 0 (Ptr 3 0) 1 [7%Z]
      ∧ owns w' 1 (Ptr 2 0) 4 [1%Z; 2%Z; 3%Z]
        ∧ heap w' = heap two_vectors
          ∧ constructed w' = constructed two_vectors
            ∧ destroyed w' = destroyed two_vectors
              ∧ ∀ other : nat,
                  other ≠ 0
                  → other ≠ 1
                    → vecs w' !! other = vecs two_vectors !! other.
Proof.
  apply (Swap_exchanges_the_contents two_vectors 0 (Ptr 2 0) 4 [1; 2; 3]%Z 1
           (Ptr 3 0) 1 [7]%Z).
  - lia.
  - exact owns_two_vectors_0.
  - exact owns_two_vectors_1.
Defined.

Lemma Swap_twice_changes_nothing_witness :
  (Swap 0 1;; Swap 0 1) two_vectors = (Ok (), two_vectors)
  ∧ (0 = 1 → Swap 0 1 two_vectors = (Ok (), two_vectors)).
Proof.
  apply (Swap_twice_changes_nothing two_vectors 0 1
           {| data_ := {| buffer_ := Ptr 2 0; capacity_ := 4 |}; size_ := 3 |}
           {| data_ := {| buffer_ := Ptr 3 0; capacity_ := 1 |}; size_ := 1 |}).
  - reflexivity.
  - reflexivity.
Defined.

Lemma move_assignment_hands_over_the_storage_witness :
  ∃ w',
    Vector_move_assign 0 1 two_vectors = (Ok (), w')
    ∧ owns w' 0 (Ptr 3 0) 1 [7%Z]
      ∧ owns w' 1 nullptr 0 []
        ∧ heap w' = heap two_vectors
          ∧ constructed w' = constructed two_vectors
            ∧ destroyed w' = destroyed two_vectors
              ∧ block_at (heap w') (Ptr 2 0)
                  (contents 4 [1%Z; 2%Z; 3%Z]).
Proof.
  apply (move_assignment_hands_over_the_storage two_vectors 0 (Ptr 2 0) 4
           [1; 2; 3]%Z 1 (Ptr 3 0) 1 [7]%Z).
  - lia.
  - exact owns_two_vectors_0.
  - exact owns_two_vectors_1.
Defined.

Lemma move_assignment_to_itself_changes_nothing_witness :
  Vector_move_assign 0 0 two_vectors = (Ok (), two_vectors).
Proof.
  apply (move_assignment_to_itself_changes_nothing two_vectors 0
           {| data_ := {| buffer_ := Ptr 2 0; capacity_ := 4 |}; size_ := 3 |}).
  - reflexivity.
Defined.

Lemma the_destructor_destroys_the_elements_and_releases_the_storage_witness :
  ∃ w',
    Vector_dtor 0 two_vectors = (Ok (), w')
    ∧ vecs w' = delete 0 (vecs two_vectors)
      ∧ heap w' = release (Ptr 2 0) (heap two_vectors)
        ∧ constructed w' = constructed two_vectors
          ∧ destroyed w' =
            destroyed two_vectors + length [1%Z; 2%Z; 3%Z]
            ∧ throw_countdown w' = throw_countdown two_vectors.
Proof.
  apply (the_destructor_destroys_the_elements_and_releases_the_storage
           two_vectors 0 (Ptr 2 0) 4 [1; 2; 3]%Z).
  - exact owns_two_vectors_0.
Defined.

Lemma subscript_addresses_the_element_witness :
  (∀ x : Z,
     [1%Z; 2%Z; 3%Z] !! 1 = Some x
     → Vector_index 0 1 two_vectors =
       (Ok (ptr_add (Ptr 2 0) 1), two_vectors)
       ∧ load (ptr_add (Ptr 2 0) 1) two_vectors = (Ok x, two_vectors))
  ∧ (length [1%Z; 2%Z; 3%Z] ≤ 1
     → Vector_index 0 1 two_vectors = (Undefined, two_vectors)).
Proof.
  apply (subscript_addresses_the_element two_vectors 0 (Ptr 2 0) 4
           [1; 2; 3]%Z 1).
  - exact owns_two_vectors_0.
Defined.

Lemma positions_past_the_last_element_are_rejected_witness :
  (∀ i : nat,
     length [1%Z; 2%Z; 3%Z] ≤ i
     → Erase 0 (ptr_add (Ptr 2 0) i) two_vectors =
       (Undefined, two_vectors))
  ∧ ∀ (i : nat) (args : Args),
      length [1%Z; 2%Z; 3%Z] < i
      → Ptr 2 0 ≠ nullptr
        → Emplace 0 (ptr_add (Ptr 2 0) i) args two_vectors =
          (Undefined, two_vectors).
Proof.
  apply (positions_past_the_last_element_are_rejected two_vectors 0
           (Ptr 2 0) 4 [1; 2; 3]%Z).
  - exact owns_two_vectors_0.
Defined.

Lemma Emplace_inserts_before_the_position_witness :
  let ys :=
    take 1 [1%Z; 2%Z; 3%Z] ++
    arg_value (CopyOf 9%Z) :: drop 1 [1%Z; 2%Z; 3%Z] in
  ∃ w' (buf' : ptr) (cap' : nat),
    Emplace 0 (ptr_add (Ptr 2 0) 1) (CopyOf 9%Z) two_vectors =
    (Ok (ptr_add buf' 1), w')
    ∧ owns w' 0 buf' cap' ys
      ∧ (length [1%Z; 2%Z; 3%Z] < 4
         → buf' = Ptr 2 0
           ∧ cap' = 4
             ∧ ∀ b : nat,
                 Ptr 2 0 = Ptr b 0
                 → heap w' =
                   <[b:=Some (contents 4 ys)]> (heap two_vectors))
        ∧ (length [1%Z; 2%Z; 3%Z] = 4
           → buf' = Ptr (length (heap two_vectors)) 0
             ∧ cap' = grown 4
               ∧ heap w' =
                 release (Ptr 2 0) (heap two_vectors) ++
                 [Some (contents (grown 4) ys)])
          ∧ alive w' = (alive two_vectors + 1)%Z
            ∧ ∀ other : nat,
                other ≠ 0
                → vecs w' !! other = vecs two_vectors !! other.
Proof.
  apply (Emplace_inserts_before_the_position two_vectors 0 (Ptr 2 0) 4
           [1; 2; 3]%Z 1 (CopyOf 9%Z)).
  - exact owns_two_vectors_0.
  - simpl; lia.
  - reflexivity.
Defined.

Lemma Insert_then_Erase_restores_the_elements_witness :
  ∃ w' (buf' : ptr) (cap' : nat),
    (it <- Insert 0 (ptr_add (Ptr 2 0) 1) 9%Z;; Erase 0 it)
      two_vectors =
    (Ok (ptr_add buf' 1), w')
    ∧ owns w' 0 buf' cap' [1%Z; 2%Z; 3%Z]
      ∧ (length [1%Z; 2%Z; 3%Z] < 4 → buf' = Ptr 2 0 ∧ cap' = 4)
        ∧ alive w' = alive two_vectors.
Proof.
  apply (Insert_then_Erase_restores_the_elements two_vectors 0 (Ptr 2 0) 4
           [1; 2; 3]%Z 1 9%Z).
  - exact owns_two_vectors_0.
  - simpl; lia.
  - reflexivity.
Defined.

Lemma Insert_with_room_that_throws_changes_nothing_witness :
  Insert 0 (ptr_add (Ptr 2 0) 1) 9%Z (arm 0 two_vectors).2 =
  (Throw, set_throw_countdown None (arm 0 two_vectors).2)
  ∧ PushBack 0 9%Z (arm 0 two_vectors).2 =
    (Throw, set_throw_countdown None (arm 0 two_vectors).2).
Proof.
  apply (Insert_with_room_that_throws_changes_nothing (arm 0 two_vectors).2
           0 (Ptr 2 0) 4 [1; 2; 3]%Z 1 9%Z).
  - exact (owns_two_vectors_armed_0 0).
  - simpl; lia.
  - simpl; lia.
  - reflexivity.
Defined.



Lemma Emplace_relocation_throw_witness :
  ∃ w',
    Emplace 0 (Ptr 1 1) (Forward (obj 3)) two_objs_armed = (Throw, w')
    ∧ vecs w' = vecs two_objs_armed
      ∧ owns w' 0 (Ptr 1 0) (length [obj 1; obj 2]) [obj 1; obj 2]
        ∧ heap w' = heap two_objs_armed ++ [None]
          ∧ alive w' =
            (alive two_objs_armed + Z.of_nat (leaked 2 1))%Z.
Proof.
  apply (@Emplace_relocation_throw Obj Elem_Obj two_objs_armed 0 1
           [obj 1; obj 2] 1 (Forward (obj 3)) 2).
  - reflexivity.
  - exact (owns_two_objs 2).
  - simpl; lia.
  - reflexivity.
  - simpl; lia.
Defined.
